(** * Chrome Tabber: session model, diff engine, window matcher and
      phase sequencer, embedded from the JavaScript sources.

    - [SyncPhaseHandler]  : sync_phase_handler.js
    - [Tabs]              : tabs.js (getTabsetWinCount, getTabsDiff, getTabsetDiff)
    - [TabberSession]     : tabber_session.js (codec, update, getSessionDiff)
    - [Tabber]            : tabber.js (setOptions, saveLocalToRemote_,
                            getWindowScore_, syncBrowserChromeMapWindows_)
    - [Restore]           : tabber.js, the phases of a restore
                            (syncBrowserCreatesAndMoves_, syncBrowserDeletes_,
                            the rehoming of syncBrowserChromeMapWindows_,
                            syncBrowserChromeMove_, syncBrowserSetActive_)
    - [Sync]              : tabber.js (doSync_, saveLocalToRemote,
                            syncBrowserFromRemote, scheduleLocalSessionUpdate_)

    JavaScript numbers that the program uses as counters, indices and
    identifiers are integers here ([Z]); strings are [string].  Console
    logging is left out. *)

From Stdlib Require Import ZArith List String Ascii Bool Lia Arith.
From Stdlib Require Import DecimalString DecimalNat Permutation.
Import ListNotations.
Open Scope Z_scope.

(* ================================================================== *)
(** * sync_phase_handler.js                                            *)
(* ================================================================== *)

Module SyncPhaseHandler.

(** JavaScript functions handed to the handler are opaque to it: they are
    identified by a name, and calling one is recorded as an effect. *)
Definition callback := nat.

(** One argument that chrome passes to a callback. *)
Inductive arg : Type :=
| ANull
| AVal (z : Z).

(** What the handler does to the outside world. *)
Inductive effect : Type :=
| Apply (chromeFunction : callback) (args : list arg)
    (** [chromeFunction.apply(null, args)], changeDone appended to [args] *)
| StepCalled (cb : callback) (ctx : option Z) (args : list arg)
    (** [loc_stepCallback(loc_stepCallbackContext, args)] *)
| Completed (cb : callback).
    (** [completionCallback()] *)

(** The private globals of the file. *)
Record state : Type := mkState {
  change_count_ : Z;
  pending_changes : bool;
  completionCallback : callback;
  stepCallback : option callback;
  stepCallbackContext : option Z
}.

Definition initHandler (cb : callback) (st : state) : state :=
  {| change_count_ := 0;
     pending_changes := true;
     completionCallback := cb;
     stepCallback := stepCallback st;
     stepCallbackContext := stepCallbackContext st |}.

Definition setDoStepCallback (cb : callback) (ctx : Z) (st : state) : state :=
  {| change_count_ := change_count_ st;
     pending_changes := pending_changes st;
     completionCallback := completionCallback st;
     stepCallback := Some cb;
     stepCallbackContext := Some ctx |}.

(** [doStep]: the counter goes up, then the chrome function is applied. *)
Definition doStep (f : callback) (args : list arg) (st : state)
  : state * list effect :=
  ({| change_count_ := change_count_ st + 1;
      pending_changes := pending_changes st;
      completionCallback := completionCallback st;
      stepCallback := stepCallback st;
      stepCallbackContext := stepCallbackContext st |},
   [Apply f args]).

(** First half of [changeDone]: the one-shot step callback, cleared before
    it is called.  The callback runs here, so whatever it calls on the
    handler happens between this half and the next. *)
Definition changeDone_enter (args : list arg) (st : state)
  : state * list effect :=
  match stepCallback st with
  | Some cb =>
      ({| change_count_ := change_count_ st;
          pending_changes := pending_changes st;
          completionCallback := completionCallback st;
          stepCallback := None;
          stepCallbackContext := None |},
       [StepCalled cb (stepCallbackContext st) args])
  | None => (st, [])
  end.

(** Second half of [changeDone]: decrement (never below zero), then the
    completion test. *)
Definition changeDone_exit (st : state) : state * list effect :=
  let c := if 0 <? change_count_ st then change_count_ st - 1
           else change_count_ st in
  let st' := {| change_count_ := c;
                pending_changes := pending_changes st;
                completionCallback := completionCallback st;
                stepCallback := stepCallback st;
                stepCallbackContext := stepCallbackContext st |} in
  if (c =? 0) && negb (pending_changes st)
  then (st', [Completed (completionCallback st)])
  else (st', []).

Definition changeDone (args : list arg) (st : state) : state * list effect :=
  let '(st1, out1) := changeDone_enter args st in
  let '(st2, out2) := changeDone_exit st1 in
  (st2, out1 ++ out2).

Definition finalize (st : state) : state * list effect :=
  let st' := {| change_count_ := change_count_ st;
                pending_changes := false;
                completionCallback := completionCallback st;
                stepCallback := stepCallback st;
                stepCallbackContext := stepCallbackContext st |} in
  if change_count_ st =? 0 then changeDone [ANull] st' else (st', []).

(** ** Runs of the handler

    A run is the sequence of entries into the handler.  A completion of a
    chrome operation is the pair [ChangeDoneEnter], [ChangeDoneExit]; other
    entries may fall between the two when the step callback calls back into
    the handler. *)
Inductive call : Type :=
| InitHandler (cb : callback)
| SetDoStepCallback (cb : callback) (ctx : Z)
| DoStep (f : callback) (args : list arg)
| ChangeDoneEnter (args : list arg)
| ChangeDoneExit
| Finalize.

Definition step (c : call) (st : state) : state * list effect :=
  match c with
  | InitHandler cb => (initHandler cb st, [])
  | SetDoStepCallback cb ctx => (setDoStepCallback cb ctx st, [])
  | DoStep f args => doStep f args st
  | ChangeDoneEnter args => changeDone_enter args st
  | ChangeDoneExit => changeDone_exit st
  | Finalize => finalize st
  end.

Fixpoint run (tr : list call) (st : state) : state * list effect :=
  match tr with
  | [] => (st, [])
  | c :: tr' =>
      let '(st1, out1) := step c st in
      let '(st2, out2) := run tr' st1 in
      (st2, out1 ++ out2)
  end.

Definition is_completed (e : effect) : bool :=
  match e with Completed _ => true | _ => false end.

(** The completion callbacks fired, in order. *)
Definition completions (out : list effect) : list effect :=
  filter is_completed out.

(** ** The protocol of one phase

    How far a phase has come: steps submitted, completions begun and
    finished, and whether [finalize] was called. *)
Record progress : Type := mkProgress {
  submitted : nat;
  entered : nat;
  exited : nat;
  finalized : bool
}.

Definition start : progress := mkProgress 0 0 0 false.

(** A step is submitted only before [finalize]; [finalize] is called once;
    a completion belongs to a submitted step and finishes after it began;
    the handler is not re-initialised within the phase. *)
Definition allowed (p : progress) (c : call) : bool :=
  match c with
  | InitHandler _ => false
  | SetDoStepCallback _ _ => true
  | DoStep _ _ => negb (finalized p)
  | ChangeDoneEnter _ => (entered p <? submitted p)%nat
  | ChangeDoneExit => (exited p <? entered p)%nat
  | Finalize => negb (finalized p)
  end.

Definition advance (p : progress) (c : call) : progress :=
  match c with
  | InitHandler _ => p
  | SetDoStepCallback _ _ => p
  | DoStep _ _ => mkProgress (S (submitted p)) (entered p) (exited p) (finalized p)
  | ChangeDoneEnter _ => mkProgress (submitted p) (S (entered p)) (exited p) (finalized p)
  | ChangeDoneExit => mkProgress (submitted p) (entered p) (S (exited p)) (finalized p)
  | Finalize => mkProgress (submitted p) (entered p) (exited p) true
  end.

Fixpoint follows (p : progress) (tr : list call) : option progress :=
  match tr with
  | [] => Some p
  | c :: tr' => if allowed p c then follows (advance p c) tr' else None
  end.

(** [phase N tr]: after [initHandler], [tr] submits [N] steps, then
    finalizes, and every submitted step completes exactly once. *)
Definition phase (N : nat) (tr : list call) : bool :=
  match follows start tr with
  | Some p => (submitted p =? N)%nat && (entered p =? N)%nat
              && (exited p =? N)%nat && finalized p
  | None => false
  end.

(** The handler's globals mirror the progress of the phase whose
    completion callback is [onComplete]. *)
Definition mirrors (onComplete : callback) (p : progress) (st : state) : Prop :=
  change_count_ st = Z.of_nat (submitted p) - Z.of_nat (exited p)
  /\ pending_changes st = negb (finalized p)
  /\ completionCallback st = onComplete
  /\ (exited p <= entered p)%nat
  /\ (entered p <= submitted p)%nat.

(** The phase is over: finalized, and every submitted step has finished. *)
Definition over (p : progress) : bool :=
  finalized p && (exited p =? submitted p)%nat.

Definition is_exit (c : call) : bool :=
  match c with ChangeDoneExit => true | _ => false end.

Definition is_finalize (c : call) : bool :=
  match c with Finalize => true | _ => false end.

(** The step callbacks called, in order, and the calls that arm one. *)
Definition is_step_called (e : effect) : bool :=
  match e with StepCalled _ _ _ => true | _ => false end.

Definition step_calls (out : list effect) : list effect :=
  filter is_step_called out.

(** 1 when a step callback is armed, 0 when none is. *)
Definition armed (st : state) : nat :=
  match stepCallback st with Some _ => 1%nat | None => 0%nat end.

Definition is_arming (c : call) : bool :=
  match c with SetDoStepCallback _ _ => true | _ => false end.

End SyncPhaseHandler.


(* ================================================================== *)
(** * JavaScript values used by the session code                       *)
(* ================================================================== *)

Module JS.

(** [String(n)] and [n + ' text'] for an integer [n]: its decimal digits,
    after a minus sign when it is negative. *)
Definition String_of_number (z : Z) : string :=
  if z <? 0
  then String "-" (NilZero.string_of_uint (Nat.to_uint (Z.to_nat (- z))))
  else NilZero.string_of_uint (Nat.to_uint (Z.to_nat z)).

(** A string is truthy when it is not empty. *)
Definition truthy (s : string) : bool :=
  match s with EmptyString => false | String _ _ => true end.

(** [s.split(sep)] for a one-character separator. *)
Fixpoint split (sep : ascii) (s : string) : list string :=
  match s with
  | EmptyString => [EmptyString]
  | String c r =>
      if Ascii.eqb c sep then EmptyString :: split sep r
      else match split sep r with
           | [] => [String c EmptyString]
           | p :: ps => String c p :: ps
           end
  end.

Definition is_ws (c : ascii) : bool :=
  let n := nat_of_ascii c in
  (n =? 32)%nat || ((9 <=? n)%nat && (n <=? 13)%nat).

Fixpoint skip_ws (s : string) : string :=
  match s with
  | String c r => if is_ws c then skip_ws r else s
  | EmptyString => s
  end.

Definition digit_of (c : ascii) : option Z :=
  let n := nat_of_ascii c in
  if (48 <=? n)%nat && (n <=? 57)%nat then Some (Z.of_nat n - 48) else None.

(** The longest prefix of decimal digits, [acc] being what was read so
    far ([None]: no digit yet). *)
Fixpoint digits (s : string) (acc : option Z) : option Z :=
  match s with
  | String c r =>
      match digit_of c with
      | Some d =>
          digits r (Some (10 * match acc with Some a => a | None => 0 end + d))
      | None => acc
      end
  | EmptyString => acc
  end.

(** [parseInt(s, 10)]; [None] is NaN.  Leading ASCII white space is
    skipped, then an optional sign, then the digits. *)
Definition parseInt (s : string) : option Z :=
  match skip_ws s with
  | String "-"%char r => option_map Z.opp (digits r None)
  | String "+"%char r => digits r None
  | s1 => digits s1 None
  end.

(** [arr.slice(0, e)]: a negative [e] counts from the end. *)
Definition slice0 {A : Type} (l : list A) (e : Z) : list A :=
  if e <? 0
  then firstn (Z.to_nat (Z.max (Z.of_nat (List.length l) + e) 0)) l
  else firstn (Z.to_nat e) l.

End JS.

(* ================================================================== *)
(** * tabs.js                                                          *)
(* ================================================================== *)

Module Tabs.

(** TabberInt.type.Tab: [url] and [index] are required, the other fields
    may be undefined ([None]). *)
Record Tab : Type := mkTab {
  url : string;
  index : Z;
  id : option Z;
  windowId : option Z;
  active : option bool;
  title : option string
}.

(** TabberInt.type.TabDiff *)
Record TabDiff : Type := mkDiff {
  major : string;
  minor : string;
  err : bool
}.

Definition option_eqb {A : Type} (eqb : A -> A -> bool) (x y : option A) : bool :=
  match x, y with
  | Some a, Some b => eqb a b
  | None, None => true
  | _, _ => false
  end.

(** [winset[tab.windowId] = true]: the keys of [winset], in the order they
    were first set. *)
Definition winset_add (winset : list (option Z)) (w : option Z)
  : list (option Z) :=
  if existsb (option_eqb Z.eqb w) winset then winset else winset ++ [w].

Definition getTabsetWinCount (tabs : list Tab) : Z :=
  Z.of_nat (List.length
              (fold_left (fun winset tab => winset_add winset (windowId tab))
                         tabs [])).

Definition getTabsDiff (tab1 tab2 : Tab) : TabDiff :=
  if negb (String.eqb (url tab1) (url tab2))
  then mkDiff "different URLs" "" false
  else if negb (option_eqb Bool.eqb (active tab1) (active tab2))
  then mkDiff "" "a different active tab." false
  else mkDiff "" "" false.

(** The position-by-position loop of [getTabsetDiff]; [dif] carries the
    first minor difference seen.  The loop runs over [tabs1]; it is entered
    only with [tabs2] of the same length. *)
Fixpoint scanTabs (tabs1 tabs2 : list Tab) (dif : TabDiff) : TabDiff :=
  match tabs1, tabs2 with
  | t1 :: r1, t2 :: r2 =>
      let diff := getTabsDiff t1 t2 in
      if JS.truthy (major diff) then diff
      else if JS.truthy (minor diff) && negb (JS.truthy (minor dif))
      then scanTabs r1 r2 (mkDiff (major dif) (minor diff) (err dif))
      else scanTabs r1 r2 dif
  | _, _ => dif
  end.

Definition getTabsetDiff (tabs1 tabs2 : list Tab) : TabDiff :=
  let dif := mkDiff "" "" false in
  let len1 := Z.of_nat (List.length tabs1) in
  let len2 := Z.of_nat (List.length tabs2) in
  if negb (len1 =? len2) then
    if len2 <? len1
    then mkDiff (JS.String_of_number (len1 - len2) ++ " fewer tabs") "" false
    else mkDiff (JS.String_of_number (len2 - len1) ++ " more tabs") "" false
  else
    let wincnt1 := getTabsetWinCount tabs1 in
    let wincnt2 := getTabsetWinCount tabs2 in
    if negb (wincnt1 =? wincnt2) then
      if wincnt2 <? wincnt1
      then mkDiff (JS.String_of_number (wincnt1 - wincnt2) ++ " fewer windows")
                  "" false
      else mkDiff (JS.String_of_number (wincnt2 - wincnt1) ++ " more windows")
                  "" false
    else scanTabs tabs1 tabs2 dif.

(** The description of a difference in the number of tabs: the count and
    the direction. *)
Definition tab_count_message (fewer : bool) (len1 len2 : Z) : string :=
  (JS.String_of_number (Z.abs (len1 - len2))
   ++ (if fewer then " fewer tabs" else " more tabs"))%string.

(** Three tabs of one window, for the scenarios. *)
Definition tabA : Tab :=
  mkTab "a" 0 (Some 1) (Some 10) (Some true) (Some "A"%string).
Definition tabB : Tab :=
  mkTab "b" 1 (Some 2) (Some 10) (Some false) (Some "B"%string).
Definition tabC : Tab :=
  mkTab "c" 2 (Some 3) (Some 10) (Some false) (Some "C"%string).

End Tabs.

(* ================================================================== *)
(** * tabber_session.js                                                *)
(* ================================================================== *)

Module TabberSession.
Import Tabs.

(** The values stored under the keys of a sync object. *)
Inductive value : Type :=
| VNum (z : Z)
| VStr (s : string)
| VBool (b : bool)
| VTab (t : Tab)
| VTabs (l : list Tab).

(** [updateTime] is declared [number|boolean]: a time stamp, or [false]
    while there is none. *)
Inductive timestamp : Type :=
| TNum (z : Z)
| TBool (b : bool).

(** A JavaScript object used as a record: its entries in [for ... in]
    order.  Setting a key that is present replaces its value in place,
    setting a new key appends it. *)
Definition object := list (string * value).

Fixpoint obj_set (k : string) (v : value) (o : object) : object :=
  match o with
  | [] => [(k, v)]
  | (k', v') :: o' =>
      if String.eqb k k' then (k, v) :: o' else (k', v') :: obj_set k v o'
  end.

Fixpoint obj_get (k : string) (o : object) : option value :=
  match o with
  | [] => None
  | (k', v') :: o' => if String.eqb k k' then Some v' else obj_get k o'
  end.

(** TabberInt.TabberSession with the declared types of its five
    properties; [extra] holds the other own properties that [fromSync] and
    [update] may add, in the order they were added. *)
Record Session : Type := mkSession {
  description : string;
  generation : Z;
  tabs : list Tab;
  numtabs : Z;
  updateTime : timestamp;
  extra : object
}.

Definition set_generation (g : Z) (s : Session) : Session :=
  mkSession (description s) g (tabs s) (numtabs s) (updateTime s) (extra s).

Definition set_tabs (l : list Tab) (s : Session) : Session :=
  mkSession (description s) (generation s) l (numtabs s) (updateTime s) (extra s).

Definition set_numtabs (n : Z) (s : Session) : Session :=
  mkSession (description s) (generation s) (tabs s) n (updateTime s) (extra s).

Definition set_updateTime (u : timestamp) (s : Session) : Session :=
  mkSession (description s) (generation s) (tabs s) (numtabs s) u (extra s).

(** [new TabberSession()] and [new TabberSession(n)] *)
Definition TabberSession_new (opt_initial : option Z) : Session :=
  mkSession "default"
            (match opt_initial with Some g => g | None => -1 end)
            [] 0 (TBool false) [].

(** [new TabberSession(sess)]: a copy with [numtabs] set from [tabs]. *)
Definition TabberSession_clone (sess : Session) : Session :=
  set_numtabs (Z.of_nat (List.length (tabs sess))) sess.

(** [touch], [now] being the adjusted clock reading. *)
Definition touch (now : Z) (s : Session) : Session :=
  set_generation (generation s + 1) (set_updateTime (TNum now) s).

Definition value_of_timestamp (u : timestamp) : value :=
  match u with TNum z => VNum z | TBool b => VBool b end.

(** The own properties in [for ... in] order: the constructor creates
    description, generation, tabs, numtabs and updateTime in this order. *)
Definition own_properties (s : Session) : object :=
  [ ("description"%string, VStr (description s));
    ("generation"%string, VNum (generation s));
    ("tabs"%string, VTabs (tabs s));
    ("numtabs"%string, VNum (numtabs s));
    ("updateTime"%string, value_of_timestamp (updateTime s)) ]
  ++ extra s.

(** ['Tab_' + t] *)
Definition Tab_key (t : nat) : string :=
  ("Tab_" ++ JS.String_of_number (Z.of_nat t))%string.

(** The loop [for (t = 0; t < tabs.length; t++) syncObj['Tab_' + t] = tabs[t]],
    from position [t] on. *)
Fixpoint add_tabs (t : nat) (l : list Tab) (syncObj : object) : object :=
  match l with
  | [] => syncObj
  | tab :: r => add_tabs (S t) r (obj_set (Tab_key t) (VTab tab) syncObj)
  end.

Definition toSync (this : Session) : object :=
  let syncObj :=
    fold_left (fun o kv =>
                 if negb (String.eqb (fst kv) "tabs") then obj_set (fst kv) (snd kv) o
                 else o)
              (own_properties this) [] in
  let syncObj := obj_set "numtabs" (VNum (Z.of_nat (List.length (tabs this)))) syncObj in
  add_tabs 0 (tabs this) syncObj.

(** A key that starts with a digit may be an array index, which
    [for ... in] would visit before the other keys. *)
Definition starts_with_digit (k : string) : bool :=
  match k with
  | String c _ => match JS.digit_of c with Some _ => true | None => false end
  | EmptyString => false
  end.

(** [this[key] = value].  The five declared properties keep their declared
    types: a value of another type, the key [__proto__] and keys that
    start with a digit are outside the model ([None]). *)
Definition set_property (this : Session) (key : string) (v : value)
  : option Session :=
  if String.eqb key "description" then
    match v with
    | VStr d => Some (mkSession d (generation this) (tabs this) (numtabs this)
                                (updateTime this) (extra this))
    | _ => None
    end
  else if String.eqb key "generation" then
    match v with VNum g => Some (set_generation g this) | _ => None end
  else if String.eqb key "tabs" then
    match v with VTabs l => Some (set_tabs l this) | _ => None end
  else if String.eqb key "numtabs" then
    match v with VNum n => Some (set_numtabs n this) | _ => None end
  else if String.eqb key "updateTime" then
    match v with
    | VNum z => Some (set_updateTime (TNum z) this)
    | VBool b => Some (set_updateTime (TBool b) this)
    | _ => None
    end
  else if String.eqb key "__proto__" || starts_with_digit key then None
  else Some (mkSession (description this) (generation this) (tabs this)
                       (numtabs this) (updateTime this)
                       (obj_set key v (extra this))).



(** The names found by [prop in sess] on a fresh session: its own
    properties, the methods of this file, and the properties every object
    inherits. *)
Definition names_in_session : list string :=
  [ "description"; "generation"; "tabs"; "numtabs"; "updateTime";
    "touch"; "getTimeString"; "toSync"; "update"; "updateProps"; "fromSync";
    "toString"; "printSession";
    "constructor"; "hasOwnProperty"; "isPrototypeOf"; "propertyIsEnumerable";
    "toLocaleString"; "valueOf"; "__proto__"; "__defineGetter__";
    "__defineSetter__"; "__lookupGetter__"; "__lookupSetter__" ]%string.

Definition isPropertyValid (prop : string) : bool :=
  if negb (JS.truthy prop) then false
  else if String.prefix "Tab_" prop then true
  else if String.eqb prop "tabs" then false
  else if existsb (String.eqb prop) names_in_session then true
  else false.

(** [this.tabs[t] = value] for [0 <= t]: inside the array the slot is
    replaced, at its end the array grows by one; further out the array
    would get holes, which lists do not have ([None]). *)
Fixpoint store_tab (l : list Tab) (t : nat) (tab : Tab) : option (list Tab) :=
  match l, t with
  | [], O => Some [tab]
  | [], S _ => None
  | _ :: r, O => Some (tab :: r)
  | x :: r, S t' =>
      match store_tab r t' tab with
      | Some r' => Some (x :: r')
      | None => None
      end
  end.

(** [update]: the result and the session afterwards. *)
Definition update (this : Session) (key : string) (v : value)
  : option (bool * Session) :=
  if negb (isPropertyValid key) then Some (false, this)
  else if String.prefix "Tab_" key then
    match match nth_error (JS.split "_" key) 1 with
          | Some piece => JS.parseInt piece
          | None => None
          end with
    | None =>
        (* NaN: [t >= numtabs] is false, and the write makes a property
           named NaN on the array, which is no element of it *)
        Some (true, this)
    | Some t =>
        if numtabs this <=? t then Some (false, this)
        else if t <? 0 then
          (* a property with a negative name, no element of the array *)
          Some (true, this)
        else
          match v with
          | VTab tab =>
              match store_tab (tabs this) (Z.to_nat t) tab with
              | Some l => Some (true, set_tabs l this)
              | None => None
              end
          | _ => None
          end
    end
  else
    match set_property this key v with
    | None => None
    | Some this1 =>
        match v with
        | VNum n =>
            if String.eqb key "numtabs"
               && (n <? Z.of_nat (List.length (tabs this1)))
            then Some (true, set_numtabs n (set_tabs (JS.slice0 (tabs this1) n) this1))
            else Some (true, this1)
        | _ => Some (true, this1)
        end
    end.

Definition tab_valid (t : Tab) : bool :=
  (0 <=? index t)
  && match id t with Some i => 0 <=? i | None => false end.

Definition isSessionValid (sess : Session) : bool :=
  match updateTime sess with
  | TNum _ =>
      if (List.length (tabs sess) <? 1)%nat then false
      else forallb tab_valid (tabs sess)
  | TBool _ => false
  end.

(** [ToNumber] on a time stamp. *)
Definition number_of_timestamp (u : timestamp) : Z :=
  match u with
  | TNum z => z
  | TBool true => 1
  | TBool false => 0
  end.

(** [a != b] on time stamps: two booleans or two numbers are compared as
    they are, a number and a boolean through [ToNumber]. *)
Definition timestamp_neq (a b : timestamp) : bool :=
  negb (number_of_timestamp a =? number_of_timestamp b).

(** [getSessionDiff(loc, rem)]: the report, and the two sessions as the
    call leaves them.  [loc] and [rem] are distinct objects. *)
Definition getSessionDiff (loc rem : Session) : TabDiff * Session * Session :=
  if generation loc <? 0 then
    (mkDiff "Local browser not initialized yet" "" true, loc, rem)
  else if (List.length (tabs loc) <? 1)%nat then
    (mkDiff "No browser tabs found" "" true, set_generation (-1) loc, rem)
  else if generation rem <? 0 then
    (mkDiff "No saved session found" "" true, loc, rem)
  else if (List.length (tabs rem) <? 1)%nat then
    (mkDiff "No saved tabs found" "" false, loc, set_generation (-1) rem)
  else
    let localOrder := "Saved session has "%string in
    let tabDiff := getTabsetDiff (tabs loc) (tabs rem) in
    let result :=
      if JS.truthy (major tabDiff)
      then mkDiff (localOrder ++ major tabDiff) "" false
      else if JS.truthy (minor tabDiff)
      then mkDiff "" (localOrder ++ minor tabDiff) false
      else mkDiff "" "" false in
    if JS.truthy (major result) || JS.truthy (minor result) then
      if generation loc =? generation rem
      then (result, set_generation (generation loc + 1) loc, rem)
      else (result, loc, rem)
    else
      let loc1 :=
        if negb (generation loc =? generation rem)
        then set_generation (generation rem) loc else loc in
      if timestamp_neq (updateTime loc1) (updateTime rem) then
        let m := TNum (Z.max (number_of_timestamp (updateTime loc1))
                             (number_of_timestamp (updateTime rem))) in
        (result, set_updateTime m loc1, set_updateTime m rem)
      else (result, loc1, rem).

(** The keys of an object, and the entries that [toSync] makes for the
    tabs from position [t] on. *)
Definition keys (o : object) : list string := map fst o.

Fixpoint tab_entries (t : nat) (l : list Tab) : object :=
  match l with
  | [] => []
  | tab :: r => (Tab_key t, VTab tab) :: tab_entries (S t) r
  end.

(** The four guards at the head of [getSessionDiff] are passed. *)
Definition initialized (loc rem : Session) : bool :=
  negb (generation loc <? 0)
  && negb (List.length (tabs loc) <? 1)%nat
  && negb (generation rem <? 0)
  && negb (List.length (tabs rem) <? 1)%nat.

(** The own properties of a session as an object has them: the names in
    [extra] are distinct, none is a declared property, none starts with
    [Tab_] (no assignment in the program makes such a property) and none
    starts with a digit. *)
Fixpoint distinct_keys (o : object) : bool :=
  match o with
  | [] => true
  | (k, _) :: o' =>
      negb (existsb (fun kv => String.eqb k (fst kv)) o') && distinct_keys o'
  end.

Definition plain_key (k : string) : bool :=
  negb (String.prefix "Tab_" k)
  && negb (starts_with_digit k)
  && negb (existsb (String.eqb k)
             ["description"; "generation"; "tabs"; "numtabs"; "updateTime";
              "__proto__"]%string).

Definition well_formed (s : Session) : bool :=
  distinct_keys (extra s) && forallb (fun kv => plain_key (fst kv)) (extra s).



End TabberSession.

(* ================================================================== *)
(** * tabber.js                                                        *)
(* ================================================================== *)

Module Tabber.
Import Tabs TabberSession.

(** [this.mode] *)
Definition MANUAL : string := "manual".
Definition AUTOSTART : string := "autostart".
Definition AUTOSAVE : string := "autosave".
Definition AUTOSYNC : string := "autosync".

(** [this.state] *)
Definition ERR : Z := -1.
Definition OK : Z := 0.
Definition WARN : Z := 1.

(** [options_], the object kept in the Local Config Store. *)
Record options : Type := mkOptions { mode : string }.

(** TabberApi.type.config.  A property is absent ([None]) or present with
    its value, which may be [undefined] ([Some None]). *)
Record config : Type := mkConfig {
  config_mode : option (option string);
  config_debug : option (option bool)
}.

(** The singleton and the global [debug]. *)
Record TabberClass : Type := mkTabber {
  uninitialized_ : bool;
  initialized_ : bool;
  remoteSession_ : Session;
  localSession_ : Session;
  sync_in_progess_ : bool;
  save_in_progess_ : bool;
  options_ : options;
  status_ : Z;
  statusMessage_ : string;
  debug : bool
}.

(** [new TabberClass()], with [debug] as the file sets it. *)
Definition TabberClass_new : TabberClass :=
  mkTabber true false (TabberSession_new None) (TabberSession_new None)
           false false (mkOptions "autosave") 0 "" false.

(** What the controller asks of the browser. *)
Inductive effect : Type :=
| Alert (msg : string)
| StorageLocalSet (opts : options)          (** chrome.storage.local.set({'options': opts}) *)
| StorageSyncSet (syncObj : object).        (** chrome.storage.sync.set(syncObj, ...) *)

Definition set_options (o : options) (t : TabberClass) : TabberClass :=
  mkTabber (uninitialized_ t) (initialized_ t) (remoteSession_ t)
           (localSession_ t) (sync_in_progess_ t) (save_in_progess_ t)
           o (status_ t) (statusMessage_ t) (debug t).

Definition set_debug (d : bool) (t : TabberClass) : TabberClass :=
  mkTabber (uninitialized_ t) (initialized_ t) (remoteSession_ t)
           (localSession_ t) (sync_in_progess_ t) (save_in_progess_ t)
           (options_ t) (status_ t) (statusMessage_ t) d.

Definition set_localSession (l : Session) (t : TabberClass) : TabberClass :=
  mkTabber (uninitialized_ t) (initialized_ t) (remoteSession_ t)
           l (sync_in_progess_ t) (save_in_progess_ t)
           (options_ t) (status_ t) (statusMessage_ t) (debug t).

Definition set_remoteSession (r : Session) (t : TabberClass) : TabberClass :=
  mkTabber (uninitialized_ t) (initialized_ t) r
           (localSession_ t) (sync_in_progess_ t) (save_in_progess_ t)
           (options_ t) (status_ t) (statusMessage_ t) (debug t).

Definition set_save_in_progess (b : bool) (t : TabberClass) : TabberClass :=
  mkTabber (uninitialized_ t) (initialized_ t) (remoteSession_ t)
           (localSession_ t) (sync_in_progess_ t) b
           (options_ t) (status_ t) (statusMessage_ t) (debug t).

(** [setStatus_], without the badge icon. *)
Definition setStatus_ (status : Z) (msg : string) (t : TabberClass) : TabberClass :=
  mkTabber (uninitialized_ t) (initialized_ t) (remoteSession_ t)
           (localSession_ t) (sync_in_progess_ t) (save_in_progess_ t)
           (options_ t) status msg (debug t).

(** [config.mode === m] for one of the four modes. *)
Definition recognized (m : option string) : bool :=
  match m with
  | Some m =>
      String.eqb m AUTOSYNC || String.eqb m AUTOSTART
      || String.eqb m AUTOSAVE || String.eqb m MANUAL
  | None => false
  end.

(** ['...' + config.mode] *)
Definition String_of_mode (m : option string) : string :=
  match m with Some m => m | None => "undefined" end.

(** The [mode] half of [setOptions]. *)
Definition setOptions_mode (cfg : config) (t : TabberClass)
  : TabberClass * list effect :=
  match config_mode cfg with
  | Some m =>
      if recognized m then
        let t' := set_options (mkOptions (String_of_mode m)) t in
        (t', [StorageLocalSet (options_ t')])
      else
        (t, [Alert ("Unsupported Tabber operational mode: " ++ String_of_mode m)])
  | None => (t, [])
  end.

(** The [debug] half of [setOptions]. *)
Definition setOptions_debug (cfg : config) (t : TabberClass) : TabberClass :=
  match config_debug cfg with
  | Some d =>
      match d with
      | Some true => set_debug true t
      | _ => set_debug false t
      end
  | None => t
  end.

Definition setOptions (cfg : config) (t : TabberClass)
  : TabberClass * list effect :=
  let '(t1, out) := setOptions_mode cfg t in
  (setOptions_debug cfg t1, out).


(** The callback of chrome.storage.sync.set; [lastError] is
    [chrome.runtime.lastError.message] when the write failed. *)
Definition saveLocalToRemote_done (lastError : option string) (t : TabberClass)
  : TabberClass :=
  let t1 :=
    match lastError with
    | Some msg => setStatus_ ERR ("Unable to save session: " ++ msg) t
    | None => set_remoteSession (TabberSession_clone (localSession_ t)) t
    end in
  set_save_in_progess false t1.

(** ** Window affinity *)

(** The body of the inner loop of [getWindowScore_]. *)
Definition score_step (tab1 : Tab) (score : Z) (tab2 : Tab) : Z :=
  if String.eqb (url tab1) (url tab2) then
    let score := score + 5 in
    let score := if index tab1 =? index tab2 then score + 3 else score in
    if option_eqb Bool.eqb (active tab1) (active tab2) then score + 1 else score
  else score.

Definition getWindowScore_ (tabs1 tabs2 : list Tab) : Z :=
  fold_left (fun score tab1 => fold_left (score_step tab1) tabs2 score) tabs1 0.

(** What one pair of tabs is worth: 5 for equal urls, then 3 more for
    equal indexes and 1 more for equal active flags. *)
Definition pair_points (tab1 tab2 : Tab) : Z :=
  if String.eqb (url tab1) (url tab2)
  then 5 + (if index tab1 =? index tab2 then 3 else 0)
         + (if option_eqb Bool.eqb (active tab1) (active tab2) then 1 else 0)
  else 0.

(** The sum of a list of points. *)
Definition total (l : list Z) : Z := fold_right Z.add 0 l.

(** [remWindows] and [locWindows]: arrays used as maps from window id to
    the tabs of the window.  [for ... in] goes through the array indexes
    (the ids from 0 to 2^32 - 2) in ascending order, then through the other keys
    (negative ids, [undefined]) in the order they were added. *)
Definition windows := list (option Z * list Tab).

Definition is_array_index (k : option Z) : bool :=
  match k with Some z => (0 <=? z) && (z <? 4294967295) | None => false end.

Definition comes_before (k k' : option Z) : bool :=
  match k, k' with
  | Some z, Some z' => if is_array_index k' then z <? z' else true
  | Some _, None => true
  | None, _ => false
  end.

Fixpoint add_to_window (k : option Z) (tab : Tab) (w : windows) : windows :=
  match w with
  | [] => [(k, [tab])]
  | (k', l) :: w' =>
      if option_eqb Z.eqb k k' then (k', l ++ [tab]) :: w'
      else if is_array_index k && comes_before k k'
      then (k, [tab]) :: (k', l) :: w'
      else (k', l) :: add_to_window k tab w'
  end.

Definition groupByWindow (tabs : list Tab) : windows :=
  fold_left (fun w tab => add_to_window (windowId tab) tab w) tabs [].

(** An element of [mapScores]. *)
Record MapScore : Type := mkMapScore {
  lwid : Z;
  rwid : Z;
  score : Z
}.

(** The two scoring loops.  [locWindows[Number(lwid)]] is undefined for
    the key [undefined], and [getWindowScore_] then throws ([None]). *)
Definition scoreWindows (locWindows remWindows : windows) : option (list MapScore) :=
  fold_left
    (fun acc lw =>
       fold_left
         (fun acc rw =>
            match acc, fst lw, fst rw with
            | Some ms, Some l, Some r =>
                Some (ms ++ [mkMapScore l r (getWindowScore_ (snd lw) (snd rw))])
            | _, _, _ => None
            end)
         remWindows acc)
    locWindows (Some []).

(** The comparison function handed to [sort]. *)
Definition compareScores (a b : MapScore) : Z :=
  if score a =? score b then 0
  else if score a <? score b then 1 else -1.

(** [mapScores.sort(compareScores)]: the sort keeps the order of elements
    that compare equal. *)
Fixpoint insertScore (a : MapScore) (l : list MapScore) : list MapScore :=
  match l with
  | [] => [a]
  | b :: l' =>
      if compareScores a b <=? 0 then a :: b :: l' else b :: insertScore a l'
  end.

Definition sortMapScores (mapScores : list MapScore) : list MapScore :=
  fold_right insertScore [] mapScores.

(** [arr.indexOf(x) == -1] *)
Definition absent (x : Z) (arr : list Z) : bool := negb (existsb (Z.eqb x) arr).

(** The state of the acceptance loop. *)
Record matching : Type := mkMatching {
  matchedRemIds : list Z;
  matchedLocIds : list Z;
  locIdByRemId : list (Z * Z)     (** remote window id, local window id *)
}.

Fixpoint acceptLoop (sortedMapScores : list MapScore) (m : matching) : matching :=
  match sortedMapScores with
  | [] => m
  | e :: rest =>
      if absent (rwid e) (matchedRemIds m) && absent (lwid e) (matchedLocIds m)
      then acceptLoop rest
             (mkMatching (matchedRemIds m ++ [rwid e])
                         (matchedLocIds m ++ [lwid e])
                         (locIdByRemId m ++ [(rwid e, lwid e)]))
      else acceptLoop rest m
  end.

Definition acceptMappings (mapScores : list MapScore) : matching :=
  acceptLoop (sortMapScores mapScores) (mkMatching [] [] []).

(** The two lists of matched ids are the two sides of the map, and no id
    is in its list twice. *)
Definition one_to_one (m : matching) : Prop :=
  matchedRemIds m = map fst (locIdByRemId m)
  /\ matchedLocIds m = map snd (locIdByRemId m)
  /\ NoDup (map fst (locIdByRemId m))
  /\ NoDup (map snd (locIdByRemId m)).

(** The matching part of [syncBrowserChromeMapWindows_]. *)
Definition mapWindows (loc rem : Session) : option matching :=
  let remWindows := groupByWindow (tabs rem) in
  let locWindows := groupByWindow (tabs loc) in
  match scoreWindows locWindows remWindows with
  | Some mapScores => Some (acceptMappings mapScores)
  | None => None
  end.

End Tabber.

(* ================================================================== *)
(** * tabber.js: the phases of a restore                               *)
(* ================================================================== *)

Module Restore.
Import Tabs TabberSession Tabber.

(** What the phases ask of chrome. *)
Inductive request : Type :=
| CreateTab (index : Z) (url : string)
    (** doStep(chrome.tabs.create, {index, url}) *)
| RemoveTab (id : option Z)
    (** doStep(chrome.tabs.remove, id) *)
| CreateWindow (tabId : option Z)
    (** chrome.windows.create({tabId}, acceptNewWindow) *)
| MoveToWindow (id : option Z) (windowId : Z)
    (** chrome.tabs.move(id, {windowId, index: 0}) *)
| MoveTab (id : option Z) (index : Z)
    (** doStep(chrome.tabs.move, id, {index}) *)
| UpdateTab (id : option Z) (active : option bool).
    (** doStep(chrome.tabs.update, id, {active}) *)

(** [arr.splice(tt, 1)] and [arr.splice(i, 0, x)]; the latter appends
    when [i] is beyond the end. *)
Definition remove_at {A : Type} (tt' : nat) (l : list A) : list A :=
  firstn tt' l ++ skipn (S tt') l.

Definition insert_at {A : Type} (i : nat) (x : A) (l : list A) : list A :=
  firstn i l ++ x :: skipn i l.

(** [arr[i] = x] inside the array. *)
Definition replace_at {A : Type} (i : nat) (x : A) (l : list A) : list A :=
  firstn i l ++ x :: skipn (S i) l.

(** ** syncBrowserCreatesAndMoves_ *)

(** The inner loop of [scanRemoteTabs]: the first position [tt], from the
    position of the head of [rest] on, of a local tab with no major
    difference from the remote tab. *)
Fixpoint find_match (remTab : Tab) (rest : list Tab) (tt' : nat) : option nat :=
  match rest with
  | [] => None
  | tab :: rest' =>
      if negb (JS.truthy (major (getTabsDiff tab remTab))) then Some tt'
      else find_match remTab rest' (S tt')
  end.

(** [loc.tabs.splice(remTabIndex, 0, loc.tabs.splice(tt, 1)[0])] *)
Definition move_tab (tt' remTabIndex : nat) (loc : list Tab) : list Tab :=
  match nth_error loc tt' with
  | Some tab => insert_at remTabIndex tab (remove_at tt' loc)
  | None => loc
  end.

(** How a run of [scanRemoteTabs] ends: with [finalize()], or with the
    creation of a tab submitted and the step callback armed with
    [remTabIndex] as its context. *)
Inductive scan : Type :=
| Finalized (loc : list Tab)
| Waiting (loc : list Tab) (remTabIndex : nat) (req : request).

(** The pseudo-tab of a creation, as it is in the local array when
    [scanRemoteTabs] returns (title and active state filled in). *)
Definition newTab (remTabIndex : nat) (remTab : Tab) : Tab :=
  mkTab (url remTab) (Z.of_nat remTabIndex) None None (active remTab) (title remTab).

(** The loop of [scanRemoteTabs] from [remTabIndex] on, [remRest] being
    the remote tabs from that position. *)
Fixpoint scanFrom (remTabIndex : nat) (remRest : list Tab) (loc : list Tab)
  : scan :=
  match remRest with
  | [] => Finalized loc
  | remTab :: remRest' =>
      if match nth_error loc remTabIndex with
         | Some tab => JS.truthy (major (getTabsDiff tab remTab))
         | None => true
         end
      then
        match find_match remTab (skipn (S remTabIndex) loc) (S remTabIndex) with
        | Some tt' => scanFrom (S remTabIndex) remRest' (move_tab tt' remTabIndex loc)
        | None =>
            Waiting (insert_at remTabIndex (newTab remTabIndex remTab) loc)
                    remTabIndex
                    (CreateTab (Z.of_nat remTabIndex) (url remTab))
        end
      else scanFrom (S remTabIndex) remRest' loc
  end.

(** [scanRemoteTabs()], entered with the global [remTabIndex] equal to
    [next - 1]. *)
Definition scanRemoteTabs (next : nat) (loc rem : list Tab) : scan :=
  scanFrom next (skipn next rem) loc.

(** [onTabUpdate(ctx, tabArray)] up to its call of [scanRemoteTabs];
    [created] is [tabArray[0]]. *)
Definition onTabUpdate (ctx : nat) (created : Tab) (loc : list Tab) : list Tab :=
  match nth_error loc ctx with
  | Some tab =>
      replace_at ctx
        (mkTab (url tab) (index created) (id created) (windowId created)
               (active tab) (title tab))
        loc
  | None => loc
  end.

(** The phase with the tabs that chrome creates, in the order of its
    answers: where the phase stands when the answers are used up, and the
    creations submitted. *)
Fixpoint resumeScan (answers : list Tab) (rem : list Tab) (st : scan)
  : scan * list request :=
  match st with
  | Finalized _ => (st, [])
  | Waiting loc remTabIndex req =>
      match answers with
      | [] => (st, [req])
      | created :: answers' =>
          let '(st', reqs) :=
            resumeScan answers' rem
              (scanRemoteTabs (S remTabIndex) (onTabUpdate remTabIndex created loc) rem) in
          (st', req :: reqs)
      end
  end.

Definition syncBrowserCreatesAndMoves_ (answers : list Tab) (loc rem : list Tab)
  : scan * list request :=
  resumeScan answers rem (scanRemoteTabs 0 loc rem).

(** ** syncBrowserDeletes_ *)

Definition syncBrowserDeletes_ (loc rem : list Tab) : list Tab * list request :=
  if (List.length rem <? List.length loc)%nat
  then (firstn (List.length rem) loc,
        map (fun tab => RemoveTab (id tab)) (skipn (List.length rem) loc))
  else (loc, []).

(** ** syncBrowserChromeMapWindows_, after the matching *)

(** [locIdByRemId], keyed by the window id of a remote tab. *)
Definition window_map := list (option Z * Z).

Fixpoint window_get (k : option Z) (m : window_map) : option Z :=
  match m with
  | [] => None
  | (k', v) :: m' => if option_eqb Z.eqb k k' then Some v else window_get k m'
  end.

Fixpoint window_set (k : option Z) (v : Z) (m : window_map) : window_map :=
  match m with
  | [] => [(k, v)]
  | (k', v') :: m' =>
      if option_eqb Z.eqb k k' then (k, v) :: m' else (k', v') :: window_set k v m'
  end.

Definition set_windowId (w : Z) (tab : Tab) : Tab :=
  mkTab (url tab) (index tab) (id tab) (Some w) (active tab) (title tab).

(** How a run of [continueRehomingTabs] ends: with the call of
    [syncBrowserChromeMove_], with the creation of a window requested and
    [context] set, or with a TypeError on a remote tab that is not
    there. *)
Inductive rehoming : Type :=
| Rehomed (loc : list Tab) (locIdByRemId : window_map)
| NeedWindow (loc : list Tab) (locIdByRemId : window_map) (context : nat)
| RehomeThrows.

(** The loop of [continueRehomingTabs]: [before] are the local tabs below
    position [t], [locRest] and [remRest] the local and remote tabs from
    [t] on, [sent] the requests made so far. *)
Fixpoint rehomeFrom (t : nat) (before locRest remRest : list Tab)
    (m : window_map) (sent : list request) : rehoming * list request :=
  match locRest with
  | [] => (Rehomed before m, sent)
  | tab :: locRest' =>
      match remRest with
      | [] => (RehomeThrows, sent)
      | remTab :: remRest' =>
          match window_get (windowId remTab) m with
          | None =>
              (NeedWindow (before ++ tab :: locRest') m (S t),
               sent ++ [CreateWindow (id tab)])
          | Some lwid =>
              if negb (option_eqb Z.eqb (windowId tab) (Some lwid))
              then rehomeFrom (S t) (before ++ [set_windowId lwid tab])
                              locRest' remRest' m
                              (sent ++ [MoveToWindow (id tab) lwid])
              else rehomeFrom (S t) (before ++ [tab]) locRest' remRest' m sent
          end
      end
  end.

Definition continueRehomingTabs (context : nat) (loc rem : list Tab)
    (m : window_map) : rehoming * list request :=
  rehomeFrom context (firstn context loc) (skipn context loc)
             (skipn context rem) m [].

(** [acceptNewWindow(newWindow)], [newWindowId] being [newWindow.id]. *)
Definition acceptNewWindow (newWindowId : Z) (context : nat)
    (loc rem : list Tab) (m : window_map) : rehoming * list request :=
  let ti := (context - 1)%nat in
  match nth_error loc ti, nth_error rem ti with
  | Some tab, Some remTab =>
      continueRehomingTabs context
        (replace_at ti (set_windowId newWindowId tab) loc) rem
        (window_set (windowId remTab) newWindowId m)
  | _, _ => (RehomeThrows, [])
  end.

(** The rehoming with the windows that chrome creates, in the order of
    its answers. *)
Fixpoint resumeRehoming (answers : list Z) (rem : list Tab)
    (st : rehoming * list request) : rehoming * list request :=
  match st with
  | (NeedWindow loc m context, sent) =>
      match answers with
      | [] => st
      | newWindowId :: answers' =>
          let '(st', sent') :=
            resumeRehoming answers' rem
              (acceptNewWindow newWindowId context loc rem m) in
          (st', sent ++ sent')
      end
  | _ => st
  end.

(** The whole of [syncBrowserChromeMapWindows_]: [None] when the scoring
    throws. *)
Definition syncBrowserChromeMapWindows_ (answers : list Z) (loc rem : list Tab)
  : option (rehoming * list request) :=
  match scoreWindows (groupByWindow loc) (groupByWindow rem) with
  | Some mapScores =>
      let m := map (fun p => (Some (fst p), snd p))
                   (locIdByRemId (acceptMappings mapScores)) in
      Some (resumeRehoming answers rem (continueRehomingTabs 0 loc rem m))
  | None => None
  end.

(** ** syncBrowserChromeMove_ and syncBrowserSetActive_

    Both loops run over the local tabs and read the remote tab at the
    same position; [None] is the TypeError when there is none. *)
Fixpoint syncBrowserChromeMove_ (loc rem : list Tab) : option (list request) :=
  match loc, rem with
  | [], _ => Some []
  | tab :: loc', remTab :: rem' =>
      option_map (cons (MoveTab (id tab) (index remTab)))
                 (syncBrowserChromeMove_ loc' rem')
  | _ :: _, [] => None
  end.

Fixpoint syncBrowserSetActive_ (loc rem : list Tab)
  : option (list Tab * list request) :=
  match loc, rem with
  | [], _ => Some ([], [])
  | tab :: loc', remTab :: rem' =>
      match syncBrowserSetActive_ loc' rem' with
      | Some (l, reqs) =>
          Some (mkTab (url tab) (index tab) (id tab) (windowId tab)
                      (active remTab) (title tab) :: l,
                UpdateTab (id tab) (active remTab) :: reqs)
      | None => None
      end
  | _ :: _, [] => None
  end.

(** ** What the rehoming is to achieve

    A local tab in the window that the map gives for the window of its
    remote tab. *)
Definition home (m : window_map) (tab remTab : Tab) : Tab :=
  match window_get (windowId remTab) m with
  | Some lwid => set_windowId lwid tab
  | None => tab
  end.

Fixpoint homes (m : window_map) (loc rem : list Tab) : list Tab :=
  match loc, rem with
  | tab :: loc', remTab :: rem' => home m tab remTab :: homes m loc' rem'
  | _, _ => loc
  end.

(** The window of a remote tab has a local window in the map. *)
Definition mapped (m : window_map) (remTab : Tab) : Prop :=
  window_get (windowId remTab) m <> None.

(** No two remote windows share a local window. *)
Definition one_window_each (m : window_map) : Prop :=
  forall k1 k2 v, window_get k1 m = Some v -> window_get k2 m = Some v -> k1 = k2.

(** The local windows in use by the map. *)
Definition local_windows (m : window_map) : list Z := map snd m.

(** A tab that chrome reports has the id of its window. *)
Definition has_window (tab : Tab) : Prop := windowId tab <> None.

(** A tab of a second window, for the scenarios. *)
Definition tabD : Tab :=
  mkTab "d" 0 (Some 4) (Some 20) (Some true) (Some "D"%string).

(** ** The chain of the phases

    [syncBrowserFromRemote] starts [syncBrowserCreatesAndMoves_] on the
    tabs that chrome reports; each phase hands the next one to
    [initHandler], or calls it.  The chain with the tabs ([tabAnswers]) and
    the windows ([windowAnswers]) that chrome creates: the local tabs when
    [phaseDone] runs and the requests made, [None] when the chain does not
    get to [phaseDone]. *)
Definition syncBrowserPhases (tabAnswers : list Tab) (windowAnswers : list Z)
    (loc rem : list Tab) : option (list Tab * list request) :=
  match syncBrowserCreatesAndMoves_ tabAnswers loc rem with
  | (Finalized loc1, creates) =>
      let '(loc2, removes) := syncBrowserDeletes_ loc1 rem in
      match syncBrowserChromeMapWindows_ windowAnswers loc2 rem with
      | Some (Rehomed loc3 _, rehomes) =>
          match syncBrowserChromeMove_ loc3 rem, syncBrowserSetActive_ loc3 rem with
          | Some moves, Some (loc4, updates) =>
              Some (loc4, creates ++ removes ++ rehomes ++ moves ++ updates)
          | _, _ => None
          end
      | _ => None
      end
  | _ => None
  end.

End Restore.

(* ================================================================== *)
(** * tabber.js: what to do after a change                             *)
(* ================================================================== *)

Module Sync.
Import Tabs TabberSession Tabber.

(** [constant_] *)
Definition sync_delay : Z := 4000.
Definition urgent_sync_delay : Z := 500.
Definition ok_status : string := "Tabs saved".

Definition set_sync_in_progess (b : bool) (t : TabberClass) : TabberClass :=
  mkTabber (uninitialized_ t) (initialized_ t) (remoteSession_ t)
           (localSession_ t) b (save_in_progess_ t)
           (options_ t) (status_ t) (statusMessage_ t) (debug t).

(** What the controller starts: both go through [syncLocalToBrowser_],
    which asks chrome for the tabs and goes on when they arrive. *)
Inductive operation : Type :=
| StartSave       (** syncLocalToBrowser_(tbr.saveLocalToRemote_) *)
| StartRestore.   (** syncLocalToBrowser_(tbr.syncBrowserCreatesAndMoves_) *)

Definition saveLocalToRemote (t : TabberClass) : TabberClass * list operation :=
  if save_in_progess_ t then (t, [])
  else (set_save_in_progess true t, [StartSave]).

Definition syncBrowserFromRemote (t : TabberClass)
  : TabberClass * list operation :=
  let rem := remoteSession_ t in
  if generation rem <? 0 then (t, [])
  else if (List.length (tabs rem) <? 1)%nat then (t, [])
  else (set_sync_in_progess true t, [StartRestore]).

(** The body of [doSync_], [self] standing for its call of itself;
    [localIsNewer] is [None] when the argument is left out. *)
Definition doSync_step (self : TabberClass -> TabberClass * list operation)
    (localIsNewer : option bool) (t : TabberClass)
  : TabberClass * list operation :=
  let firstTime := generation (localSession_ t) =? 1 in
  let localIsNewer :=
    match localIsNewer with
    | Some b => b
    | None =>
        let forceNewLocal :=
          String.eqb (mode (options_ t)) AUTOSAVE && negb firstTime in
        forceNewLocal
        || (generation (remoteSession_ t) <=? generation (localSession_ t))
    end in
  let '(diff, loc, rem) := getSessionDiff (localSession_ t) (remoteSession_ t) in
  let t := set_remoteSession rem (set_localSession loc t) in
  let t :=
    if JS.truthy (major diff) then
      if err diff then setStatus_ ERR (major diff) t
      else setStatus_ WARN (major diff) t
    else if JS.truthy (minor diff) then setStatus_ OK (minor diff) t
    else setStatus_ OK ok_status t in
  if (generation rem <? 0) || (generation loc <? 0) then (t, [])
  else if negb (isSessionValid loc) then (t, [])
  else if JS.truthy (major diff) || JS.truthy (minor diff) then
    if localIsNewer then
      if negb firstTime then
        if String.eqb (mode (options_ t)) AUTOSYNC
           || String.eqb (mode (options_ t)) AUTOSAVE
        then saveLocalToRemote t
        else (t, [])
      else (t, [])
    else
      if negb (isSessionValid rem) then self t
      else if String.eqb (mode (options_ t)) AUTOSYNC
              || String.eqb (mode (options_ t)) AUTOSTART && firstTime
              || String.eqb (mode (options_ t)) AUTOSAVE && firstTime
      then syncBrowserFromRemote t
      else (t, [])
  else (t, []).

(** [doSync_]: it calls itself with [true] only, and a call with [true]
    does not call itself. *)
Definition doSync_ (localIsNewer : option bool) (t : TabberClass)
  : TabberClass * list operation :=
  doSync_step (doSync_step (fun t' => (t', [])) (Some true)) localIsNewer t.

(** The report that [doSync_] works with, and the status it shows for
    it. *)
Definition report (t : TabberClass) : TabDiff :=
  fst (fst (getSessionDiff (localSession_ t) (remoteSession_ t))).

Definition found (diff : TabDiff) : bool :=
  JS.truthy (major diff) || JS.truthy (minor diff).

Definition status_of (diff : TabDiff) : Z * string :=
  if JS.truthy (major diff) then (if err diff then ERR else WARN, major diff)
  else if JS.truthy (minor diff) then (OK, minor diff)
  else (OK, ok_status).

(** [localIsNewer] after the guess. *)
Definition favor_local (localIsNewer : option bool) (t : TabberClass) : bool :=
  match localIsNewer with
  | Some b => b
  | None =>
      String.eqb (mode (options_ t)) AUTOSAVE
      && negb (generation (localSession_ t) =? 1)
      || (generation (remoteSession_ t) <=? generation (localSession_ t))
  end.

(** The singleton when [doSync_] has compared the sessions and set the
    status. *)
Definition compared (t : TabberClass) : TabberClass :=
  let '(diff, loc, rem) := getSessionDiff (localSession_ t) (remoteSession_ t) in
  setStatus_ (fst (status_of diff)) (snd (status_of diff))
             (set_remoteSession rem (set_localSession loc t)).

(** A first sync in autosave mode: the local session of generation 1
    against a saved session of generation 4 with another tab. *)
Definition firstSync : TabberClass :=
  mkTabber false true
           (mkSession "" 4 [tabB] 1 (TNum 3) [])
           (mkSession "" 1 [tabA] 1 (TNum 5) [])
           false false (mkOptions AUTOSAVE) OK "" false.

(** ** scheduleLocalSessionUpdate_

    [setTimeout] gives a number greater than zero, [handle]. *)
Inductive timer_call : Type :=
| ClearTimeout (handle : positive)
| SetTimeout (delay : Z) (handle : positive).
    (** setTimeout(tbr.updateLocalSessionFromBrowser_, delay) *)

(** The result, [pending_update_] and the singleton after the call, and
    the calls made. *)
Definition scheduleLocalSessionUpdate_ (delay : Z) (handle : positive)
    (pending_update_ : option positive) (t : TabberClass)
  : bool * option positive * TabberClass * list timer_call :=
  let cleared :=
    match pending_update_ with Some h => [ClearTimeout h] | None => [] end in
  if sync_in_progess_ t then (false, pending_update_, t, cleared)
  else
    let t := setStatus_ WARN "Local change detected - update pending" t in
    let scheduleDelay_ms :=
      if generation (localSession_ t) <? 2 then
        if urgent_sync_delay <? delay then urgent_sync_delay else delay
      else delay in
    (true, Some handle, t, cleared ++ [SetTimeout scheduleDelay_ms handle]).

(** A sequence of calls of [scheduleLocalSessionUpdate_], each with its
    delay, the handle that [setTimeout] would give, and the singleton as
    it is then: [pending_update_] at the end, and all the calls made. *)
Fixpoint schedule_run (calls : list (Z * positive * TabberClass))
    (pending_update_ : option positive) : option positive * list timer_call :=
  match calls with
  | [] => (pending_update_, [])
  | (delay, handle, t) :: calls' =>
      let '(_, pending', _, out) :=
        scheduleLocalSessionUpdate_ delay handle pending_update_ t in
      let '(pending'', out') := schedule_run calls' pending' in
      (pending'', out ++ out')
  end.

(** The timers set and not cleared. *)
Fixpoint live (calls : list timer_call) (timers : list positive) : list positive :=
  match calls with
  | [] => timers
  | ClearTimeout h :: calls' => live calls' (List.remove Pos.eq_dec h timers)
  | SetTimeout _ h :: calls' => live calls' (h :: timers)
  end.

End Sync.

(* ================================================================== *)
(** * Phase sequencer: the barrier                                     *)
(* ================================================================== *)

Section Barrier.
Import SyncPhaseHandler.

Variable onComplete : callback.

Lemma completions_app (a b : list effect) :
  completions (a ++ b) = completions a ++ completions b.
Proof. unfold completions. apply filter_app. Qed.

Lemma changeDone_enter_quiet args st st' out :
  changeDone_enter args st = (st', out) ->
  completions out = []
  /\ change_count_ st' = change_count_ st
  /\ pending_changes st' = pending_changes st
  /\ completionCallback st' = completionCallback st.
Proof.
  unfold changeDone_enter. destruct (stepCallback st); intros H;
    inversion H; subst; cbn; auto.
Qed.

Ltac rsimpl :=
  cbn [advance submitted entered exited finalized change_count_
       pending_changes completionCallback stepCallback stepCallbackContext
       setDoStepCallback initHandler] in *.

Lemma step_mirrors p c st st' out :
  mirrors onComplete p st -> allowed p c = true -> step c st = (st', out) ->
  mirrors onComplete (advance p c) st'
  /\ completions out =
       if over p then [] else
       if over (advance p c) then [Completed onComplete] else [].
Proof.
  intros (Hc & Hp & Hcb & Hxe & Hes) Hal Hst.
  destruct c as [cb|cb ctx|f args|args| |]; cbn in Hal; try discriminate.
  - (* setDoStepCallback *)
    cbn in Hst. inversion Hst; subst; clear Hst. cbn.
    split; [unfold mirrors; rsimpl; auto|].
    unfold over; rsimpl. destruct (finalized p && _); reflexivity.
  - (* doStep *)
    cbn in Hst. unfold doStep in Hst. inversion Hst; subst; clear Hst.
    apply negb_true_iff in Hal.
    split.
    + unfold mirrors; rsimpl. repeat split; auto; lia.
    + unfold over; rsimpl. rewrite Hal. reflexivity.
  - (* changeDone, first half *)
    cbn in Hst. apply changeDone_enter_quiet in Hst.
    destruct Hst as (Hq & H1 & H2 & H3).
    apply Nat.ltb_lt in Hal.
    split.
    + unfold mirrors; rsimpl. rewrite H1, H2, H3. repeat split; auto; lia.
    + rewrite Hq. unfold over; rsimpl. destruct (finalized p && _); reflexivity.
  - (* changeDone, second half *)
    cbn in Hst. unfold changeDone_exit in Hst.
    apply Nat.ltb_lt in Hal.
    assert (Hpos : (0 <? change_count_ st) = true) by (apply Z.ltb_lt; lia).
    rewrite Hpos in Hst.
    assert (Hnot : over p = false).
    { unfold over. replace (exited p =? submitted p)%nat with false.
      - apply andb_false_r.
      - symmetry. apply Nat.eqb_neq. lia. }
    rewrite Hnot.
    assert (Hov : (change_count_ st - 1 =? 0) && negb (pending_changes st)
                  = over (advance p ChangeDoneExit)).
    { unfold over; rsimpl. rewrite Hp, negb_involutive, andb_comm. f_equal.
      destruct (Nat.eqb_spec (S (exited p)) (submitted p)).
      - apply Z.eqb_eq. lia.
      - apply Z.eqb_neq. lia. }
    rewrite Hov in Hst.
    destruct (over (advance p ChangeDoneExit));
      inversion Hst; subst; clear Hst; cbn;
      (split; [unfold mirrors; rsimpl; repeat split; auto; lia
              | rewrite ?Hcb; reflexivity]).
  - (* finalize *)
    apply negb_true_iff in Hal.
    assert (Hnot : over p = false) by (unfold over; rewrite Hal; reflexivity).
    rewrite Hnot. cbn in Hst. unfold finalize in Hst.
    destruct (Z.eqb_spec (change_count_ st) 0) as [Hz|Hz].
    + unfold changeDone in Hst.
      destruct (changeDone_enter _ _) as [st1 out1] eqn:He.
      apply changeDone_enter_quiet in He. cbn in He.
      destruct He as (Hq & H1 & H2 & H3).
      unfold changeDone_exit in Hst. rewrite H1, H2, H3, Hz in Hst. cbn in Hst.
      inversion Hst; subst; clear Hst.
      assert (Hx : exited p = submitted p) by lia.
      split.
      * unfold mirrors; rsimpl. repeat split; auto; lia.
      * rewrite completions_app, Hq. unfold over; rsimpl.
        rewrite Hx, Nat.eqb_refl. reflexivity.
    + inversion Hst; subst; clear Hst. cbn.
      split.
      * unfold mirrors; rsimpl. repeat split; auto.
      * unfold over; rsimpl.
        destruct (Nat.eqb_spec (exited p) (submitted p)); [lia|reflexivity].
Qed.

Lemma over_stays p c :
  (exited p <= entered p)%nat -> (entered p <= submitted p)%nat ->
  over p = true -> allowed p c = true -> advance p c = p.
Proof.
  unfold over. intros Hxe Hes Ho Hal.
  apply andb_true_iff in Ho. destruct Ho as [Hf Hx].
  apply Nat.eqb_eq in Hx.
  destruct c; cbn in *; try discriminate;
    rewrite ?Hf in *; cbn in *; try discriminate; try reflexivity.
  - apply Nat.ltb_lt in Hal. lia.
  - apply Nat.ltb_lt in Hal. lia.
Qed.

Lemma over_follows tr : forall p p',
  (exited p <= entered p)%nat -> (entered p <= submitted p)%nat ->
  over p = true -> follows p tr = Some p' -> p' = p.
Proof.
  induction tr as [|c tr IH]; intros p p' Hxe Hes Ho H; cbn in H.
  - now inversion H.
  - destruct (allowed p c) eqn:Hal; [|discriminate].
    rewrite (over_stays _ _ Hxe Hes Ho Hal) in H. eauto.
Qed.

Lemma run_mirrors tr : forall p p' st st' out,
  mirrors onComplete p st -> follows p tr = Some p' -> run tr st = (st', out) ->
  mirrors onComplete p' st'
  /\ completions out =
       if over p then [] else
       if over p' then [Completed onComplete] else [].
Proof.
  induction tr as [|c tr IH]; intros p p' st st' out Hm Hf Hr.
  - cbn in Hf, Hr. inversion Hf; inversion Hr; subst.
    split; [assumption|]. cbn. destruct (over p'); reflexivity.
  - cbn in Hf, Hr.
    destruct (allowed p c) eqn:Hal; [|discriminate].
    destruct (step c st) as [st1 out1] eqn:Hs.
    destruct (run tr st1) as [st2 out2] eqn:Hr2.
    inversion Hr; subst; clear Hr.
    destruct (step_mirrors _ _ _ _ _ Hm Hal Hs) as [Hm1 Ho1].
    destruct (IH _ _ _ _ _ Hm1 Hf Hr2) as [Hm2 Ho2].
    split; [assumption|].
    rewrite completions_app, Ho1, Ho2.
    destruct (over p) eqn:Hop.
    + destruct Hm as (_ & _ & _ & Hxe & Hes).
      rewrite (over_stays _ _ Hxe Hes Hop Hal), Hop. reflexivity.
    + destruct (over (advance p c)) eqn:Hoa.
      * destruct Hm1 as (_ & _ & _ & Hxe & Hes).
        rewrite (over_follows _ _ _ Hxe Hes Hoa Hf), Hoa. reflexivity.
      * destruct (over p'); reflexivity.
Qed.

Lemma follows_app pre : forall post p p',
  follows p (pre ++ post) = Some p' ->
  exists q, follows p pre = Some q /\ follows q post = Some p'.
Proof.
  induction pre as [|c pre IH]; intros post p p' H; cbn in *.
  - eauto.
  - destruct (allowed p c); [|discriminate]. eauto.
Qed.

Lemma follows_exited tr : forall p p',
  follows p tr = Some p' ->
  exited p' = (exited p + List.length (filter is_exit tr))%nat.
Proof.
  induction tr as [|c tr IH]; intros p p' H; cbn in H.
  - inversion H; subst. cbn. lia.
  - destruct (allowed p c); [|discriminate].
    rewrite (IH _ _ H). destruct c; cbn; lia.
Qed.

Lemma follows_finalized tr : forall p p',
  follows p tr = Some p' ->
  finalized p' = finalized p || existsb is_finalize tr.
Proof.
  induction tr as [|c tr IH]; intros p p' H; cbn in H.
  - inversion H; subst. cbn. now rewrite orb_false_r.
  - destruct (allowed p c); [|discriminate].
    rewrite (IH _ _ H).
    destruct c; cbn; rewrite ?orb_true_r; reflexivity.
Qed.

Lemma follows_submitted_frozen tr : forall p p',
  finalized p = true -> follows p tr = Some p' ->
  submitted p' = submitted p.
Proof.
  induction tr as [|c tr IH]; intros p p' Hfin H; cbn in H.
  - now inversion H.
  - destruct (allowed p c) eqn:Hal; [|discriminate].
    destruct c; cbn in Hal; try discriminate;
      try (rewrite Hfin in Hal; discriminate);
      apply IH in H; cbn in *; auto.
Qed.

Lemma run_init tr st :
  run (InitHandler onComplete :: tr) st = run tr (initHandler onComplete st).
Proof. cbn. destruct (run tr _); reflexivity. Qed.

Lemma mirrors_init st : mirrors onComplete start (initHandler onComplete st).
Proof. unfold mirrors; cbn. repeat split; auto. Qed.

End Barrier.

(** C1. Phase sequencer barrier.  After [initHandler onComplete], let the
    run submit [N] steps, call [finalize] after the last submission, and let
    every submitted step complete exactly once, the completions interleaved
    in any way with the submissions and with [finalize] (also from inside a
    step callback).  Then [onComplete] is the only completion callback
    fired, it is fired exactly once, and whenever it has fired in a prefix
    of the run, that prefix already contains [finalize] and all [N]
    completions. *)
Theorem phase_barrier_fires_once :
  forall (N : nat) (tr : list SyncPhaseHandler.call)
         (onComplete : SyncPhaseHandler.callback) (st : SyncPhaseHandler.state),
    SyncPhaseHandler.phase N tr = true ->
    SyncPhaseHandler.completions
      (snd (SyncPhaseHandler.run (SyncPhaseHandler.InitHandler onComplete :: tr) st))
    = [SyncPhaseHandler.Completed onComplete]
    /\ forall pre post, tr = pre ++ post ->
         SyncPhaseHandler.completions
           (snd (SyncPhaseHandler.run
                   (SyncPhaseHandler.InitHandler onComplete :: pre) st)) <> [] ->
         existsb SyncPhaseHandler.is_finalize pre = true
         /\ List.length (filter SyncPhaseHandler.is_exit pre) = N.
Proof.
  intros N tr cb st Hph. unfold SyncPhaseHandler.phase in Hph.
  destruct (SyncPhaseHandler.follows SyncPhaseHandler.start tr) as [p|] eqn:Hf;
    [|discriminate].
  apply andb_true_iff in Hph. destruct Hph as [Hph Hfin].
  apply andb_true_iff in Hph. destruct Hph as [Hph Hx].
  apply andb_true_iff in Hph. destruct Hph as [Hs He].
  apply Nat.eqb_eq in Hs, He, Hx.
  pose proof (mirrors_init cb st) as Hm0.
  split.
  - rewrite run_init.
    destruct (SyncPhaseHandler.run tr _) as [st2 out2] eqn:Hr. cbn [snd].
    destruct (run_mirrors cb tr _ _ _ _ _ Hm0 Hf Hr) as [_ Ho].
    rewrite Ho. unfold SyncPhaseHandler.over; cbn. rewrite Hfin, Hx, Hs, Nat.eqb_refl.
    reflexivity.
  - intros pre post -> Hfired.
    destruct (follows_app _ _ _ _ Hf) as (q & Hq & Hqp).
    rewrite run_init in Hfired.
    destruct (SyncPhaseHandler.run pre _) as [st1 out1] eqn:Hr.
    cbn [snd] in Hfired.
    destruct (run_mirrors cb pre _ _ _ _ _ Hm0 Hq Hr) as [_ Ho].
    rewrite Ho in Hfired. change (SyncPhaseHandler.over SyncPhaseHandler.start) with false in Hfired.
    destruct (SyncPhaseHandler.over q) eqn:Hov; [|congruence].
    unfold SyncPhaseHandler.over in Hov. apply andb_true_iff in Hov. destruct Hov as [Hqf Hqx].
    apply Nat.eqb_eq in Hqx.
    split.
    + pose proof (follows_finalized _ _ _ Hq) as H. cbn in H. congruence.
    + pose proof (follows_exited _ _ _ Hq) as H. cbn in H.
      pose proof (follows_submitted_frozen _ _ _ Hqf Hqp) as H'.
      lia.
Qed.

(** A phase of two steps: the first completes (through an armed step
    callback that finalizes before the completion returns) and the second
    completes after [finalize]. *)
Lemma phase_barrier_fires_once_witness :
  SyncPhaseHandler.completions
    (snd (SyncPhaseHandler.run
       [SyncPhaseHandler.InitHandler 7%nat;
        SyncPhaseHandler.DoStep 1%nat [SyncPhaseHandler.AVal 10];
        SyncPhaseHandler.SetDoStepCallback 2%nat 0;
        SyncPhaseHandler.DoStep 1%nat [SyncPhaseHandler.AVal 11];
        SyncPhaseHandler.ChangeDoneEnter [SyncPhaseHandler.AVal 5];
        SyncPhaseHandler.Finalize;
        SyncPhaseHandler.ChangeDoneExit;
        SyncPhaseHandler.ChangeDoneEnter [SyncPhaseHandler.AVal 6];
        SyncPhaseHandler.ChangeDoneExit]
       (SyncPhaseHandler.mkState 3 false 0%nat None None)))
  = [SyncPhaseHandler.Completed 7%nat].
Proof.
  apply (phase_barrier_fires_once 2
           [SyncPhaseHandler.DoStep 1%nat [SyncPhaseHandler.AVal 10];
            SyncPhaseHandler.SetDoStepCallback 2%nat 0;
            SyncPhaseHandler.DoStep 1%nat [SyncPhaseHandler.AVal 11];
            SyncPhaseHandler.ChangeDoneEnter [SyncPhaseHandler.AVal 5];
            SyncPhaseHandler.Finalize;
            SyncPhaseHandler.ChangeDoneExit;
            SyncPhaseHandler.ChangeDoneEnter [SyncPhaseHandler.AVal 6];
            SyncPhaseHandler.ChangeDoneExit]
           7%nat (SyncPhaseHandler.mkState 3 false 0%nat None None)).
  reflexivity.
Defined.

(* ================================================================== *)
(** * Diff engine                                                      *)
(* ================================================================== *)

Section DiffEngine.
Import Tabs TabberSession.

(** C3, as amended.  When the two sequences differ in length,
    [getTabsetDiff] returns a major difference, with no minor one and no
    error, that cites the count [|len1 - len2|]; it says "fewer tabs" when
    the SECOND sequence is the shorter one and "more tabs" when the second
    is the longer one. *)
Theorem tabsetDiff_length_mismatch (seq1 seq2 : list Tab) :
  List.length seq1 <> List.length seq2 ->
  getTabsetDiff seq1 seq2 =
  mkDiff (tab_count_message
            (Z.of_nat (List.length seq2) <? Z.of_nat (List.length seq1))
            (Z.of_nat (List.length seq1)) (Z.of_nat (List.length seq2)))
         "" false.
Proof.
  intros Hne. unfold getTabsetDiff, tab_count_message.
  destruct (Z.eqb_spec (Z.of_nat (List.length seq1)) (Z.of_nat (List.length seq2)))
    as [He|He]; [lia|]. cbn [negb].
  destruct (Z.ltb_spec (Z.of_nat (List.length seq2)) (Z.of_nat (List.length seq1))).
  - rewrite Z.abs_eq by lia. reflexivity.
  - rewrite Z.abs_neq by lia. do 3 f_equal. lia.
Qed.

(** Local [A,B,C] against remote [A,B]: a count of 1, and "fewer". *)
Lemma tabsetDiff_length_mismatch_witness :
  getTabsetDiff [tabA; tabB; tabC] [tabA; tabB] = mkDiff "1 fewer tabs" "" false.
Proof.
  apply (tabsetDiff_length_mismatch [tabA; tabB; tabC] [tabA; tabB]).
  cbn. lia.
Defined.

(** C3 as the claim words it, with the direction taken from the first
    sequence (it has fewer tabs when it is the shorter one), fails: for
    [A,B,C] against [A,B] the first sequence has one tab more, and the
    report reads "1 fewer tabs". *)
Lemma tabsetDiff_direction_counterexample :
  ~ (forall seq1 seq2 : list Tab,
       List.length seq1 <> List.length seq2 ->
       major (getTabsetDiff seq1 seq2) =
       tab_count_message
         (Z.of_nat (List.length seq1) <? Z.of_nat (List.length seq2))
         (Z.of_nat (List.length seq1)) (Z.of_nat (List.length seq2))).
Proof.
  intros H. specialize (H [tabA; tabB; tabC] [tabA; tabB]).
  cbn in H. assert (3 <> 2)%nat as N by lia. specialize (H N). discriminate H.
Qed.






End DiffEngine.

(* ================================================================== *)
(** * Window affinity                                                  *)
(* ================================================================== *)

Section WindowAffinity.
Import Tabs TabberSession Tabber.

Lemma score_step_points tab1 sc tab2 :
  score_step tab1 sc tab2 = sc + pair_points tab1 tab2.
Proof.
  unfold score_step, pair_points.
  destruct (String.eqb (url tab1) (url tab2)), (index tab1 =? index tab2),
    (option_eqb Bool.eqb (active tab1) (active tab2)); lia.
Qed.

Lemma inner_loop_total tab1 tabs2 : forall sc,
  fold_left (score_step tab1) tabs2 sc
  = sc + total (map (pair_points tab1) tabs2).
Proof.
  induction tabs2 as [|t2 r IH]; intros sc; cbn [fold_left map].
  - unfold total; cbn [fold_right]. lia.
  - rewrite IH, score_step_points. unfold total; cbn [fold_right]. lia.
Qed.

Lemma total_app (a b : list Z) : total (a ++ b) = total a + total b.
Proof.
  unfold total. induction a as [|x a IH]; cbn [app fold_right]; [|rewrite IH]; lia.
Qed.

Lemma outer_loop_total tabs2 tabs1 : forall sc,
  fold_left (fun score tab1 => fold_left (score_step tab1) tabs2 score) tabs1 sc
  = sc + total (map (fun p => pair_points (fst p) (snd p))
                    (list_prod tabs1 tabs2)).
Proof.
  induction tabs1 as [|t1 r IH]; intros sc; cbn [fold_left list_prod].
  - unfold total; cbn [map fold_right]. lia.
  - rewrite IH, inner_loop_total, map_app, total_app, map_map. cbn [fst snd].
    rewrite Z.add_assoc. reflexivity.
Qed.

Lemma total_constant c (l : list Z) :
  Forall (fun x => x = c) l -> total l = c * Z.of_nat (List.length l).
Proof.
  induction 1 as [|x l Hx _ IH]; cbn [total fold_right List.length].
  - lia.
  - fold (total l). rewrite IH, Hx. lia.
Qed.

Lemma pair_points_same tab : pair_points tab tab = 9.
Proof.
  unfold pair_points. rewrite String.eqb_refl, Z.eqb_refl.
  destruct (active tab) as [[|]|]; reflexivity.
Qed.

(** C6.  The score of two groupings is the sum, over all ordered pairs of
    a tab of the first and a tab of the second, of the points of the pair:
    nothing when the urls differ, otherwise 5, plus 3 when the indexes are
    equal, plus 1 when the active flags are equal.  There is no cap: [n]
    copies of a tab against themselves score [9 * n * n]. *)
Theorem windowScore_is_sum_of_pair_points :
  (forall tabs1 tabs2 : list Tab,
     getWindowScore_ tabs1 tabs2
     = total (map (fun p => pair_points (fst p) (snd p))
                  (list_prod tabs1 tabs2)))
  /\ (forall (tab : Tab) (n : nat),
        getWindowScore_ (repeat tab n) (repeat tab n)
        = 9 * Z.of_nat n * Z.of_nat n).
Proof.
  assert (Hsum : forall tabs1 tabs2 : list Tab,
     getWindowScore_ tabs1 tabs2
     = total (map (fun p => pair_points (fst p) (snd p))
                  (list_prod tabs1 tabs2))).
  { intros. unfold getWindowScore_. rewrite outer_loop_total. lia. }
  split; [exact Hsum|].
  intros tab n. rewrite Hsum.
  rewrite (total_constant 9).
  - rewrite length_map, length_prod, repeat_length. lia.
  - apply Forall_forall. intros x Hx. apply in_map_iff in Hx.
    destruct Hx as ([a b] & <- & Hin). apply in_prod_iff in Hin.
    destruct Hin as [Ha Hb]. apply repeat_spec in Ha, Hb. subst.
    apply pair_points_same.
Qed.

(** ** Greedy acceptance *)

Lemma absent_iff x l : absent x l = true <-> ~ In x l.
Proof.
  unfold absent. rewrite negb_true_iff. split.
  - intros H Hin. assert (existsb (Z.eqb x) l = true) as E.
    { apply existsb_exists. exists x. split; [assumption|apply Z.eqb_refl]. }
    congruence.
  - intros H. destruct (existsb (Z.eqb x) l) eqn:E; [|reflexivity].
    apply existsb_exists in E. destruct E as (y & Hy & Hxy).
    apply Z.eqb_eq in Hxy. subst. contradiction.
Qed.

Lemma NoDup_snoc {A : Type} (l : list A) (x : A) :
  NoDup l -> ~ In x l -> NoDup (l ++ [x]).
Proof.
  intros Hl Hx. apply NoDup_app; [assumption|repeat constructor; intros []|].
  intros a Ha [<-|[]]. contradiction.
Qed.

Lemma acceptLoop_one_to_one l : forall m,
  one_to_one m -> one_to_one (acceptLoop l m).
Proof.
  induction l as [|e l IH]; intros m Hm; cbn [acceptLoop].
  - assumption.
  - destruct (absent (rwid e) (matchedRemIds m)
              && absent (lwid e) (matchedLocIds m)) eqn:Hab.
    + apply IH. apply andb_true_iff in Hab. destruct Hab as [Hr Hl].
      apply absent_iff in Hr, Hl.
      destruct Hm as (H1 & H2 & H3 & H4). unfold one_to_one. cbn.
      rewrite !map_app. cbn. rewrite <- H1, <- H2.
      repeat split; try reflexivity.
      * rewrite H1. apply NoDup_snoc; [assumption|now rewrite <- H1].
      * rewrite H2. apply NoDup_snoc; [assumption|now rewrite <- H2].
    + apply IH. assumption.
Qed.

Lemma acceptLoop_keeps l : forall m p,
  In p (locIdByRemId m) -> In p (locIdByRemId (acceptLoop l m)).
Proof.
  induction l as [|e l IH]; intros m p Hp; cbn [acceptLoop].
  - assumption.
  - destruct (absent _ _ && absent _ _); apply IH; [|assumption].
    cbn. apply in_or_app. now left.
Qed.

Lemma insertScore_In a l x : In x (insertScore a l) <-> x = a \/ In x l.
Proof.
  induction l as [|b l IH]; cbn.
  - intuition.
  - destruct (compareScores a b <=? 0); cbn; [intuition|].
    rewrite IH. intuition.
Qed.

Lemma sortMapScores_In l x : In x (sortMapScores l) <-> In x l.
Proof.
  induction l as [|a l IH]; cbn; [tauto|].
  rewrite insertScore_In, IH. intuition.
Qed.

Lemma insertScore_top e l :
  (forall x, In x l -> score x < score e) -> insertScore e l = e :: l.
Proof.
  intros H. destruct l as [|b l]; [reflexivity|]. cbn.
  assert (score b < score e) as Hb by (apply H; now left).
  unfold compareScores.
  destruct (Z.eqb_spec (score e) (score b)); [lia|].
  destruct (Z.ltb_spec (score e) (score b)); [lia|]. reflexivity.
Qed.

Lemma insertScore_below x e l :
  score x < score e -> insertScore x (e :: l) = e :: insertScore x l.
Proof.
  intros H. cbn. unfold compareScores.
  destruct (Z.eqb_spec (score x) (score e)); [lia|].
  destruct (Z.ltb_spec (score x) (score e)); [|lia]. reflexivity.
Qed.

Lemma sortMapScores_best pre e post :
  (forall x, In x (pre ++ post) -> score x < score e) ->
  sortMapScores (pre ++ e :: post) = e :: sortMapScores (pre ++ post).
Proof.
  induction pre as [|x pre IH]; intros H; cbn [app sortMapScores fold_right].
  - apply insertScore_top. intros x Hx. apply H. cbn.
    now apply sortMapScores_In.
  - fold (sortMapScores (pre ++ e :: post)). fold (sortMapScores (pre ++ post)).
    rewrite IH.
    + apply insertScore_below. apply H. now left.
    + intros y Hy. apply H. now right.
Qed.

(** C5.  Whatever the scores, the accepted mapping is one-to-one: no
    remote (target) window id and no local (source) window id is in more
    than one accepted pair.  And a pair whose score is strictly above the
    score of every other pair is accepted. *)
Theorem greedy_matching_one_to_one_and_best (mapScores : list MapScore) :
  NoDup (map fst (locIdByRemId (acceptMappings mapScores)))
  /\ NoDup (map snd (locIdByRemId (acceptMappings mapScores)))
  /\ (forall pre e post,
        mapScores = pre ++ e :: post ->
        (forall x, In x (pre ++ post) -> score x < score e) ->
        In (rwid e, lwid e) (locIdByRemId (acceptMappings mapScores))).
Proof.
  unfold acceptMappings.
  assert (H0 : one_to_one (mkMatching [] [] [])).
  { unfold one_to_one; cbn. repeat split; constructor. }
  pose proof (acceptLoop_one_to_one (sortMapScores mapScores) _ H0)
    as (_ & _ & Hr & Hl).
  repeat split; try assumption.
  intros pre e post -> Hbest.
  rewrite (sortMapScores_best pre e post Hbest). cbn [acceptLoop].
  cbn. apply acceptLoop_keeps. cbn. now left.
Qed.

(** Three pairs over two local and two remote windows: the best pair
    (remote 20, local 10) is accepted. *)
Lemma greedy_matching_one_to_one_and_best_witness :
  In (20, 10)
     (locIdByRemId
        (acceptMappings [mkMapScore 11 20 5; mkMapScore 10 20 14;
                         mkMapScore 10 21 9])).
Proof.
  refine (proj2 (proj2 (greedy_matching_one_to_one_and_best
            [mkMapScore 11 20 5; mkMapScore 10 20 14; mkMapScore 10 21 9]))
            [mkMapScore 11 20 5] (mkMapScore 10 20 14) [mkMapScore 10 21 9]
            eq_refl _).
  intros x [<-|[<-|[]]]; cbn; lia.
Defined.

End WindowAffinity.

(* ================================================================== *)
(** * Session codec                                                    *)
(* ================================================================== *)

Section Codec.
Import Tabs TabberSession.

Lemma existsb_eqb_false k (l : list string) :
  existsb (String.eqb k) l = false <-> ~ In k l.
Proof.
  split.
  - intros H Hin. assert (existsb (String.eqb k) l = true) as E.
    { apply existsb_exists. exists k. split; [assumption|apply String.eqb_refl]. }
    congruence.
  - intros H. destruct (existsb (String.eqb k) l) eqn:E; [|reflexivity].
    apply existsb_exists in E. destruct E as (y & Hy & Hky).
    apply String.eqb_eq in Hky. subst. contradiction.
Qed.

Lemma obj_set_fresh k v o : ~ In k (keys o) -> obj_set k v o = o ++ [(k, v)].
Proof.
  induction o as [|[k' v'] o IH]; intros H; cbn.
  - reflexivity.
  - destruct (String.eqb_spec k k') as [->|Hne].
    + exfalso. apply H. now left.
    + rewrite IH; [reflexivity|]. intros Hin. apply H. now right.
Qed.

Lemma keys_app (a b : object) : keys (a ++ b) = keys a ++ keys b.
Proof. apply map_app. Qed.

Lemma distinct_keys_cons k v o :
  distinct_keys ((k, v) :: o) = true -> ~ In k (keys o) /\ distinct_keys o = true.
Proof.
  cbn. intros H. apply andb_true_iff in H. destruct H as [H1 H2].
  split; [|assumption]. apply negb_true_iff in H1. intros Hin.
  apply in_map_iff in Hin. destruct Hin as ([k' v'] & Hk & Hin). cbn in Hk. subst.
  assert (existsb (fun kv => String.eqb k (fst kv)) o = true) as E.
  { apply existsb_exists. exists (k, v'). split; [assumption|apply String.eqb_refl]. }
  congruence.
Qed.

Lemma plain_key_spec k :
  plain_key k = true ->
  String.prefix "Tab_" k = false
  /\ String.eqb k "description" = false /\ String.eqb k "generation" = false
  /\ String.eqb k "tabs" = false /\ String.eqb k "numtabs" = false
  /\ String.eqb k "updateTime" = false /\ String.eqb k "__proto__" = false
  /\ starts_with_digit k = false.
Proof.
  unfold plain_key. intros H. apply andb_true_iff in H. destruct H as [H H2].
  apply andb_true_iff in H. destruct H as [H1 H3].
  apply negb_true_iff in H1, H2, H3. cbn [existsb] in H2.
  repeat (apply orb_false_elim in H2; destruct H2 as [? H2]).
  repeat split; assumption.
Qed.

Lemma Tab_key_prefix t : String.prefix "Tab_" (Tab_key t) = true.
Proof. unfold Tab_key. cbn. destruct (JS.String_of_number _); reflexivity. Qed.

Lemma to_uint_nonnil n : Nat.to_uint n <> Decimal.Nil.
Proof.
  intros H. pose proof (DecimalNat.Unsigned.of_to n) as E. rewrite H in E.
  cbn in E. subst n. discriminate H.
Qed.

Lemma String_of_number_nat n :
  JS.String_of_number (Z.of_nat n) = NilEmpty.string_of_uint (Nat.to_uint n).
Proof.
  unfold JS.String_of_number.
  destruct (Z.ltb_spec (Z.of_nat n) 0); [lia|]. rewrite Nat2Z.id.
  pose proof (to_uint_nonnil n). destruct (Nat.to_uint n); try reflexivity.
  contradiction.
Qed.

Lemma Tab_key_inj i j : Tab_key i = Tab_key j -> i = j.
Proof.
  unfold Tab_key. rewrite !String_of_number_nat. cbn. intros H.
  injection H as H. apply DecimalNat.Unsigned.to_uint_inj.
  pose proof (NilEmpty.usu (Nat.to_uint i)) as Hi.
  pose proof (NilEmpty.usu (Nat.to_uint j)) as Hj.
  congruence.
Qed.

(** The first loop of [toSync] over properties that are all new. *)
Lemma copy_fresh_properties ex : forall o,
  distinct_keys ex = true ->
  (forall k, In k (keys ex) -> String.eqb k "tabs" = false /\ ~ In k (keys o)) ->
  fold_left (fun o kv =>
               if negb (String.eqb (fst kv) "tabs") then obj_set (fst kv) (snd kv) o
               else o) ex o
  = o ++ ex.
Proof.
  induction ex as [|[k v] ex IH]; intros o Hd Hk; cbn [fold_left fst snd].
  - now rewrite app_nil_r.
  - apply distinct_keys_cons in Hd. destruct Hd as [Hnin Hd].
    destruct (Hk k (or_introl eq_refl)) as [Ht Ho]. rewrite Ht. cbn [negb].
    rewrite obj_set_fresh by assumption. rewrite IH; [now rewrite <- app_assoc|assumption|].
    intros k' Hin. destruct (Hk k' (or_intror Hin)) as [Ht' Ho'].
    split; [assumption|]. rewrite keys_app. intros Hin'.
    apply in_app_or in Hin'. destruct Hin' as [Hin'|[<-|[]]]; contradiction.
Qed.

(** The second loop of [toSync] when no key of the object is one of the
    tab keys still to come. *)
Lemma add_tabs_fresh l : forall t o,
  (forall k, In k (keys o) ->
     String.prefix "Tab_" k = false \/ exists j, (j < t)%nat /\ k = Tab_key j) ->
  add_tabs t l o = o ++ tab_entries t l.
Proof.
  induction l as [|tab l IH]; intros t o Hk; cbn [add_tabs tab_entries].
  - now rewrite app_nil_r.
  - rewrite obj_set_fresh.
    + rewrite IH; [now rewrite <- app_assoc|].
      intros k Hin. rewrite keys_app in Hin. apply in_app_or in Hin.
      destruct Hin as [Hin|[<-|[]]].
      * destruct (Hk k Hin) as [Hp|(j & Hj & ->)]; [now left|].
        right. exists j. split; [lia|reflexivity].
      * right. exists t. split; [lia|reflexivity].
    + intros Hin. destruct (Hk _ Hin) as [Hp|(j & Hj & He)].
      * rewrite Tab_key_prefix in Hp. discriminate.
      * apply Tab_key_inj in He. lia.
Qed.

Lemma well_formed_spec s :
  well_formed s = true ->
  distinct_keys (extra s) = true
  /\ forall k, In k (keys (extra s)) -> plain_key k = true.
Proof.
  unfold well_formed. intros H. apply andb_true_iff in H. destruct H as [H1 H2].
  split; [assumption|]. intros k Hin. apply in_map_iff in Hin.
  destruct Hin as (kv & <- & Hin).
  rewrite forallb_forall in H2. now apply H2.
Qed.

(** What [toSync] returns: the scalar properties with [numtabs] set from
    the tabs, the other own properties, and one entry per tab. *)
Lemma toSync_shape s :
  well_formed s = true ->
  toSync s =
  [ ("description"%string, VStr (description s));
    ("generation"%string, VNum (generation s));
    ("numtabs"%string, VNum (Z.of_nat (List.length (tabs s))));
    ("updateTime"%string, value_of_timestamp (updateTime s)) ]
  ++ extra s ++ tab_entries 0 (tabs s).
Proof.
  intros Hwf. apply well_formed_spec in Hwf. destruct Hwf as [Hd Hp].
  unfold toSync, own_properties. rewrite fold_left_app.
  cbn [fold_left fst snd String.eqb Ascii.eqb Bool.eqb negb obj_set].
  rewrite copy_fresh_properties; [|assumption|].
  - cbn [app obj_set String.eqb Ascii.eqb Bool.eqb].
    rewrite add_tabs_fresh.
    + cbn [app]. reflexivity.
    + intros k Hin. left. cbn [keys map fst] in Hin.
      destruct Hin as [<-|[<-|[<-|[<-|Hin]]]]; try reflexivity.
      apply Hp in Hin. now apply plain_key_spec in Hin.
  - intros k Hin. apply Hp in Hin. apply plain_key_spec in Hin.
    destruct Hin as (_ & H1 & H2 & H3 & H4 & H5 & _ & _).
    split; [assumption|]. cbn. intros [E|[E|[E|[E|[]]]]]; subst k; discriminate.
Qed.







(** ** update *)

Lemma split_digits d :
  JS.split "_" (NilEmpty.string_of_uint d) = [NilEmpty.string_of_uint d].
Proof.
  induction d; cbn [NilEmpty.string_of_uint JS.split]; try reflexivity;
    rewrite IHd; reflexivity.
Qed.

Lemma digits_of_uint d : forall a : nat,
  JS.digits (NilEmpty.string_of_uint d) (Some (Z.of_nat a))
  = Some (Z.of_nat (Nat.of_uint_acc d a)).
Proof.
  induction d; intros a; cbn [NilEmpty.string_of_uint JS.digits Nat.of_uint_acc];
    try reflexivity;
    match goal with
    | |- context [JS.digit_of ?c] =>
        let r := eval vm_compute in (JS.digit_of c) in
        change (JS.digit_of c) with r
    end; cbv iota; rewrite <- IHd; do 2 f_equal;
    rewrite Nat.tail_mul_spec; lia.
Qed.

Lemma parseInt_of_uint d :
  d <> Decimal.Nil ->
  JS.parseInt (NilEmpty.string_of_uint d) = Some (Z.of_nat (Nat.of_uint d)).
Proof.
  intros Hd. unfold Nat.of_uint. rewrite <- (digits_of_uint d 0).
  destruct d; try contradiction; reflexivity.
Qed.

Lemma parseInt_Tab_key n :
  match nth_error (JS.split "_" (Tab_key n)) 1 with
  | Some piece => JS.parseInt piece
  | None => None
  end = Some (Z.of_nat n).
Proof.
  unfold Tab_key. rewrite String_of_number_nat.
  cbn [String.append JS.split Ascii.eqb Bool.eqb].
  rewrite split_digits. cbn [nth_error].
  rewrite parseInt_of_uint by apply to_uint_nonnil.
  now rewrite DecimalNat.Unsigned.of_to.
Qed.

Lemma isPropertyValid_Tab_key n : isPropertyValid (Tab_key n) = true.
Proof.
  unfold isPropertyValid. rewrite Tab_key_prefix.
  unfold Tab_key. reflexivity.
Qed.



End Codec.

(* ================================================================== *)
(** * Reconciliation controller                                        *)
(* ================================================================== *)

Section Controller.
Import Tabs TabberSession Tabber.

(** C8, as amended.  When the config carries a mode that is not one of the
    four, the mode half of [setOptions] changes nothing and persists
    nothing: the only effect of the call is the alert; the stored mode,
    the sessions, the busy flags and the status are as before.  The debug
    half still runs: with a [debug] property in the config the debug flag
    takes its truth value, and without one the whole state is as before. *)
Theorem setOptions_unsupported_mode (cfg : config) (t : TabberClass)
    (m : option string) :
  config_mode cfg = Some m -> recognized m = false ->
  snd (setOptions cfg t)
  = [Alert ("Unsupported Tabber operational mode: " ++ String_of_mode m)]
  /\ fst (setOptions cfg t)
     = match config_debug cfg with
       | None => t
       | Some d => set_debug (match d with Some true => true | _ => false end) t
       end
  /\ options_ (fst (setOptions cfg t)) = options_ t
  /\ remoteSession_ (fst (setOptions cfg t)) = remoteSession_ t
  /\ localSession_ (fst (setOptions cfg t)) = localSession_ t
  /\ sync_in_progess_ (fst (setOptions cfg t)) = sync_in_progess_ t
  /\ save_in_progess_ (fst (setOptions cfg t)) = save_in_progess_ t
  /\ status_ (fst (setOptions cfg t)) = status_ t
  /\ statusMessage_ (fst (setOptions cfg t)) = statusMessage_ t
  /\ (config_debug cfg = None -> fst (setOptions cfg t) = t).
Proof.
  intros Hm Hr. unfold setOptions, setOptions_mode, setOptions_debug.
  rewrite Hm, Hr. cbn [fst snd].
  destruct (config_debug cfg) as [[[|]|]|]; cbn; repeat split; congruence.
Qed.

(** An unknown mode alone: nothing changes. *)
Lemma setOptions_unsupported_mode_witness :
  fst (setOptions (mkConfig (Some (Some "turbo"%string)) None) TabberClass_new)
  = TabberClass_new.
Proof.
  refine (proj2 (proj2 (proj2 (proj2 (proj2 (proj2 (proj2 (proj2 (proj2
    (setOptions_unsupported_mode
       (mkConfig (Some (Some "turbo"%string)) None) TabberClass_new
       (Some "turbo"%string) eq_refl eq_refl))))))))) eq_refl).
Defined.

(** C8 as the claim words it fails when the config carries [debug] too:
    the unknown mode is refused, and the debug flag is switched on. *)
Lemma setOptions_unsupported_mode_counterexample :
  ~ (forall (cfg : config) (t : TabberClass) (m : option string),
       config_mode cfg = Some m -> recognized m = false ->
       fst (setOptions cfg t) = t).
Proof.
  intros H.
  specialize (H (mkConfig (Some (Some "turbo"%string)) (Some (Some true)))
                TabberClass_new (Some "turbo"%string) eq_refl eq_refl).
  discriminate H.
Qed.



End Controller.

(* ================================================================== *)
(** * More on the diff engine                                          *)
(* ================================================================== *)

Section TabsetFacts.
Import Tabs.

Lemma option_eqb_Z_spec (x y : option Z) :
  option_eqb Z.eqb x y = true <-> x = y.
Proof.
  destruct x as [a|], y as [b|]; cbn; try (split; congruence).
  rewrite Z.eqb_eq. split; congruence.
Qed.

Lemma option_eqb_bool_spec (x y : option bool) :
  option_eqb Bool.eqb x y = true <-> x = y.
Proof.
  destruct x as [a|], y as [b|]; cbn; try (split; congruence).
  rewrite Bool.eqb_true_iff. split; congruence.
Qed.

Lemma winset_add_spec winset w :
  NoDup winset ->
  NoDup (winset_add winset w)
  /\ forall x, In x (winset_add winset w) <-> In x winset \/ x = w.
Proof.
  intros Hnd. unfold winset_add.
  destruct (existsb (option_eqb Z.eqb w) winset) eqn:E.
  - split; [assumption|]. intros x. split; [tauto|].
    intros [H| ->]; [assumption|].
    apply existsb_exists in E. destruct E as (y & Hy & Hwy).
    apply option_eqb_Z_spec in Hwy. now subst.
  - split.
    + apply NoDup_app; [assumption|repeat constructor; intros []|].
      intros a Ha [Ea|[]]. subst a.
      assert (existsb (option_eqb Z.eqb w) winset = true) as E'.
      { apply existsb_exists. exists w. split; [assumption|].
        now apply option_eqb_Z_spec. }
      congruence.
    + intros x. rewrite in_app_iff. cbn. intuition.
Qed.

Lemma winset_fold_spec tabs : forall winset,
  NoDup winset ->
  NoDup (fold_left (fun ws tab => winset_add ws (windowId tab)) tabs winset)
  /\ forall x,
       In x (fold_left (fun ws tab => winset_add ws (windowId tab)) tabs winset)
       <-> In x winset \/ In x (map windowId tabs).
Proof.
  induction tabs as [|tab tabs IH]; intros winset Hnd; cbn [fold_left map].
  - split; [assumption|]. intros x. cbn. tauto.
  - destruct (winset_add_spec winset (windowId tab) Hnd) as [Hnd' Hin'].
    destruct (IH _ Hnd') as [Hnd'' Hin''].
    split; [assumption|]. intros x. rewrite Hin'', Hin'. cbn. intuition.
Qed.

(** X1.  [getTabsetWinCount] is the number of different window ids among
    the tabs: the length of a duplicate-free list with exactly those ids.
    It lies between 0 and the number of tabs, and is 0 only without
    tabs. *)
Theorem winCount_counts_distinct_windows (tabs : list Tab) :
  (exists ids : list (option Z),
      NoDup ids
      /\ (forall w, In w ids <-> In w (map windowId tabs))
      /\ getTabsetWinCount tabs = Z.of_nat (List.length ids))
  /\ 0 <= getTabsetWinCount tabs <= Z.of_nat (List.length tabs)
  /\ (getTabsetWinCount tabs = 0 <-> tabs = []).
Proof.
  unfold getTabsetWinCount.
  destruct (winset_fold_spec tabs [] (NoDup_nil _)) as [Hnd Hin].
  set (ws := fold_left _ tabs []) in *.
  assert (Hin' : forall w, In w ws <-> In w (map windowId tabs)).
  { intros w. rewrite Hin. cbn. tauto. }
  split; [exists ws; auto|]. split.
  - split; [lia|]. apply inj_le.
    rewrite <- (length_map windowId tabs).
    apply NoDup_incl_length; [assumption|]. intros w. apply Hin'.
  - split.
    + intros H0. destruct tabs as [|tab tabs]; [reflexivity|].
      assert (In (windowId tab) ws) as Hw by (apply Hin'; now left).
      destruct ws; [contradiction|]. cbn in H0. lia.
    + intros ->. reflexivity.
Qed.

Lemma truthy_append a b : JS.truthy b = true -> JS.truthy (a ++ b) = true.
Proof. destruct a; cbn; [tauto|reflexivity]. Qed.

Lemma getTabsDiff_cases tab1 tab2 :
  (url tab1 <> url tab2 /\ getTabsDiff tab1 tab2 = mkDiff "different URLs" "" false)
  \/ (url tab1 = url tab2 /\ active tab1 <> active tab2
      /\ getTabsDiff tab1 tab2 = mkDiff "" "a different active tab." false)
  \/ (url tab1 = url tab2 /\ active tab1 = active tab2
      /\ getTabsDiff tab1 tab2 = mkDiff "" "" false).
Proof.
  unfold getTabsDiff.
  destruct (String.eqb_spec (url tab1) (url tab2)) as [Hu|Hu]; cbn [negb].
  - right. destruct (option_eqb Bool.eqb (active tab1) (active tab2)) eqn:Ha.
    + right. apply option_eqb_bool_spec in Ha. auto.
    + left. repeat split; auto. intros E.
      apply option_eqb_bool_spec in E. congruence.
  - left. auto.
Qed.

Lemma scanTabs_urls_differ tabs1 : forall tabs2 dif,
  List.length tabs1 = List.length tabs2 ->
  map url tabs1 <> map url tabs2 ->
  scanTabs tabs1 tabs2 dif = mkDiff "different URLs" "" false.
Proof.
  induction tabs1 as [|t1 r1 IH]; intros [|t2 r2] dif Hlen Hne;
    cbn in Hlen; try discriminate.
  - contradiction.
  - cbn [scanTabs].
    destruct (getTabsDiff_cases t1 t2) as [[Hu ->]|[(Hu & Ha & ->)|(Hu & Ha & ->)]];
      cbn; try reflexivity.
    + destruct (JS.truthy (minor dif)); cbn; apply IH; try lia;
        intros E; apply Hne; cbn; congruence.
    + apply IH; [lia|]. intros E; apply Hne; cbn; congruence.
Qed.

Lemma scanTabs_minor_kept tabs1 : forall tabs2 dif,
  map url tabs1 = map url tabs2 ->
  JS.truthy (minor dif) = true ->
  scanTabs tabs1 tabs2 dif = dif.
Proof.
  induction tabs1 as [|t1 r1 IH]; intros [|t2 r2] dif Hu Hm;
    cbn in Hu; try discriminate; try reflexivity.
  injection Hu as Hu1 Hu. cbn [scanTabs].
  destruct (getTabsDiff_cases t1 t2) as [[Hx _]|[(_ & Ha & ->)|(_ & Ha & ->)]];
    [contradiction| |]; cbn; rewrite ?Hm; cbn; now apply IH.
Qed.

Lemma scanTabs_no_difference tabs1 : forall tabs2 dif,
  map url tabs1 = map url tabs2 ->
  map active tabs1 = map active tabs2 ->
  scanTabs tabs1 tabs2 dif = dif.
Proof.
  induction tabs1 as [|t1 r1 IH]; intros [|t2 r2] dif Hu Ha;
    cbn in Hu; try discriminate; try reflexivity.
  injection Hu as Hu1 Hu. injection Ha as Ha1 Ha. cbn [scanTabs].
  destruct (getTabsDiff_cases t1 t2) as [[Hx _]|[(_ & Hy & _)|(_ & _ & ->)]];
    try contradiction. cbn. now apply IH.
Qed.

Lemma scanTabs_active_differs tabs1 : forall tabs2 dif,
  map url tabs1 = map url tabs2 ->
  map active tabs1 <> map active tabs2 ->
  minor dif = ""%string ->
  scanTabs tabs1 tabs2 dif = mkDiff (major dif) "a different active tab." (err dif).
Proof.
  induction tabs1 as [|t1 r1 IH]; intros [|t2 r2] dif Hu Ha Hm;
    cbn in Hu; try discriminate.
  - contradiction.
  - injection Hu as Hu1 Hu. cbn [scanTabs].
    destruct (getTabsDiff_cases t1 t2) as [[Hx _]|[(_ & Hy & ->)|(_ & Hy & ->)]];
      [contradiction| |]; cbn.
    + rewrite Hm. cbn. now apply scanTabs_minor_kept.
    + apply IH; try assumption. intros E. apply Ha. cbn. congruence.
Qed.

(** X2.  For two sequences with the same number of tabs and the same
    number of windows, [getTabsetDiff] depends only on the urls and the
    active flags, position by position: a url that differs anywhere gives
    the major difference "different URLs" (also when an active flag
    differs at an earlier position); equal urls with an active flag that
    differs give only the minor difference; equal urls and flags give no
    difference. *)
Theorem tabsetDiff_by_position (tabs1 tabs2 : list Tab) :
  List.length tabs1 = List.length tabs2 ->
  getTabsetWinCount tabs1 = getTabsetWinCount tabs2 ->
  (map url tabs1 <> map url tabs2 ->
   getTabsetDiff tabs1 tabs2 = mkDiff "different URLs" "" false)
  /\ (map url tabs1 = map url tabs2 ->
      map active tabs1 <> map active tabs2 ->
      getTabsetDiff tabs1 tabs2 = mkDiff "" "a different active tab." false)
  /\ (map url tabs1 = map url tabs2 ->
      map active tabs1 = map active tabs2 ->
      getTabsetDiff tabs1 tabs2 = mkDiff "" "" false).
Proof.
  intros Hlen Hwin. unfold getTabsetDiff.
  rewrite Hlen, Hwin, !Z.eqb_refl. cbn [negb].
  repeat split; intros.
  - now apply scanTabs_urls_differ.
  - now apply scanTabs_active_differs.
  - now apply scanTabs_no_difference.
Qed.

(** The active tab moved from A to B, the urls are the same: a minor
    difference only. *)
Lemma tabsetDiff_by_position_witness :
  getTabsetDiff
    [tabA; tabB]
    [mkTab "a" 0 (Some 1) (Some 10) (Some false) None;
     mkTab "b" 1 (Some 2) (Some 10) (Some true) None]
  = mkDiff "" "a different active tab." false.
Proof.
  refine (proj1 (proj2 (tabsetDiff_by_position
    [tabA; tabB]
    [mkTab "a" 0 (Some 1) (Some 10) (Some false) None;
     mkTab "b" 1 (Some 2) (Some 10) (Some true) None] eq_refl eq_refl))
    eq_refl _).
  cbn. discriminate.
Defined.

(** X3.  A sequence of tabs has no difference from itself. *)
Theorem tabsetDiff_reflexive (tabs : list Tab) :
  getTabsetDiff tabs tabs = mkDiff "" "" false.
Proof.
  unfold getTabsetDiff. rewrite !Z.eqb_refl. cbn [negb].
  now apply scanTabs_no_difference.
Qed.

Lemma count_message_truthy z (s : string) :
  JS.truthy s = true -> JS.truthy (JS.String_of_number z ++ s) = true.
Proof. apply truthy_append. Qed.

(** X4.  [getTabsetDiff] never reports an error and never reports a major
    and a minor difference together; and which of the two it reports does
    not depend on the order of its arguments (only the wording of a count
    difference does). *)
Theorem tabsetDiff_exclusive_and_symmetric (tabs1 tabs2 : list Tab) :
  err (getTabsetDiff tabs1 tabs2) = false
  /\ (major (getTabsetDiff tabs1 tabs2) = ""%string
      \/ minor (getTabsetDiff tabs1 tabs2) = ""%string)
  /\ JS.truthy (major (getTabsetDiff tabs1 tabs2))
     = JS.truthy (major (getTabsetDiff tabs2 tabs1))
  /\ JS.truthy (minor (getTabsetDiff tabs1 tabs2))
     = JS.truthy (minor (getTabsetDiff tabs2 tabs1)).
Proof.
  destruct (Nat.eq_dec (List.length tabs1) (List.length tabs2)) as [Hlen|Hlen].
  - destruct (Z.eq_dec (getTabsetWinCount tabs1) (getTabsetWinCount tabs2))
      as [Hwin|Hwin].
    + destruct (tabsetDiff_by_position tabs1 tabs2 Hlen Hwin) as (H1 & H2 & H3).
      destruct (tabsetDiff_by_position tabs2 tabs1 (eq_sym Hlen) (eq_sym Hwin))
        as (G1 & G2 & G3).
      destruct (list_eq_dec string_dec (map url tabs1) (map url tabs2)) as [Hu|Hu].
      * assert (Da : {map active tabs1 = map active tabs2}
                     + {map active tabs1 <> map active tabs2}).
        { apply list_eq_dec. decide equality. apply bool_dec. }
        destruct Da as [Ha|Ha].
        -- rewrite (H3 Hu Ha), (G3 (eq_sym Hu) (eq_sym Ha)). cbn. auto.
        -- rewrite (H2 Hu Ha), (G2 (eq_sym Hu) (fun E => Ha (eq_sym E))).
           cbn. auto.
      * rewrite (H1 Hu), (G1 (fun E => Hu (eq_sym E))). cbn. auto.
    + unfold getTabsetDiff. rewrite Hlen, !Z.eqb_refl. cbn [negb].
      destruct (Z.eqb_spec (getTabsetWinCount tabs1) (getTabsetWinCount tabs2));
        [contradiction|].
      destruct (Z.eqb_spec (getTabsetWinCount tabs2) (getTabsetWinCount tabs1));
        [congruence|]. cbn [negb].
      destruct (_ <? _), (_ <? _); cbn [err major minor];
        rewrite !count_message_truthy by reflexivity; auto.
  - unfold getTabsetDiff.
    destruct (Z.eqb_spec (Z.of_nat (List.length tabs1)) (Z.of_nat (List.length tabs2)));
      [lia|].
    destruct (Z.eqb_spec (Z.of_nat (List.length tabs2)) (Z.of_nat (List.length tabs1)));
      [lia|]. cbn [negb].
    destruct (_ <? _), (_ <? _); cbn [err major minor];
      rewrite !count_message_truthy by reflexivity; auto.
Qed.

End TabsetFacts.

(* ================================================================== *)
(** * More on the session                                              *)
(* ================================================================== *)

Section SessionFacts.
Import Tabs TabberSession.

(** X5.  When [update] refuses a key it leaves the session as it was, and
    the key is either unknown to [isPropertyValid] or a [Tab_] key. *)
Theorem update_refusal_changes_nothing (s s' : Session) (key : string) (v : value) :
  update s key v = Some (false, s') ->
  s' = s /\ (isPropertyValid key = false \/ String.prefix "Tab_" key = true).
Proof.
  unfold update.
  destruct (isPropertyValid key) eqn:Hv; cbn [negb].
  - destruct (String.prefix "Tab_" key) eqn:Hp.
    + destruct (match nth_error (JS.split "_" key) 1 with
                | Some piece => JS.parseInt piece | None => None end) as [t|];
        [|discriminate].
      destruct (numtabs s <=? t).
      * intros H. injection H as <-. auto.
      * destruct (t <? 0); [discriminate|].
        destruct v; try discriminate.
        destruct (store_tab _ _ _); discriminate.
    + destruct (set_property s key v) as [s1|]; [|discriminate].
      destruct v; try discriminate.
      destruct (String.eqb key "numtabs" && _); discriminate.
  - intros H. injection H as <-. auto.
Qed.

(** A key nobody knows is refused. *)
Lemma update_refusal_changes_nothing_witness :
  isPropertyValid "options" = false \/ String.prefix "Tab_" "options" = true.
Proof.
  exact (proj2 (update_refusal_changes_nothing
           (mkSession "default" 1 [tabA] 1 (TNum 100) [])
           (mkSession "default" 1 [tabA] 1 (TNum 100) [])
           "options" (VStr "manual") eq_refl)).
Defined.

Lemma store_tab_inside l : forall n tab,
  (n < List.length l)%nat ->
  store_tab l n tab = Some (firstn n l ++ tab :: skipn (S n) l).
Proof.
  induction l as [|x l IH]; intros [|n] tab Hn; cbn in Hn; try lia.
  - reflexivity.
  - cbn. rewrite IH by lia. reflexivity.
Qed.

Lemma store_tab_at_end l : forall tab,
  store_tab l (List.length l) tab = Some (l ++ [tab]).
Proof.
  induction l as [|x l IH]; intros tab; cbn; [reflexivity|].
  now rewrite IH.
Qed.

(** X6.  [update] with the key [Tab_<n>], [n] below [numtabs], and a tab:
    inside the array it replaces slot [n] and nothing else; right at the
    end of the array it appends the tab.  It returns true, and [numtabs]
    and the other properties stay as they were. *)
Theorem update_tab_slot (s : Session) (n : nat) (tab : Tab) :
  Z.of_nat n < numtabs s ->
  ((n < List.length (tabs s))%nat ->
   update s (Tab_key n) (VTab tab)
   = Some (true, set_tabs (firstn n (tabs s) ++ tab :: skipn (S n) (tabs s)) s)
   /\ nth_error (firstn n (tabs s) ++ tab :: skipn (S n) (tabs s)) n = Some tab
   /\ List.length (firstn n (tabs s) ++ tab :: skipn (S n) (tabs s))
      = List.length (tabs s))
  /\ (n = List.length (tabs s) ->
      update s (Tab_key n) (VTab tab) = Some (true, set_tabs (tabs s ++ [tab]) s)).
Proof.
  intros Hn.
  assert (Hupd : update s (Tab_key n) (VTab tab)
                 = match store_tab (tabs s) n tab with
                   | Some l => Some (true, set_tabs l s)
                   | None => None
                   end).
  { unfold update.
    rewrite isPropertyValid_Tab_key, Tab_key_prefix, parseInt_Tab_key.
    cbn [negb].
    destruct (Z.leb_spec (numtabs s) (Z.of_nat n)); [lia|].
    destruct (Z.ltb_spec (Z.of_nat n) 0); [lia|].
    now rewrite Nat2Z.id. }
  rewrite Hupd. split.
  - intros Hlt. rewrite store_tab_inside by assumption.
    split; [reflexivity|]. split.
    + rewrite nth_error_app2; rewrite length_firstn; [|lia].
      replace (n - Nat.min n (List.length (tabs s)))%nat with 0%nat by lia.
      reflexivity.
    + rewrite length_app, length_firstn. cbn [List.length].
      rewrite length_skipn. lia.
  - intros ->. now rewrite store_tab_at_end.
Qed.

(** The second of three tabs is replaced. *)
Lemma update_tab_slot_witness :
  update (mkSession "default" 1 [tabA; tabB; tabC] 3 (TNum 100) [])
         (Tab_key 1) (VTab tabC)
  = Some (true, mkSession "default" 1 [tabA; tabC; tabC] 3 (TNum 100) []).
Proof.
  refine (proj1 (proj1 (update_tab_slot
    (mkSession "default" 1 [tabA; tabB; tabC] 3 (TNum 100) []) 1 tabC _) _));
    cbn; lia.
Defined.

Lemma obj_get_app k (a b : object) :
  obj_get k (a ++ b)
  = match obj_get k a with Some v => Some v | None => obj_get k b end.
Proof.
  induction a as [|[k' v'] a IH]; cbn; [reflexivity|].
  destruct (String.eqb k k'); [reflexivity|apply IH].
Qed.

Lemma obj_get_absent k (o : object) : ~ In k (keys o) -> obj_get k o = None.
Proof.
  induction o as [|[k' v'] o IH]; intros H; cbn; [reflexivity|].
  destruct (String.eqb_spec k k') as [->|Hne].
  - exfalso. apply H. now left.
  - apply IH. intros Hin. apply H. now right.
Qed.

Lemma obj_get_tab_entries l : forall t i,
  obj_get (Tab_key (t + i)) (tab_entries t l) = option_map VTab (nth_error l i).
Proof.
  induction l as [|tab l IH]; intros t i; cbn [tab_entries obj_get].
  - destruct i; reflexivity.
  - destruct (String.eqb_spec (Tab_key (t + i)) (Tab_key t)) as [E|E].
    + apply Tab_key_inj in E. assert (i = 0)%nat as -> by lia. reflexivity.
    + destruct i as [|i]; [rewrite Nat.add_0_r in E; contradiction|].
      replace (t + S i)%nat with (S t + i)%nat by lia. now rewrite IH.
Qed.

Lemma plain_keys_no_Tab_key s i :
  well_formed s = true -> ~ In (Tab_key i) (keys (extra s)).
Proof.
  intros Hwf Hin. apply well_formed_spec in Hwf. destruct Hwf as [_ Hp].
  apply Hp in Hin. apply plain_key_spec in Hin. destruct Hin as [Hpre _].
  rewrite Tab_key_prefix in Hpre. discriminate.
Qed.

(** X7.  What the record of [toSync] holds: no entry [tabs]; under
    [numtabs] the number of tabs (whatever [numtabs] the session had);
    under [Tab_<i>] the tab at position [i], and nothing for an [i] from
    the number of tabs on; under [generation] the generation. *)
Theorem toSync_entries (s : Session) :
  well_formed s = true ->
  obj_get "tabs" (toSync s) = None
  /\ obj_get "numtabs" (toSync s) = Some (VNum (Z.of_nat (List.length (tabs s))))
  /\ obj_get "generation" (toSync s) = Some (VNum (generation s))
  /\ (forall i : nat,
        obj_get (Tab_key i) (toSync s) = option_map VTab (nth_error (tabs s) i))
  /\ (forall i : nat,
        (List.length (tabs s) <= i)%nat -> obj_get (Tab_key i) (toSync s) = None).
Proof.
  intros Hwf. rewrite (toSync_shape s Hwf).
  assert (Htab : forall i : nat,
    obj_get (Tab_key i)
      ([ ("description"%string, VStr (description s));
         ("generation"%string, VNum (generation s));
         ("numtabs"%string, VNum (Z.of_nat (List.length (tabs s))));
         ("updateTime"%string, value_of_timestamp (updateTime s)) ]
       ++ extra s ++ tab_entries 0 (tabs s))
    = option_map VTab (nth_error (tabs s) i)).
  { intros i. rewrite obj_get_app.
    assert (Hhead : forall v1 v2 v3 v4,
      obj_get (Tab_key i)
        [ ("description"%string, v1); ("generation"%string, v2);
          ("numtabs"%string, v3); ("updateTime"%string, v4) ] = None).
    { intros. apply obj_get_absent. cbn. intros [E|[E|[E|[E|[]]]]];
        discriminate E. }
    rewrite Hhead, obj_get_app.
    rewrite (obj_get_absent _ _ (plain_keys_no_Tab_key s i Hwf)).
    apply (obj_get_tab_entries (tabs s) 0 i). }
  repeat split; try reflexivity.
  - cbn [app obj_get String.eqb Ascii.eqb Bool.eqb]. rewrite obj_get_app.
    rewrite obj_get_absent.
    + apply obj_get_absent. intros Hin. apply in_map_iff in Hin.
      destruct Hin as ([k v] & Hk & Hin). cbn in Hk. subst k.
      clear - Hin. revert Hin. generalize 0%nat.
      induction (tabs s) as [|tab l IH]; intros t Hin; cbn in Hin; [contradiction|].
      destruct Hin as [E|Hin]; [|eauto].
      injection E as E _. discriminate E.
    + intros Hin. apply well_formed_spec in Hwf. destruct Hwf as [_ Hp].
      apply Hp in Hin. apply plain_key_spec in Hin.
      destruct Hin as (_ & _ & _ & H3 & _). discriminate H3.
  - exact Htab.
  - intros i Hi. rewrite Htab.
    apply nth_error_None in Hi. now rewrite Hi.
Qed.

(** The local session after its first refresh: one tab, [numtabs] still 0. *)
Lemma toSync_entries_witness :
  obj_get "numtabs" (toSync (mkSession "default" 1 [tabA] 0 (TNum 100) []))
  = Some (VNum 1).
Proof.
  exact (proj1 (proj2 (toSync_entries
           (mkSession "default" 1 [tabA] 0 (TNum 100) []) eq_refl))).
Defined.

(** X8.  The record of [toSync] does not depend on the [numtabs] of the
    session: a session and its clone (which sets [numtabs] from the tabs)
    have the same record. *)
Theorem toSync_ignores_numtabs (s : Session) (n : Z) :
  well_formed s = true ->
  toSync (set_numtabs n s) = toSync s
  /\ toSync (TabberSession_clone s) = toSync s.
Proof.
  intros Hwf. unfold TabberSession_clone.
  rewrite !(toSync_shape (set_numtabs _ s)) by exact Hwf.
  rewrite (toSync_shape s Hwf). split; reflexivity.
Qed.

Lemma toSync_ignores_numtabs_witness :
  toSync (TabberSession_clone (mkSession "default" 1 [tabA; tabB] 0 (TNum 100) []))
  = toSync (mkSession "default" 1 [tabA; tabB] 0 (TNum 100) []).
Proof.
  exact (proj2 (toSync_ignores_numtabs
           (mkSession "default" 1 [tabA; tabB] 0 (TNum 100) []) 7 eq_refl)).
Defined.

(** ** updateProps *)














End SessionFacts.

(* ================================================================== *)
(** * More on the session comparison                                   *)
(* ================================================================== *)

Section SessionDiffFacts.
Import Tabs TabberSession.

Lemma getTabsetDiff_same (l : list Tab) : getTabsetDiff l l = mkDiff "" "" false.
Proof.
  unfold getTabsetDiff. rewrite !Z.eqb_refl. cbn [negb].
  now apply scanTabs_no_difference.
Qed.

Lemma initialized_spec loc rem :
  initialized loc rem = true ->
  (generation loc <? 0) = false /\ (List.length (tabs loc) <? 1)%nat = false
  /\ (generation rem <? 0) = false /\ (List.length (tabs rem) <? 1)%nat = false.
Proof.
  unfold initialized. intros Hi.
  apply andb_true_iff in Hi. destruct Hi as [Hi H4].
  apply andb_true_iff in Hi. destruct Hi as [Hi H3].
  apply andb_true_iff in Hi. destruct Hi as [H1 H2].
  apply negb_true_iff in H1, H2, H3, H4. auto.
Qed.

(** X11.  The report of [getSessionDiff] never has a major and a minor
    difference together, and an error always comes with a major one.  The
    call never touches the tabs, description, [numtabs] or other
    properties of either session, and the only change it ever makes to
    the remote generation is to set it to -1. *)
Theorem sessionDiff_report_and_frame (loc rem : Session) :
  (major (fst (fst (getSessionDiff loc rem))) = ""%string
   \/ minor (fst (fst (getSessionDiff loc rem))) = ""%string)
  /\ (err (fst (fst (getSessionDiff loc rem))) = true ->
      JS.truthy (major (fst (fst (getSessionDiff loc rem)))) = true)
  /\ tabs (snd (fst (getSessionDiff loc rem))) = tabs loc
  /\ description (snd (fst (getSessionDiff loc rem))) = description loc
  /\ numtabs (snd (fst (getSessionDiff loc rem))) = numtabs loc
  /\ extra (snd (fst (getSessionDiff loc rem))) = extra loc
  /\ tabs (snd (getSessionDiff loc rem)) = tabs rem
  /\ description (snd (getSessionDiff loc rem)) = description rem
  /\ numtabs (snd (getSessionDiff loc rem)) = numtabs rem
  /\ extra (snd (getSessionDiff loc rem)) = extra rem
  /\ (generation (snd (getSessionDiff loc rem)) = generation rem
      \/ generation (snd (getSessionDiff loc rem)) = -1).
Proof.
  unfold getSessionDiff.
  destruct (generation loc <? 0); [cbn; intuition|].
  destruct (List.length (tabs loc) <? 1)%nat; [cbn; intuition|].
  destruct (generation rem <? 0); [cbn; intuition|].
  destruct (List.length (tabs rem) <? 1)%nat; [cbn; intuition congruence|].
  destruct (JS.truthy (major (getTabsetDiff (tabs loc) (tabs rem))));
    [|destruct (JS.truthy (minor (getTabsetDiff (tabs loc) (tabs rem))))];
    cbn [major minor err JS.truthy orb String.append];
    destruct (generation loc =? generation rem); cbn [negb];
    try destruct (timestamp_neq _ _); cbn; intuition congruence.
Qed.



(** X13.  Once [getSessionDiff] has found the sessions in sync, a second
    call on the sessions as the first left them finds them in sync again
    and changes nothing. *)
Theorem sessionDiff_in_sync_is_stable (loc rem : Session) :
  initialized loc rem = true ->
  fst (fst (getSessionDiff loc rem)) = mkDiff "" "" false ->
  getSessionDiff (snd (fst (getSessionDiff loc rem))) (snd (getSessionDiff loc rem))
  = (mkDiff "" "" false,
     snd (fst (getSessionDiff loc rem)), snd (getSessionDiff loc rem)).
Proof.
  intros Hi. pose proof Hi as Hi'.
  apply initialized_spec in Hi. destruct Hi as (H1 & H2 & H3 & H4).
  unfold getSessionDiff at 1 3 4 5 6. rewrite H1, H2, H3, H4.
  remember (if JS.truthy (major (getTabsetDiff (tabs loc) (tabs rem)))
            then mkDiff ("Saved session has " ++ major (getTabsetDiff (tabs loc) (tabs rem)))
                        "" false
            else if JS.truthy (minor (getTabsetDiff (tabs loc) (tabs rem)))
            then mkDiff "" ("Saved session has " ++ minor (getTabsetDiff (tabs loc) (tabs rem)))
                        false
            else mkDiff "" "" false) as result eqn:Hresult.
  assert (Hres : JS.truthy (major result) || JS.truthy (minor result) = false ->
                 result = mkDiff "" "" false).
  { rewrite Hresult.
    destruct (JS.truthy (major (getTabsetDiff (tabs loc) (tabs rem))));
      [cbn; discriminate|].
    destruct (JS.truthy (minor (getTabsetDiff (tabs loc) (tabs rem))));
      [cbn; discriminate|]. reflexivity. }
  destruct (JS.truthy (major result) || JS.truthy (minor result)) eqn:Hr.
  - destruct (generation loc =? generation rem); cbn [fst snd];
      intros E; rewrite E in Hr; discriminate Hr.
  - intros _.
    set (loc1 := if negb (generation loc =? generation rem)
                 then set_generation (generation rem) loc else loc).
    assert (Hg : generation loc1 = generation rem).
    { subst loc1. destruct (Z.eqb_spec (generation loc) (generation rem));
        cbn; congruence. }
    assert (Ht : tabs loc1 = tabs loc) by (subst loc1; destruct (negb _); reflexivity).
    assert (Hstep : forall l r : Session,
      generation l = generation rem -> generation r = generation rem ->
      tabs l = tabs loc -> tabs r = tabs rem ->
      timestamp_neq (updateTime l) (updateTime r) = false ->
      getSessionDiff l r = (mkDiff "" "" false, l, r)).
    { intros l r Gl Gr Tl Tr Hneq. unfold getSessionDiff.
      rewrite Gl, Gr, Tl, Tr, H2, H3, H4. rewrite <- Hresult, Hr.
      rewrite Z.eqb_refl. cbn [negb]. rewrite Hneq.
      rewrite (Hres eq_refl). reflexivity. }
    destruct (timestamp_neq (updateTime loc1) (updateTime rem)) eqn:Hneq;
      cbn [fst snd].
    + apply Hstep; cbn [generation tabs set_updateTime updateTime];
        try assumption; try reflexivity.
      unfold timestamp_neq. cbn [number_of_timestamp]. now rewrite Z.eqb_refl.
    + apply Hstep; try assumption; reflexivity.
Qed.

Lemma sessionDiff_in_sync_is_stable_witness :
  getSessionDiff (mkSession "default" 4 [tabA; tabB] 0 (TNum 250) [])
                 (mkSession "default" 4 [tabA; tabB] 2 (TNum 250) [])
  = (mkDiff "" "" false,
     mkSession "default" 4 [tabA; tabB] 0 (TNum 250) [],
     mkSession "default" 4 [tabA; tabB] 2 (TNum 250) []).
Proof.
  exact (sessionDiff_in_sync_is_stable
           (mkSession "default" 1 [tabA; tabB] 0 (TNum 100) [])
           (mkSession "default" 4 [tabA; tabB] 2 (TNum 250) [])
           eq_refl eq_refl).
Defined.



End SessionDiffFacts.

(* ================================================================== *)
(** * More on the phase sequencer                                      *)
(* ================================================================== *)

Section HandlerFacts.
Import SyncPhaseHandler.

Lemma changeDone_exit_facts st st' out :
  changeDone_exit st = (st', out) ->
  (0 <= change_count_ st -> 0 <= change_count_ st')
  /\ pending_changes st' = pending_changes st
  /\ stepCallback st' = stepCallback st
  /\ step_calls out = []
  /\ (pending_changes st = true -> completions out = []).
Proof.
  unfold changeDone_exit.
  destruct (Z.ltb_spec 0 (change_count_ st));
    destruct (_ && negb (pending_changes st)) eqn:E;
    intros Q; injection Q as <- <-; cbn; repeat split; auto; try lia;
    intros Hp; rewrite Hp, andb_false_r in E; discriminate.
Qed.

Lemma changeDone_enter_facts args st st' out :
  changeDone_enter args st = (st', out) ->
  change_count_ st' = change_count_ st
  /\ pending_changes st' = pending_changes st
  /\ completions out = []
  /\ (List.length (step_calls out)
      + armed st'
      = armed st)%nat.
Proof.
  unfold changeDone_enter, armed. destruct (stepCallback st) eqn:E;
    intros H; injection H as <- <-; cbn; rewrite ?E; auto.
Qed.

(** What one entry into the handler keeps. *)
Lemma step_facts c st st' out :
  step c st = (st', out) ->
  (0 <= change_count_ st -> 0 <= change_count_ st')
  /\ (pending_changes st = true -> is_finalize c = false ->
      completions out = [] /\ pending_changes st' = true)
  /\ (List.length (step_calls out) + armed st'
      <= armed st + (if is_arming c then 1 else 0))%nat.
Proof.
  destruct c as [cb|cb ctx|f args|args| |]; cbn [step is_finalize is_arming].
  - intros H; injection H as <- <-. unfold armed. cbn -[Z.add Z.le].
    split; [lia|]. split; [auto|]. destruct (stepCallback st); lia.
  - intros H; injection H as <- <-. unfold armed. cbn -[Z.add Z.le].
    split; [auto|]. split; [auto|]. destruct (stepCallback st); lia.
  - unfold doStep. intros H; injection H as <- <-. unfold armed. cbn -[Z.add Z.le].
    split; [lia|]. split; [auto|]. destruct (stepCallback st); lia.
  - intros H. apply changeDone_enter_facts in H.
    destruct H as (Hc & Hp & Hq & Hs). rewrite Hc, Hp.
    split; [auto|]. split; [auto|]. lia.
  - intros H. apply changeDone_exit_facts in H.
    destruct H as (Hc & Hp & Hs & Hq & Hn). unfold armed. rewrite Hp, Hs, Hq.
    split; [auto|]. split; [auto|]. cbn. destruct (stepCallback st); lia.
  - unfold finalize. destruct (change_count_ st =? 0).
    + unfold changeDone.
      destruct (changeDone_enter _ _) as [st1 out1] eqn:He.
      destruct (changeDone_exit st1) as [st2 out2] eqn:Hx.
      intros H; injection H as <- <-.
      apply changeDone_enter_facts in He. cbn in He.
      destruct He as (Hc & _ & _ & Hs).
      apply changeDone_exit_facts in Hx.
      destruct Hx as (Hc2 & _ & Hs2 & Hq2 & _).
      split; [intros; apply Hc2; lia|]. split; [discriminate|].
      unfold step_calls, armed in *. rewrite filter_app, length_app, Hq2, Hs2.
      cbn [List.length]. cbn [stepCallback] in Hs. lia.
    + intros H; injection H as <- <-. unfold armed. cbn -[Z.add Z.le].
      split; [auto|]. split; [discriminate|]. destruct (stepCallback st); lia.
Qed.

Lemma run_facts tr : forall st st' out,
  run tr st = (st', out) ->
  (0 <= change_count_ st -> 0 <= change_count_ st')
  /\ (pending_changes st = true -> existsb is_finalize tr = false ->
      completions out = [] /\ pending_changes st' = true)
  /\ (List.length (step_calls out) + armed st'
      <= armed st
         + List.length (filter is_arming tr))%nat.
Proof.
  induction tr as [|c tr IH]; intros st st' out H; cbn [run] in H.
  - injection H as <- <-. cbn. split; [auto|]. split; [auto|]. lia.
  - destruct (step c st) as [st1 out1] eqn:Hs.
    destruct (run tr st1) as [st2 out2] eqn:Hr.
    injection H as <- <-.
    destruct (step_facts _ _ _ _ Hs) as (A1 & A2 & A3).
    destruct (IH _ _ _ Hr) as (B1 & B2 & B3).
    split; [auto|]. split.
    + intros Hp Hf. cbn [existsb] in Hf. apply orb_false_elim in Hf.
      destruct Hf as [Hf1 Hf2]. destruct (A2 Hp Hf1) as [Q1 P1].
      destruct (B2 P1 Hf2) as [Q2 P2].
      split; [|assumption]. unfold completions in *.
      now rewrite filter_app, Q1, Q2.
    + unfold step_calls in *. rewrite filter_app, length_app.
      cbn [filter]. destruct (is_arming c); cbn [List.length]; lia.
Qed.

(** X15.  After [initHandler], whatever is called on the handler and in
    whatever order: the pending counter is never negative, and without a
    call of [finalize] the completion callback is not fired, however many
    completions arrive. *)
Theorem no_completion_without_finalize
    (tr : list call) (cb : callback) (st : state) :
  0 <= change_count_ (fst (run (InitHandler cb :: tr) st))
  /\ (existsb is_finalize tr = false ->
      completions (snd (run (InitHandler cb :: tr) st)) = []).
Proof.
  rewrite (run_init cb tr st).
  destruct (run tr (initHandler cb st)) as [st' out] eqn:Hr.
  destruct (run_facts _ _ _ _ Hr) as (A & B & _). cbn [fst snd].
  split; [apply A; cbn; lia|].
  intros Hf. now apply B.
Qed.

(** Two steps, three completions, no [finalize]. *)
Lemma no_completion_without_finalize_witness :
  completions
    (snd (run [InitHandler 7%nat; DoStep 1%nat []; DoStep 1%nat [];
               ChangeDoneEnter []; ChangeDoneExit;
               ChangeDoneEnter []; ChangeDoneExit;
               ChangeDoneEnter []; ChangeDoneExit]
              (mkState 5 false 0%nat None None)))
  = [].
Proof.
  exact (proj2 (no_completion_without_finalize
                  [DoStep 1%nat []; DoStep 1%nat [];
                   ChangeDoneEnter []; ChangeDoneExit;
                   ChangeDoneEnter []; ChangeDoneExit;
                   ChangeDoneEnter []; ChangeDoneExit]
                  7%nat (mkState 5 false 0%nat None None)) eq_refl).
Defined.

(** X16.  The step callback is one-shot.  In any run the step callback is
    called at most once per [setDoStepCallback] (and once more when one
    was armed at the start).  Armed just before a completion, it is
    called with its context and the arguments of that completion, and not
    again in the rest of the run unless it is armed again. *)
Theorem step_callback_is_one_shot :
  (forall (tr : list call) (st : state),
     (List.length (step_calls (snd (run tr st)))
      <= armed st
         + List.length (filter is_arming tr))%nat)
  /\ (forall (cb : callback) (ctx : Z) (args : list arg)
             (tr : list call) (st : state),
        existsb is_arming tr = false ->
        step_calls
          (snd (run (SetDoStepCallback cb ctx :: ChangeDoneEnter args :: tr) st))
        = [StepCalled cb (Some ctx) args]).
Proof.
  split.
  - intros tr st. destruct (run tr st) as [st' out] eqn:Hr.
    destruct (run_facts _ _ _ _ Hr) as (_ & _ & C). cbn [snd]. lia.
  - intros cb ctx args tr st Hna. cbn [run step].
    unfold changeDone_enter. cbn [stepCallback stepCallbackContext setDoStepCallback].
    destruct (run tr _) as [st' out] eqn:Hr. cbn [snd app].
    destruct (run_facts _ _ _ _ Hr) as (_ & _ & C). unfold armed in C.
    cbn [stepCallback] in C.
    assert (Hz : List.length (filter is_arming tr) = 0%nat).
    { clear - Hna. induction tr as [|c tr IH]; [reflexivity|].
      cbn in *. apply orb_false_elim in Hna. destruct Hna as [H1 H2].
      rewrite H1. auto. }
    unfold step_calls in *. cbn [filter is_step_called].
    rewrite Hz in C.
    destruct (filter is_step_called out); [reflexivity|cbn in C; lia].
Qed.

(** Armed once, three completions and [finalize]: one call. *)
Lemma step_callback_is_one_shot_witness :
  step_calls
    (snd (run [SetDoStepCallback 2%nat 0; ChangeDoneEnter [AVal 5];
               ChangeDoneExit; ChangeDoneEnter [AVal 6]; ChangeDoneExit;
               Finalize]
              (mkState 2 true 7%nat None None)))
  = [StepCalled 2%nat (Some 0) [AVal 5]].
Proof.
  exact (proj2 step_callback_is_one_shot 2%nat 0 [AVal 5]
           [ChangeDoneExit; ChangeDoneEnter [AVal 6]; ChangeDoneExit; Finalize]
           (mkState 2 true 7%nat None None) eq_refl).
Defined.

End HandlerFacts.

(* ================================================================== *)
(** * The phases of a restore                                          *)
(* ================================================================== *)

Section RestoreFacts.
Import Tabs TabberSession Tabber Restore.

Lemma no_major_iff_same_url tab1 tab2 :
  JS.truthy (major (getTabsDiff tab1 tab2)) = false <-> url tab1 = url tab2.
Proof.
  destruct (getTabsDiff_cases tab1 tab2) as [[Hu ->]|[(Hu & _ & ->)|(Hu & _ & ->)]];
    cbn; split; auto; try discriminate. intros; contradiction.
Qed.

Lemma find_match_spec remTab rest : forall start tt',
  find_match remTab rest start = Some tt' ->
  (start <= tt')%nat
  /\ exists tab, nth_error rest (tt' - start) = Some tab /\ url tab = url remTab.
Proof.
  induction rest as [|tab rest IH]; intros start tt' H; cbn in H; [discriminate|].
  destruct (JS.truthy (major (getTabsDiff tab remTab))) eqn:E; cbn [negb] in H.
  - apply IH in H. destruct H as (Hle & tab' & Hn & Hu).
    split; [lia|]. exists tab'. split; [|assumption].
    replace (tt' - start)%nat with (S (tt' - S start)) by lia. exact Hn.
  - injection H as <-. split; [lia|]. exists tab.
    rewrite Nat.sub_diag. split; [reflexivity|].
    now apply no_major_iff_same_url.
Qed.

Lemma insert_at_perm {A : Type} i (x : A) l : Permutation (insert_at i x l) (x :: l).
Proof.
  unfold insert_at. rewrite <- (firstn_skipn i l) at 3.
  symmetry. apply Permutation_middle.
Qed.

Lemma remove_at_perm {A : Type} tt' (x : A) l :
  nth_error l tt' = Some x -> Permutation l (x :: remove_at tt' l).
Proof.
  intros H. unfold remove_at.
  destruct (nth_error_split l tt' H) as (l1 & l2 & -> & Hlen). subst tt'.
  rewrite firstn_app, Nat.sub_diag, firstn_all. cbn [firstn].
  rewrite app_nil_r, skipn_app.
  rewrite (skipn_all2 (n := S (List.length l1)) l1) by lia.
  replace (S (List.length l1) - List.length l1)%nat with 1%nat by lia.
  cbn [skipn app]. symmetry. apply Permutation_middle.
Qed.

Lemma firstn_insert_at {A : Type} i (x : A) l :
  (i <= List.length l)%nat ->
  firstn (S i) (insert_at i x l) = firstn i l ++ [x].
Proof.
  intros Hi. unfold insert_at.
  rewrite firstn_app, length_firstn, Nat.min_l by assumption.
  rewrite (firstn_all2 (n := S i)); [|rewrite length_firstn; lia].
  replace (S i - i)%nat with 1%nat by lia. reflexivity.
Qed.

Lemma firstn_remove_at {A : Type} i tt' (l : list A) :
  (i <= tt')%nat -> firstn i (remove_at tt' l) = firstn i l.
Proof.
  intros Hi. unfold remove_at.
  destruct (Nat.le_gt_cases tt' (List.length l)) as [Hl|Hl].
  - rewrite firstn_app, length_firstn, Nat.min_l by assumption.
    replace (i - tt')%nat with 0%nat by lia. cbn [firstn].
    rewrite app_nil_r, firstn_firstn. f_equal. lia.
  - rewrite skipn_all2 by lia. rewrite app_nil_r, firstn_firstn.
    f_equal. lia.
Qed.

Lemma replace_at_insert_at {A : Type} i (x y : A) l :
  (i <= List.length l)%nat ->
  replace_at i y (insert_at i x l) = insert_at i y l.
Proof.
  intros Hi. unfold replace_at, insert_at.
  rewrite firstn_app, length_firstn, Nat.min_l by assumption.
  rewrite Nat.sub_diag. cbn [firstn]. rewrite app_nil_r, firstn_firstn, Nat.min_id.
  f_equal. f_equal.
  rewrite skipn_app, length_firstn, Nat.min_l by assumption.
  rewrite skipn_all2 by (rewrite length_firstn; lia).
  replace (S i - i)%nat with 1%nat by lia. reflexivity.
Qed.

Lemma length_insert_at {A : Type} i (x : A) l :
  List.length (insert_at i x l) = S (List.length l).
Proof.
  unfold insert_at. rewrite length_app. cbn [List.length].
  rewrite length_firstn, length_skipn. lia.
Qed.

Lemma firstn_succ_nth {A : Type} (l : list A) : forall n x,
  nth_error l n = Some x -> firstn (S n) l = firstn n l ++ [x].
Proof.
  induction l as [|y l IH]; intros [|n] x H; cbn in H; try discriminate.
  - injection H as ->. reflexivity.
  - cbn [firstn app]. f_equal. now apply IH.
Qed.

Lemma nth_error_insert_at {A : Type} i (x : A) l :
  (i <= List.length l)%nat -> nth_error (insert_at i x l) i = Some x.
Proof.
  intros Hi. unfold insert_at.
  rewrite nth_error_app2; rewrite length_firstn, Nat.min_l by assumption; [|lia].
  now rewrite Nat.sub_diag.
Qed.

(** Where [scanFrom] stands when it returns: [remDone] are the remote
    tabs below the position it starts from. *)
Lemma scanFrom_spec remRest : forall remDone loc,
  map url (firstn (List.length remDone) loc) = map url remDone ->
  (List.length remDone <= List.length loc)%nat ->
  match scanFrom (List.length remDone) remRest loc with
  | Finalized loc' =>
      Permutation loc' loc
      /\ map url (firstn (List.length (remDone ++ remRest)) loc')
         = map url (remDone ++ remRest)
      /\ (List.length (remDone ++ remRest) <= List.length loc')%nat
  | Waiting loc' j req =>
      exists d1 r d2 loc0,
        remRest = d1 ++ r :: d2
        /\ j = List.length (remDone ++ d1)
        /\ Permutation loc0 loc
        /\ loc' = insert_at j (newTab j r) loc0
        /\ (j <= List.length loc0)%nat
        /\ map url (firstn j loc0) = map url (remDone ++ d1)
        /\ req = CreateTab (Z.of_nat j) (url r)
  end.
Proof.
  induction remRest as [|r remRest IH]; intros remDone loc Hu Hlen;
    cbn [scanFrom].
  - rewrite app_nil_r. split; [reflexivity|]. split; assumption.
  - assert (Hnext : forall loc1 tab,
              Permutation loc1 loc ->
              firstn (S (List.length remDone)) loc1
                = firstn (List.length remDone) loc ++ [tab] ->
              url tab = url r ->
              match scanFrom (S (List.length remDone)) remRest loc1 with
              | Finalized loc' =>
                  Permutation loc' loc
                  /\ map url (firstn (List.length (remDone ++ r :: remRest)) loc')
                     = map url (remDone ++ r :: remRest)
                  /\ (List.length (remDone ++ r :: remRest) <= List.length loc')%nat
              | Waiting loc' j req =>
                  exists d1 r0 d2 loc0,
                    r :: remRest = d1 ++ r0 :: d2
                    /\ j = List.length (remDone ++ d1)
                    /\ Permutation loc0 loc
                    /\ loc' = insert_at j (newTab j r0) loc0
                    /\ (j <= List.length loc0)%nat
                    /\ map url (firstn j loc0) = map url (remDone ++ d1)
                    /\ req = CreateTab (Z.of_nat j) (url r0)
              end).
    { intros loc1 tab Hperm Hfirst Htab.
      assert (Hl1 : (S (List.length remDone) <= List.length loc1)%nat).
      { apply (f_equal (@List.length Tab)) in Hfirst.
        rewrite length_app, !length_firstn in Hfirst.
        cbn [List.length] in Hfirst. lia. }
      specialize (IH (remDone ++ [r]) loc1).
      rewrite length_app in IH. cbn [List.length] in IH.
      rewrite Nat.add_1_r in IH.
      assert (H1 : map url (firstn (S (List.length remDone)) loc1)
                   = map url (remDone ++ [r])).
      { rewrite Hfirst, !map_app, Hu. cbn. now rewrite Htab. }
      specialize (IH H1 Hl1).
      destruct (scanFrom (S (List.length remDone)) remRest loc1)
        as [loc'|loc' j req].
      - destruct IH as (P & U & L). rewrite <- app_assoc in U, L. cbn in U, L.
        split; [now rewrite P|]. split; assumption.
      - destruct IH as (d1 & r0 & d2 & loc0 & E & Ej & P & El & Lj & U & Er).
        exists (r :: d1), r0, d2, loc0. rewrite <- app_assoc in Ej, U. cbn in Ej, U.
        repeat split; try assumption.
        + cbn. now rewrite E.
        + now rewrite P. }
    destruct (nth_error loc (List.length remDone)) as [tab|] eqn:Hn.
    + destruct (JS.truthy (major (getTabsDiff tab r))) eqn:Hm.
      * (* mismatch at this position *)
        destruct (find_match r (skipn (S (List.length remDone)) loc)
                             (S (List.length remDone))) as [tt'|] eqn:Hf.
        -- apply find_match_spec in Hf. destruct Hf as (Hle & tab' & Hn' & Hu').
           rewrite nth_error_skipn in Hn'.
           replace (S (List.length remDone) + (tt' - S (List.length remDone)))%nat
             with tt' in Hn' by lia.
           unfold move_tab. rewrite Hn'.
           apply (Hnext _ tab'); [| |assumption].
           ++ rewrite insert_at_perm. symmetry. now apply remove_at_perm.
           ++ rewrite firstn_insert_at.
              ** rewrite firstn_remove_at by lia. reflexivity.
              ** unfold remove_at. rewrite length_app, length_firstn, length_skipn.
                 assert (tt' < List.length loc)%nat
                   by (apply nth_error_Some; congruence). lia.
        -- exists [], r, remRest, loc. rewrite app_nil_r.
           repeat split; auto.
      * apply (Hnext _ tab); [reflexivity| |now apply no_major_iff_same_url].
        now apply firstn_succ_nth.
    + (* beyond the end of the local tabs *)
      assert (Hfm : find_match r (skipn (S (List.length remDone)) loc)
                               (S (List.length remDone)) = None).
      { apply nth_error_None in Hn. rewrite skipn_all2 by lia. reflexivity. }
      rewrite Hfm. exists [], r, remRest, loc. rewrite app_nil_r.
      repeat split; auto.
Qed.

Lemma resumeScan_Finalized answers rem loc :
  resumeScan answers rem (Finalized loc) = (Finalized loc, []).
Proof. destruct answers; reflexivity. Qed.

Lemma onTabUpdate_created j created r loc0 :
  (j <= List.length loc0)%nat ->
  onTabUpdate j created (insert_at j (newTab j r) loc0)
  = insert_at j (mkTab (url r) (index created) (id created) (windowId created)
                       (active r) (title r)) loc0.
Proof.
  intros Hj. unfold onTabUpdate. rewrite nth_error_insert_at by assumption.
  cbn [url active title newTab]. now apply replace_at_insert_at.
Qed.

(** The phase with enough answers, from a position where the local tabs
    below it carry the urls of the remote tabs below it. *)
Lemma resumeScan_spec answers : forall remDone remRest loc,
  map url (firstn (List.length remDone) loc) = map url remDone ->
  (List.length remDone <= List.length loc)%nat ->
  (List.length remRest <= List.length answers)%nat ->
  exists loc' reqs created,
    resumeScan answers (remDone ++ remRest)
               (scanFrom (List.length remDone) remRest loc)
    = (Finalized loc', reqs)
    /\ Permutation loc' (created ++ loc)
    /\ List.length created = List.length reqs
    /\ (List.length reqs <= List.length remRest)%nat
    /\ map url (firstn (List.length (remDone ++ remRest)) loc')
       = map url (remDone ++ remRest)
    /\ (List.length (remDone ++ remRest) <= List.length loc')%nat
    /\ Forall (fun tab => In (windowId tab) (map windowId answers)) created.
Proof.
  induction answers as [|a answers IH]; intros remDone remRest loc Hu Hlen Hans;
    pose proof (scanFrom_spec remRest remDone loc Hu Hlen) as Hs;
    destruct (scanFrom (List.length remDone) remRest loc) as [loc'|loc' j req].
  - destruct Hs as (P & U & L). exists loc', [], []. cbn. repeat split; auto; lia.
  - destruct Hs as (d1 & r & d2 & loc0 & -> & _). rewrite length_app in Hans.
    cbn in Hans. lia.
  - destruct Hs as (P & U & L). exists loc', [], [].
    rewrite resumeScan_Finalized. cbn. repeat split; auto; lia.
  - destruct Hs as (d1 & r & d2 & loc0 & -> & -> & P & -> & Lj & U & ->).
    cbn [resumeScan]. rewrite onTabUpdate_created by assumption.
    set (y := mkTab (url r) (index a) (id a) (windowId a) (active r) (title r)).
    unfold scanRemoteTabs.
    replace (remDone ++ d1 ++ r :: d2) with ((remDone ++ d1 ++ [r]) ++ d2)
      by (rewrite <- !app_assoc; reflexivity).
    assert (Hj : S (List.length (remDone ++ d1)) = List.length (remDone ++ d1 ++ [r])).
    { rewrite !length_app. cbn. lia. }
    rewrite Hj, skipn_app, skipn_all, Nat.sub_diag. cbn [skipn app].
    destruct (IH (remDone ++ d1 ++ [r]) d2 (insert_at (List.length (remDone ++ d1)) y loc0))
      as (loc1 & reqs & created & E & P1 & C1 & R1 & U1 & L1 & W1).
    + rewrite <- Hj, firstn_insert_at by assumption.
      rewrite map_app, U, app_assoc, !map_app. reflexivity.
    + rewrite <- Hj, length_insert_at. lia.
    + rewrite length_app in Hans. cbn in Hans. lia.
    + rewrite <- Hj in E. rewrite Hj in E. rewrite E.
      exists loc1, (CreateTab (Z.of_nat (List.length (remDone ++ d1))) (url r) :: reqs),
             (y :: created).
      split; [reflexivity|]. split; [|split; [|split; [|split; [|split]]]].
      * rewrite P1, insert_at_perm, P. cbn. symmetry. apply Permutation_middle.
      * cbn [List.length]. lia.
      * assert (List.length (d1 ++ r :: d2) = (List.length d1 + S (List.length d2))%nat)
          as -> by (rewrite length_app; reflexivity).
        cbn [List.length]. lia.
      * exact U1.
      * exact L1.
      * constructor; [now left|].
        eapply Forall_impl; [|exact W1]. intros tab Hin. now right.
Qed.

(** X17.  The create/align phase, with an answer from chrome for every
    creation (as many answers as remote tabs are always enough): it ends
    with [finalize], and then the local tabs are at least as many as the
    remote ones and carry, position by position, the urls of the remote
    tabs.  It creates at most one tab per remote tab. *)
Theorem align_phase_aligns_urls (answers loc rem : list Tab) :
  (List.length rem <= List.length answers)%nat ->
  exists loc' reqs,
    syncBrowserCreatesAndMoves_ answers loc rem = (Finalized loc', reqs)
    /\ (List.length rem <= List.length loc')%nat
    /\ map url (firstn (List.length rem) loc') = map url rem
    /\ (List.length reqs <= List.length rem)%nat.
Proof.
  intros Hans.
  destruct (resumeScan_spec answers [] rem loc eq_refl (Nat.le_0_l _) Hans)
    as (loc' & reqs & created & E & _ & _ & R & U & L & _).
  exists loc', reqs. unfold syncBrowserCreatesAndMoves_, scanRemoteTabs.
  cbn [skipn]. cbn [app List.length] in E, U, L. auto.
Qed.

(** Local [b,a] against remote [a,b,c]: one tab is created. *)
Lemma align_phase_aligns_urls_witness :
  exists loc' reqs,
    syncBrowserCreatesAndMoves_ [tabC; tabC; tabC] [tabB; tabA] [tabA; tabB; tabC]
    = (Finalized loc', reqs)
    /\ (3 <= List.length loc')%nat
    /\ map url (firstn 3 loc') = ["a"; "b"; "c"]%string
    /\ (List.length reqs <= 3)%nat.
Proof.
  apply (align_phase_aligns_urls [tabC; tabC; tabC] [tabB; tabA] [tabA; tabB; tabC]).
  cbn. lia.
Defined.

(** X18.  The create/align phase loses no local tab and makes none up:
    when it ends, the local tabs are the tabs it started with, reordered,
    together with one tab for each creation it submitted. *)
Theorem align_phase_keeps_local_tabs (answers loc rem : list Tab) :
  (List.length rem <= List.length answers)%nat ->
  exists loc' reqs created,
    syncBrowserCreatesAndMoves_ answers loc rem = (Finalized loc', reqs)
    /\ Permutation loc' (created ++ loc)
    /\ List.length created = List.length reqs.
Proof.
  intros Hans.
  destruct (resumeScan_spec answers [] rem loc eq_refl (Nat.le_0_l _) Hans)
    as (loc' & reqs & created & E & P & C & _).
  exists loc', reqs, created. unfold syncBrowserCreatesAndMoves_, scanRemoteTabs.
  cbn [skipn]. cbn [app List.length] in E. auto.
Qed.

Lemma align_phase_keeps_local_tabs_witness :
  exists loc' reqs created,
    syncBrowserCreatesAndMoves_ [tabC; tabC; tabC] [tabB; tabA] [tabA; tabB; tabC]
    = (Finalized loc', reqs)
    /\ Permutation loc' (created ++ [tabB; tabA])
    /\ List.length created = List.length reqs.
Proof.
  apply (align_phase_keeps_local_tabs [tabC; tabC; tabC] [tabB; tabA]
           [tabA; tabB; tabC]).
  cbn. lia.
Defined.

Lemma deletes_spec loc rem :
  (List.length rem <= List.length loc)%nat ->
  fst (syncBrowserDeletes_ loc rem) = firstn (List.length rem) loc
  /\ snd (syncBrowserDeletes_ loc rem)
     = map (fun tab => RemoveTab (id tab)) (skipn (List.length rem) loc).
Proof.
  intros Hl. unfold syncBrowserDeletes_.
  destruct (Nat.ltb_spec (List.length rem) (List.length loc)); cbn [fst snd].
  - auto.
  - rewrite firstn_all2, skipn_all2 by lia. auto.
Qed.

(** X19.  After the create/align phase and the delete phase the local
    tabs are as many as the remote ones and have the same urls in the
    same order; the delete phase asks chrome to remove exactly the local
    tabs that were left beyond the remote count. *)
Theorem align_and_delete_give_remote_urls (answers loc rem : list Tab) :
  (List.length rem <= List.length answers)%nat ->
  exists loc1 reqs,
    syncBrowserCreatesAndMoves_ answers loc rem = (Finalized loc1, reqs)
    /\ map url (fst (syncBrowserDeletes_ loc1 rem)) = map url rem
    /\ List.length (fst (syncBrowserDeletes_ loc1 rem)) = List.length rem
    /\ snd (syncBrowserDeletes_ loc1 rem)
       = map (fun tab => RemoveTab (id tab)) (skipn (List.length rem) loc1)
    /\ loc1 = fst (syncBrowserDeletes_ loc1 rem) ++ skipn (List.length rem) loc1.
Proof.
  intros Hans.
  destruct (resumeScan_spec answers [] rem loc eq_refl (Nat.le_0_l _) Hans)
    as (loc1 & reqs & created & E & _ & _ & _ & U & L & _).
  cbn [app List.length] in E, U, L.
  exists loc1, reqs. destruct (deletes_spec loc1 rem L) as [D1 D2].
  unfold syncBrowserCreatesAndMoves_, scanRemoteTabs. cbn [skipn].
  rewrite D1, D2. repeat split; auto.
  - rewrite length_firstn. lia.
  - now rewrite firstn_skipn.
Qed.

Lemma align_and_delete_give_remote_urls_witness :
  exists loc1 reqs,
    syncBrowserCreatesAndMoves_ [tabC; tabC] [tabC; tabB; tabA; tabC] [tabA; tabB]
    = (Finalized loc1, reqs)
    /\ map url (fst (syncBrowserDeletes_ loc1 [tabA; tabB])) = ["a"; "b"]%string
    /\ List.length (fst (syncBrowserDeletes_ loc1 [tabA; tabB])) = 2%nat
    /\ snd (syncBrowserDeletes_ loc1 [tabA; tabB])
       = map (fun tab => RemoveTab (id tab)) (skipn 2 loc1)
    /\ loc1 = fst (syncBrowserDeletes_ loc1 [tabA; tabB]) ++ skipn 2 loc1.
Proof.
  apply (align_and_delete_give_remote_urls [tabC; tabC]
           [tabC; tabB; tabA; tabC] [tabA; tabB]).
  cbn. lia.
Defined.

(** ** Rehoming *)

Lemma set_windowId_same w tab : windowId tab = Some w -> set_windowId w tab = tab.
Proof. destruct tab; cbn; intros ->; reflexivity. Qed.

Lemma length_homes m loc : forall rem, List.length (homes m loc rem) = List.length loc.
Proof.
  induction loc as [|tab loc IH]; intros [|r rem]; cbn; auto.
Qed.

Lemma homes_app m l1 : forall r1 l2 r2,
  List.length l1 = List.length r1 ->
  homes m (l1 ++ l2) (r1 ++ r2) = homes m l1 r1 ++ homes m l2 r2.
Proof.
  induction l1 as [|tab l1 IH]; intros [|r r1] l2 r2 H; cbn in H; try discriminate.
  - reflexivity.
  - cbn. f_equal. apply IH. lia.
Qed.

Lemma homes_nil_r m l : homes m l [] = l.
Proof. destruct l; reflexivity. Qed.

(** Where [rehomeFrom] stands when it returns. *)
Lemma rehomeFrom_spec locRest : forall t before remRest m sent,
  (List.length locRest <= List.length remRest)%nat ->
  match fst (rehomeFrom t before locRest remRest m sent) with
  | Rehomed cur m' =>
      m' = m /\ cur = before ++ homes m locRest remRest
      /\ Forall (mapped m) (firstn (List.length locRest) remRest)
  | NeedWindow cur m' c =>
      m' = m
      /\ exists p1 tab p2 q1 r q2,
           locRest = p1 ++ tab :: p2 /\ remRest = q1 ++ r :: q2
           /\ List.length p1 = List.length q1
           /\ c = S (t + List.length p1)
           /\ cur = before ++ homes m p1 q1 ++ tab :: p2
           /\ Forall (mapped m) q1
           /\ window_get (windowId r) m = None
  | RehomeThrows => False
  end.
Proof.
  induction locRest as [|tab locRest IH]; intros t before remRest m sent Hlen;
    cbn [rehomeFrom].
  - cbn. rewrite app_nil_r. auto.
  - destruct remRest as [|r remRest]; [cbn in Hlen; lia|].
    cbn [List.length] in Hlen.
    destruct (window_get (windowId r) m) as [lwid|] eqn:Hg.
    + assert (Hhome : home m tab r = set_windowId lwid tab)
        by (unfold home; now rewrite Hg).
      assert (Hm : mapped m r) by (unfold mapped; congruence).
      assert (Hboth : forall tab' sent',
                tab' = set_windowId lwid tab ->
                match fst (rehomeFrom (S t) (before ++ [tab']) locRest remRest m sent') with
                | Rehomed cur m' =>
                    m' = m /\ cur = before ++ homes m (tab :: locRest) (r :: remRest)
                    /\ Forall (mapped m) (firstn (List.length (tab :: locRest)) (r :: remRest))
                | NeedWindow cur m' c =>
                    m' = m
                    /\ exists p1 tab0 p2 q1 r0 q2,
                         tab :: locRest = p1 ++ tab0 :: p2 /\ r :: remRest = q1 ++ r0 :: q2
                         /\ List.length p1 = List.length q1
                         /\ c = S (t + List.length p1)
                         /\ cur = before ++ homes m p1 q1 ++ tab0 :: p2
                         /\ Forall (mapped m) q1
                         /\ window_get (windowId r0) m = None
                | RehomeThrows => False
                end).
      { intros tab' sent' ->.
        specialize (IH (S t) (before ++ [set_windowId lwid tab]) remRest m sent'
                       ltac:(lia)).
        destruct (fst (rehomeFrom (S t) (before ++ [set_windowId lwid tab])
                                  locRest remRest m sent')) as [cur m'|cur m' c|].
        - destruct IH as (-> & -> & F). split; [reflexivity|]. split.
          + cbn [homes]. rewrite Hhome, <- app_assoc. reflexivity.
          + cbn [List.length firstn]. constructor; assumption.
        - destruct IH as (-> & p1 & tab0 & p2 & q1 & r0 & q2 & E1 & E2 & L & C & Cu & F & G).
          split; [reflexivity|].
          exists (tab :: p1), tab0, p2, (r :: q1), r0, q2.
          repeat split; try (cbn; congruence); try assumption.
          + cbn. lia.
          + rewrite Cu. cbn [homes]. rewrite Hhome, <- !app_assoc. reflexivity.
          + constructor; assumption.
        - assumption. }
      destruct (option_eqb Z.eqb (windowId tab) (Some lwid)) eqn:He; cbn [negb].
      * apply Hboth. symmetry. apply set_windowId_same.
        now apply option_eqb_Z_spec.
      * now apply Hboth.
    + cbn [fst]. split; [reflexivity|].
      exists [], tab, locRest, [], r, remRest. cbn.
      rewrite Nat.add_0_r. repeat split; auto.
Qed.

Lemma nth_error_middle {A : Type} (a : list A) x b :
  nth_error (a ++ x :: b) (List.length a) = Some x.
Proof. rewrite nth_error_app2, Nat.sub_diag by lia. reflexivity. Qed.

Lemma firstn_middle {A : Type} (a : list A) x b :
  firstn (S (List.length a)) (a ++ x :: b) = a ++ [x].
Proof.
  rewrite firstn_app, firstn_all2 by lia.
  replace (S (List.length a) - List.length a)%nat with 1%nat by lia. reflexivity.
Qed.

Lemma skipn_middle {A : Type} (a : list A) x b :
  skipn (S (List.length a)) (a ++ x :: b) = b.
Proof.
  rewrite skipn_app, skipn_all2 by lia.
  replace (S (List.length a) - List.length a)%nat with 1%nat by lia. reflexivity.
Qed.

Lemma replace_at_middle {A : Type} (a : list A) x y b :
  replace_at (List.length a) y (a ++ x :: b) = a ++ y :: b.
Proof.
  unfold replace_at. rewrite skipn_middle, firstn_app, Nat.sub_diag, firstn_all.
  cbn [firstn]. now rewrite app_nil_r.
Qed.

Lemma window_set_fresh k v m :
  window_get k m = None -> window_set k v m = m ++ [(k, v)].
Proof.
  induction m as [|[k' v'] m IH]; cbn; [reflexivity|].
  destruct (option_eqb Z.eqb k k'); [discriminate|].
  intros H. now rewrite IH.
Qed.

Lemma window_get_app k (a b : window_map) :
  window_get k (a ++ b)
  = match window_get k a with Some v => Some v | None => window_get k b end.
Proof.
  induction a as [|[k' v'] a IH]; cbn; [reflexivity|].
  destruct (option_eqb Z.eqb k k'); [reflexivity|apply IH].
Qed.

Lemma window_get_In k v m : window_get k m = Some v -> In v (local_windows m).
Proof.
  induction m as [|[k' v'] m IH]; cbn; [discriminate|].
  destruct (option_eqb Z.eqb k k').
  - intros H. injection H as ->. now left.
  - intros H. right. now apply IH.
Qed.

Lemma option_eqb_Z_refl k : option_eqb Z.eqb k k = true.
Proof. now apply option_eqb_Z_spec. Qed.

(** A new remote window with a new local window. *)
Lemma window_set_new k w m :
  window_get k m = None ->
  window_get k (window_set k w m) = Some w
  /\ (forall k', window_get k' m <> None ->
        window_get k' (window_set k w m) = window_get k' m)
  /\ local_windows (window_set k w m) = local_windows m ++ [w]
  /\ (one_window_each m -> ~ In w (local_windows m) ->
      one_window_each (window_set k w m)).
Proof.
  intros Hk. rewrite (window_set_fresh k w m Hk).
  assert (Hget : forall k', window_get k' (m ++ [(k, w)])
                 = match window_get k' m with
                   | Some v => Some v
                   | None => if option_eqb Z.eqb k' k then Some w else None
                   end).
  { intros k'. rewrite window_get_app. reflexivity. }
  split; [|split; [|split]].
  - rewrite Hget, Hk, option_eqb_Z_refl. reflexivity.
  - intros k' Hb. rewrite Hget. destruct (window_get k' m); congruence.
  - unfold local_windows. rewrite map_app. reflexivity.
  - intros Hone Hw k1 k2 v. rewrite !Hget.
    destruct (window_get k1 m) as [v1|] eqn:E1;
      destruct (window_get k2 m) as [v2|] eqn:E2.
    + intros H1 H2. injection H1 as ->. injection H2 as ->. eauto.
    + destruct (option_eqb Z.eqb k2 k); [|discriminate].
      intros H1 H2. injection H1 as ->. injection H2 as <-.
      exfalso. apply Hw. eapply window_get_In; eauto.
    + destruct (option_eqb Z.eqb k1 k); [|discriminate].
      intros H1 H2. injection H2 as ->. injection H1 as <-.
      exfalso. apply Hw. eapply window_get_In; eauto.
    + destruct (option_eqb Z.eqb k1 k) eqn:A1; [|discriminate].
      destruct (option_eqb Z.eqb k2 k) eqn:A2; [|discriminate].
      apply option_eqb_Z_spec in A1, A2. congruence.
Qed.

Lemma homes_extend m m' l : forall r,
  List.length l = List.length r ->
  Forall (mapped m) r ->
  (forall k', window_get k' m <> None -> window_get k' m' = window_get k' m) ->
  homes m' l r = homes m l r /\ Forall (mapped m') r.
Proof.
  induction l as [|tab l IH]; intros [|x r] Hlen Hf Hext; cbn in Hlen;
    try discriminate.
  - split; [reflexivity|constructor].
  - inversion Hf as [|? ? Hx Hr]; subst.
    destruct (IH r ltac:(lia) Hr Hext) as [E F].
    split.
    + cbn [homes]. rewrite E. unfold home. now rewrite (Hext _ Hx).
    + constructor; [|assumption]. unfold mapped in *. now rewrite (Hext _ Hx).
Qed.

Lemma acceptNewWindow_middle w (a : list Tab) tab p2 (ra : list Tab) r q2 m :
  List.length a = List.length ra ->
  acceptNewWindow w (S (List.length a)) (a ++ tab :: p2) (ra ++ r :: q2) m
  = rehomeFrom (S (List.length a)) (a ++ [set_windowId w tab]) p2 q2
      (window_set (windowId r) w m) [].
Proof.
  intros Hlen. unfold acceptNewWindow. cbv zeta.
  replace (S (List.length a) - 1)%nat with (List.length a) by lia.
  rewrite nth_error_middle.
  replace (nth_error (ra ++ r :: q2) (List.length a)) with (Some r)
    by (rewrite Hlen; now rewrite nth_error_middle).
  rewrite replace_at_middle. unfold continueRehomingTabs.
  rewrite firstn_middle, skipn_middle.
  replace (skipn (S (List.length a)) (ra ++ r :: q2)) with q2
    by (rewrite Hlen; now rewrite skipn_middle).
  reflexivity.
Qed.

Lemma resumeRehoming_Rehomed answers rem cur m sent :
  resumeRehoming answers rem (Rehomed cur m, sent) = (Rehomed cur m, sent).
Proof. destruct answers; reflexivity. Qed.

(** The rehoming with enough new windows, none of them in use. *)
Lemma resumeRehoming_spec answers : forall l1 l2 r1 r2 m sent,
  List.length l1 = List.length r1 ->
  Forall (mapped m) r1 ->
  (List.length l2 <= List.length r2)%nat ->
  (List.length l2 <= List.length answers)%nat ->
  one_window_each m ->
  NoDup answers ->
  (forall w, In w answers -> ~ In w (local_windows m)) ->
  exists mF reqs,
    resumeRehoming answers (r1 ++ r2)
      (rehomeFrom (List.length l1) (homes m l1 r1) l2 r2 m sent)
    = (Rehomed (homes mF (l1 ++ l2) (r1 ++ r2)) mF, reqs)
    /\ Forall (mapped mF) (firstn (List.length (l1 ++ l2)) (r1 ++ r2))
    /\ one_window_each mF.
Proof.
  induction answers as [|w answers IH];
    intros l1 l2 r1 r2 m sent Hlen Hmap Hl2 Hans Hone Hnd Hfresh;
    pose proof (rehomeFrom_spec l2 (List.length l1) (homes m l1 r1) r2 m sent Hl2) as Hs;
    destruct (rehomeFrom (List.length l1) (homes m l1 r1) l2 r2 m sent)
      as [[cur m'|cur m' c|] sent'] eqn:Hr; cbn [fst] in Hs; try contradiction.
  - destruct Hs as (-> & -> & F). exists m, sent'. cbn [resumeRehoming].
    rewrite homes_app by assumption. split; [reflexivity|]. split; [|assumption].
    rewrite firstn_app, length_app, Hlen.
    rewrite firstn_all2 by lia.
    replace (List.length r1 + List.length l2 - List.length r1)%nat
      with (List.length l2) by lia.
    apply Forall_app. auto.
  - destruct Hs as (_ & p1 & tab & p2 & q1 & r & q2 & -> & _).
    rewrite length_app in Hans. cbn in Hans. lia.
  - destruct Hs as (-> & -> & F). exists m, sent'.
    rewrite resumeRehoming_Rehomed.
    rewrite homes_app by assumption. split; [reflexivity|]. split; [|assumption].
    rewrite firstn_app, length_app, Hlen.
    rewrite firstn_all2 by lia.
    replace (List.length r1 + List.length l2 - List.length r1)%nat
      with (List.length l2) by lia.
    apply Forall_app. auto.
  - destruct Hs as (-> & p1 & tab & p2 & q1 & r & q2 & -> & -> & Lp & -> & -> & Fq & Hg).
    cbn [resumeRehoming].
    destruct (window_set_new (windowId r) w m Hg) as (G1 & G2 & G3 & G4).
    set (m1 := window_set (windowId r) w m) in *.
    (* the state that acceptNewWindow leaves *)
    assert (Hacc :
      acceptNewWindow w (S (List.length l1 + List.length p1))
        (homes m l1 r1 ++ homes m p1 q1 ++ tab :: p2) (r1 ++ q1 ++ r :: q2) m
      = rehomeFrom (List.length (l1 ++ p1 ++ [tab]))
          (homes m1 (l1 ++ p1 ++ [tab]) (r1 ++ q1 ++ [r])) p2 q2 m1 []).
    { rewrite !app_assoc.
      replace (List.length l1 + List.length p1)%nat
        with (List.length (homes m l1 r1 ++ homes m p1 q1))
        by (rewrite length_app, !length_homes; reflexivity).
      rewrite acceptNewWindow_middle
        by (rewrite !length_app, !length_homes; lia).
      fold m1.
      replace (S (List.length (homes m l1 r1 ++ homes m p1 q1)))
        with (List.length ((l1 ++ p1) ++ [tab]))
        by (rewrite !length_app, !length_homes; cbn; lia).
      f_equal.
      rewrite (homes_app m1 (l1 ++ p1) (r1 ++ q1) [tab] [r])
        by (rewrite !length_app; lia).
      rewrite (homes_app m1 l1 r1 p1 q1) by assumption.
      destruct (homes_extend m m1 l1 r1 Hlen Hmap G2) as [E1 _].
      destruct (homes_extend m m1 p1 q1 Lp Fq G2) as [E2 _].
      rewrite E1, E2. cbn [homes]. unfold home. now rewrite G1. }
    rewrite Hacc.
    destruct (IH (l1 ++ p1 ++ [tab]) p2 (r1 ++ q1 ++ [r]) q2 m1 [])
      as (mF & reqs & E & FF & OF).
    + rewrite !length_app. cbn. lia.
    + destruct (homes_extend m m1 l1 r1 Hlen Hmap G2) as [_ F1].
      destruct (homes_extend m m1 p1 q1 Lp Fq G2) as [_ F2].
      apply Forall_app. split; [assumption|]. apply Forall_app. split; [assumption|].
      constructor; [|constructor]. unfold mapped. rewrite G1. discriminate.
    + rewrite !length_app in Hl2. cbn in Hl2. lia.
    + rewrite length_app in Hans. cbn in Hans. lia.
    + apply G4; [assumption|]. apply Hfresh. now left.
    + now inversion Hnd.
    + intros w' Hin. rewrite G3. intros Hin'. apply in_app_or in Hin'.
      destruct Hin' as [Hin'|[<-|[]]].
      * apply (Hfresh w'); [now right|assumption].
      * inversion Hnd; contradiction.
    + replace ((r1 ++ q1 ++ [r]) ++ q2) with (r1 ++ q1 ++ r :: q2) in E, FF
        by (rewrite <- !app_assoc; reflexivity).
      replace ((l1 ++ p1 ++ [tab]) ++ p2) with (l1 ++ p1 ++ tab :: p2) in E, FF
        by (rewrite <- !app_assoc; reflexivity).
      rewrite E. exists mF, (sent' ++ reqs). auto.
Qed.

(** *** The windows that the matching starts from *)

Lemma add_to_window_keys k tab w x :
  In x (map fst (add_to_window k tab w)) <-> x = k \/ In x (map fst w).
Proof.
  induction w as [|[k' l] w IH]; cbn.
  - intuition.
  - destruct (option_eqb Z.eqb k k') eqn:E.
    + apply option_eqb_Z_spec in E. subst k'. cbn. intuition.
    + destruct (is_array_index k && comes_before k k'); cbn.
      * intuition.
      * rewrite IH. intuition.
Qed.

Lemma groupByWindow_keys tabs : forall w x,
  In x (map fst (fold_left (fun w tab => add_to_window (windowId tab) tab w) tabs w))
  <-> In x (map fst w) \/ In x (map windowId tabs).
Proof.
  induction tabs as [|tab tabs IH]; intros w x; cbn [fold_left map].
  - cbn. tauto.
  - rewrite IH, add_to_window_keys. cbn. intuition.
Qed.

Lemma scoreWindows_inner remWindows : forall lw l ms,
  fst lw = Some l ->
  Forall (fun w => fst w <> None) remWindows ->
  exists ms',
    fold_left
      (fun acc rw =>
         match acc, fst lw, fst rw with
         | Some ms, Some l, Some r =>
             Some (ms ++ [mkMapScore l r (getWindowScore_ (snd lw) (snd rw))])
         | _, _, _ => None
         end) remWindows (Some ms) = Some ms'
    /\ forall e, In e ms' -> In e ms \/ lwid e = l.
Proof.
  induction remWindows as [|rw remWindows IH]; intros lw l ms Hl Hr; cbn [fold_left].
  - exists ms. auto.
  - inversion Hr as [|? ? Hk Hr']; subst. rewrite Hl.
    destruct (fst rw) as [r|] eqn:Er; [|contradiction].
    destruct (IH lw l (ms ++ [mkMapScore l r (getWindowScore_ (snd lw) (snd rw))])
                Hl Hr') as (ms' & E & M).
    rewrite Hl in E. exists ms'. split; [exact E|].
    intros e He. destruct (M e He) as [H| H]; [|now right].
    apply in_app_or in H. destruct H as [H|[<-|[]]]; [now left|now right].
Qed.

Lemma scoreWindows_outer remWindows locWindows : forall ms,
  Forall (fun w => fst w <> None) locWindows ->
  Forall (fun w => fst w <> None) remWindows ->
  exists ms',
    fold_left
      (fun acc lw =>
         fold_left
           (fun acc rw =>
              match acc, fst lw, fst rw with
              | Some ms, Some l, Some r =>
                  Some (ms ++ [mkMapScore l r (getWindowScore_ (snd lw) (snd rw))])
              | _, _, _ => None
              end) remWindows acc) locWindows (Some ms) = Some ms'
    /\ forall e, In e ms' -> In e ms \/ In (Some (lwid e)) (map fst locWindows).
Proof.
  induction locWindows as [|lw locWindows IH]; intros ms Hl Hr; cbn [fold_left].
  - exists ms. auto.
  - inversion Hl as [|? ? Hk Hl']; subst.
    assert (exists l, fst lw = Some l) as [l El]
      by (destruct (fst lw); [eauto|contradiction]).
    destruct (scoreWindows_inner remWindows lw l ms El Hr) as (ms1 & E1 & M1).
    rewrite E1.
    destruct (IH ms1 Hl' Hr) as (ms' & E & M).
    exists ms'. split; [exact E|].
    intros e He. destruct (M e He) as [H|H].
    + destruct (M1 e H) as [H1|H1]; [now left|].
      right. cbn [map]. left. rewrite El. now rewrite H1.
    + right. cbn [map]. now right.
Qed.

(** The scoring does not throw when every tab has a window id, and the
    local side of every score is the window of a local tab. *)
Lemma scoreWindows_spec loc rem :
  Forall has_window loc -> Forall has_window rem ->
  exists ms,
    scoreWindows (groupByWindow loc) (groupByWindow rem) = Some ms
    /\ forall e, In e ms -> In (Some (lwid e)) (map windowId loc).
Proof.
  intros Hl Hr.
  assert (K : forall tabs, Forall has_window tabs ->
                Forall (fun w => fst w <> None) (groupByWindow tabs)).
  { intros tabs Ht. apply Forall_forall. intros w Hw.
    assert (In (fst w) (map fst (groupByWindow tabs))) as Hin by (now apply in_map).
    unfold groupByWindow in Hin. apply groupByWindow_keys in Hin.
    destruct Hin as [[]|Hin]. apply in_map_iff in Hin.
    destruct Hin as (tab & <- & Htab).
    rewrite Forall_forall in Ht. now apply Ht. }
  destruct (scoreWindows_outer (groupByWindow rem) (groupByWindow loc) []
              (K loc Hl) (K rem Hr)) as (ms & E & M).
  exists ms. split; [exact E|].
  intros e He. destruct (M e He) as [[]|H].
  unfold groupByWindow in H. apply groupByWindow_keys in H.
  destruct H as [[]|H]. exact H.
Qed.

Lemma acceptLoop_values l : forall m v,
  In v (map snd (locIdByRemId (acceptLoop l m))) ->
  In v (map snd (locIdByRemId m)) \/ exists e, In e l /\ lwid e = v.
Proof.
  induction l as [|e l IH]; intros m v Hv; cbn [acceptLoop] in Hv.
  - now left.
  - destruct (absent _ _ && absent _ _).
    + destruct (IH _ _ Hv) as [H|(e' & He' & <-)].
      * cbn in H. rewrite map_app in H. apply in_app_or in H.
        destruct H as [H|[<-|[]]]; [now left|].
        right. exists e. split; [now left|reflexivity].
      * right. exists e'. split; [now right|reflexivity].
    + destruct (IH _ _ Hv) as [H|(e' & He' & <-)]; [now left|].
      right. exists e'. split; [now right|reflexivity].
Qed.

Lemma window_get_In_pair k v m : window_get k m = Some v -> In (k, v) m.
Proof.
  induction m as [|[k' v'] m IH]; cbn; [discriminate|].
  destruct (option_eqb Z.eqb k k') eqn:E.
  - apply option_eqb_Z_spec in E. subst k'. intros H. injection H as ->. now left.
  - intros H. right. now apply IH.
Qed.

Lemma NoDup_values_one_window_each m :
  NoDup (local_windows m) -> one_window_each m.
Proof.
  intros Hnd k1 k2 v H1 H2.
  apply window_get_In_pair in H1, H2.
  induction m as [|[k' v'] m IH]; [contradiction|].
  cbn in Hnd. inversion Hnd as [|? ? Hnot Hnd']; subst.
  destruct H1 as [H1|H1], H2 as [H2|H2].
  - congruence.
  - injection H1 as -> ->. exfalso. apply Hnot.
    change v with (snd (k2, v)). now apply in_map.
  - injection H2 as -> ->. exfalso. apply Hnot.
    change v with (snd (k1, v)). now apply in_map.
  - now apply IH.
Qed.

(** The map that the rehoming starts with. *)
Lemma matching_spec ms :
  let m := map (fun p : Z * Z => (Some (fst p), snd p))
               (locIdByRemId (acceptMappings ms)) in
  one_window_each m
  /\ forall v, In v (local_windows m) -> exists e, In e ms /\ lwid e = v.
Proof.
  intros m.
  assert (Hv : local_windows m = map snd (locIdByRemId (acceptMappings ms))).
  { unfold m, local_windows. rewrite map_map. reflexivity. }
  split.
  - apply NoDup_values_one_window_each. rewrite Hv.
    assert (one_to_one (acceptMappings ms)) as (_ & _ & _ & H).
    { apply acceptLoop_one_to_one. unfold one_to_one. cbn.
      repeat split; constructor. }
    exact H.
  - intros v Hin. rewrite Hv in Hin. unfold acceptMappings in Hin.
    apply acceptLoop_values in Hin. destruct Hin as [[]|(e & He & <-)].
    exists e. split; [|reflexivity]. now apply sortMapScores_In.
Qed.

(** *** What the rehoming leaves *)

Lemma homes_fields m loc : forall rem,
  map url (homes m loc rem) = map url loc
  /\ map index (homes m loc rem) = map index loc
  /\ map id (homes m loc rem) = map id loc
  /\ map active (homes m loc rem) = map active loc
  /\ map title (homes m loc rem) = map title loc.
Proof.
  induction loc as [|tab loc IH]; intros [|r rem]; cbn [homes map]; auto.
  destruct (IH rem) as (H1 & H2 & H3 & H4 & H5).
  rewrite H1, H2, H3, H4, H5. unfold home.
  destruct (window_get (windowId r) m); auto.
Qed.

Lemma homes_windows m loc : forall rem,
  (List.length loc <= List.length rem)%nat ->
  Forall (mapped m) (firstn (List.length loc) rem) ->
  map windowId (homes m loc rem)
  = map (fun r => window_get (windowId r) m) (firstn (List.length loc) rem).
Proof.
  induction loc as [|tab loc IH]; intros [|r rem] Hlen Hf; cbn in Hlen;
    try lia; [reflexivity|reflexivity|].
  cbn [List.length firstn] in Hf. inversion Hf as [|? ? Hr Hf']; subst.
  cbn [homes map List.length firstn]. rewrite IH by (assumption || lia).
  f_equal. unfold home, mapped in *.
  destruct (window_get (windowId r) m); [reflexivity|contradiction].
Qed.

(** Window ids that correspond one to one number the same. *)
Lemma winCount_one_to_one (f : option Z -> option Z) tabs1 tabs2 :
  map windowId tabs1 = map f (map windowId tabs2) ->
  (forall x y, In x (map windowId tabs2) -> In y (map windowId tabs2) ->
               f x = f y -> x = y) ->
  getTabsetWinCount tabs1 = getTabsetWinCount tabs2.
Proof.
  intros Hmap Hinj. unfold getTabsetWinCount.
  destruct (winset_fold_spec tabs1 [] (NoDup_nil _)) as [N1 I1].
  destruct (winset_fold_spec tabs2 [] (NoDup_nil _)) as [N2 I2].
  set (ws1 := fold_left _ tabs1 []) in *.
  set (ws2 := fold_left _ tabs2 []) in *.
  f_equal. rewrite <- (length_map f ws2).
  apply Permutation_length, NoDup_Permutation; [assumption| |].
  - apply NoDup_map_NoDup_ForallPairs; [|assumption].
    intros x y Hx Hy. apply I2 in Hx, Hy.
    destruct Hx as [[]|Hx], Hy as [[]|Hy]. now apply Hinj.
  - intros x. rewrite I1, Hmap, !in_map_iff. cbn. split.
    + intros [[]|(y & <- & Hy)]. exists y. split; [reflexivity|].
      apply I2. now right.
    + intros (y & <- & Hy). right. apply I2 in Hy. destruct Hy as [[]|Hy].
      exists y. auto.
Qed.

(** The whole window phase, with what it leaves for the later ones. *)
Lemma mapWindows_spec answers loc rem :
  Forall has_window loc -> Forall has_window rem ->
  (List.length loc <= List.length rem)%nat ->
  (List.length loc <= List.length answers)%nat ->
  NoDup answers ->
  (forall w, In w answers -> ~ In (Some w) (map windowId loc)) ->
  exists m reqs,
    syncBrowserChromeMapWindows_ answers loc rem
    = Some (Rehomed (homes m loc rem) m, reqs)
    /\ one_window_each m
    /\ Forall (mapped m) (firstn (List.length loc) rem).
Proof.
  intros Hl Hr Hlen Hans Hnd Hfresh. unfold syncBrowserChromeMapWindows_.
  destruct (scoreWindows_spec loc rem Hl Hr) as (ms & -> & Hms).
  destruct (matching_spec ms) as [Hone Hval]. cbv zeta in Hone, Hval.
  set (m0 := map _ (locIdByRemId (acceptMappings ms))) in *.
  destruct (resumeRehoming_spec answers [] loc [] rem m0 [] eq_refl
              (Forall_nil _) Hlen Hans Hone Hnd) as (mF & reqs & E & F & O).
  { intros w Hw Hin. destruct (Hval w Hin) as (e & He & <-).
    apply (Hfresh _ Hw). now apply Hms. }
  cbn [app List.length homes] in E, F.
  exists mF, reqs. unfold continueRehomingTabs. cbn [firstn skipn].
  rewrite E. auto.
Qed.

(** X20.  The window phase, on local tabs that are no more than the
    remote ones, every tab with a window id, and with chrome answering
    every creation of a window with a window not in use: it gets to the
    call of the move phase; the local tabs then differ from the ones it
    started with in their windows only, two of them are in one window
    exactly when the remote tabs at their positions are, and with as many
    local as remote tabs the two sides count the same number of
    windows. *)
Theorem window_phase_matches_remote_windows (answers : list Z) (loc rem : list Tab) :
  Forall has_window loc -> Forall has_window rem ->
  (List.length loc <= List.length rem)%nat ->
  (List.length loc <= List.length answers)%nat ->
  NoDup answers ->
  (forall w, In w answers -> ~ In (Some w) (map windowId loc)) ->
  exists loc' m reqs,
    syncBrowserChromeMapWindows_ answers loc rem = Some (Rehomed loc' m, reqs)
    /\ map url loc' = map url loc /\ map index loc' = map index loc
    /\ map id loc' = map id loc /\ map active loc' = map active loc
    /\ map title loc' = map title loc
    /\ (forall i j t1 t2 r1 r2,
          nth_error loc' i = Some t1 -> nth_error loc' j = Some t2 ->
          nth_error rem i = Some r1 -> nth_error rem j = Some r2 ->
          (windowId t1 = windowId t2 <-> windowId r1 = windowId r2))
    /\ (List.length loc = List.length rem ->
        getTabsetWinCount loc' = getTabsetWinCount rem).
Proof.
  intros Hl Hr Hlen Hans Hnd Hfresh.
  destruct (mapWindows_spec answers loc rem Hl Hr Hlen Hans Hnd Hfresh)
    as (m & reqs & E & Hone & Hmapped).
  exists (homes m loc rem), m, reqs.
  destruct (homes_fields m loc rem) as (H1 & H2 & H3 & H4 & H5).
  pose proof (homes_windows m loc rem Hlen Hmapped) as Hw.
  repeat (split; [assumption|]). split.
  - intros i j t1 t2 r1 r2 Ht1 Ht2 Hr1 Hr2.
    assert (P : forall i t r, nth_error (homes m loc rem) i = Some t ->
                nth_error rem i = Some r ->
                windowId t = window_get (windowId r) m
                /\ window_get (windowId r) m <> None).
    { intros i0 t r Ht Hr0.
      assert (i0 < List.length loc)%nat as Hi.
      { rewrite <- (length_homes m loc rem). apply nth_error_Some. congruence. }
      assert (nth_error (firstn (List.length loc) rem) i0 = Some r) as Hf.
      { rewrite nth_error_firstn.
        destruct (Nat.ltb_spec i0 (List.length loc)); [assumption|lia]. }
      split.
      - apply (map_nth_error windowId) in Ht. rewrite Hw in Ht.
        apply (map_nth_error (fun r => window_get (windowId r) m)) in Hf.
        congruence.
      - rewrite Forall_forall in Hmapped. apply Hmapped.
        eapply nth_error_In; eauto. }
    destruct (P i t1 r1 Ht1 Hr1) as [E1 N1].
    destruct (P j t2 r2 Ht2 Hr2) as [E2 N2].
    rewrite E1, E2. split.
    + intros Heq. destruct (window_get (windowId r1) m) as [v|] eqn:G1;
        [|contradiction].
      symmetry in Heq. eapply Hone; eauto.
    + intros ->. reflexivity.
  - intros Heq. rewrite Heq, firstn_all in Hw, Hmapped.
    apply (winCount_one_to_one (fun k => window_get k m)).
    + now rewrite map_map.
    + intros x y Hx Hy Hxy. apply in_map_iff in Hx. destruct Hx as (r & <- & Hin).
      rewrite Forall_forall in Hmapped. specialize (Hmapped r Hin).
      unfold mapped in Hmapped.
      destruct (window_get (windowId r) m) as [v|] eqn:G; [|contradiction].
      symmetry in Hxy. eapply Hone; eauto.
Qed.

(** Remote tabs of two windows, local tabs of one: a window is created. *)
Lemma window_phase_matches_remote_windows_witness :
  exists loc' m reqs,
    syncBrowserChromeMapWindows_ [30; 31] [tabA; tabB] [tabA; tabD]
    = Some (Rehomed loc' m, reqs)
    /\ map url loc' = ["a"; "b"]%string /\ map index loc' = [0; 1]
    /\ map id loc' = [Some 1; Some 2]
    /\ map active loc' = [Some true; Some false]
    /\ map title loc' = [Some "A"; Some "B"]%string
    /\ (forall i j t1 t2 r1 r2,
          nth_error loc' i = Some t1 -> nth_error loc' j = Some t2 ->
          nth_error [tabA; tabD] i = Some r1 -> nth_error [tabA; tabD] j = Some r2 ->
          (windowId t1 = windowId t2 <-> windowId r1 = windowId r2))
    /\ (2%nat = 2%nat -> getTabsetWinCount loc' = 2).
Proof.
  apply (window_phase_matches_remote_windows [30; 31] [tabA; tabB] [tabA; tabD]).
  - repeat constructor; discriminate.
  - repeat constructor; discriminate.
  - cbn. lia.
  - cbn. lia.
  - repeat constructor; cbn; intuition discriminate.
  - intros w [<-|[<-|[]]]; cbn; intuition discriminate.
Defined.

(** *** The move phase and the active phase *)

Lemma setActive_spec loc : forall rem,
  (List.length loc <= List.length rem)%nat ->
  exists l,
    syncBrowserSetActive_ loc rem
    = Some (l, map (fun p => UpdateTab (id (fst p)) (active (snd p)))
                   (combine loc rem))
    /\ List.length l = List.length loc
    /\ map url l = map url loc /\ map index l = map index loc
    /\ map id l = map id loc /\ map windowId l = map windowId loc
    /\ map title l = map title loc
    /\ map active l = map active (firstn (List.length loc) rem).
Proof.
  induction loc as [|tab loc IH]; intros [|r rem] Hlen; cbn in Hlen; try lia.
  - exists []. cbn. auto 10.
  - exists []. cbn. auto 10.
  - destruct (IH rem ltac:(lia)) as (l & E & L & H1 & H2 & H3 & H4 & H5 & H6).
    cbn [syncBrowserSetActive_]. rewrite E.
    eexists. split; [reflexivity|]. cbn [map List.length firstn].
    cbn [url index id windowId title active].
    rewrite L, H1, H2, H3, H4, H5, H6. auto 10.
Qed.

Lemma setActive_throws loc : forall rem,
  (List.length rem < List.length loc)%nat ->
  syncBrowserSetActive_ loc rem = None.
Proof.
  induction loc as [|tab loc IH]; intros [|r rem] Hlen; cbn in Hlen; try lia.
  - reflexivity.
  - cbn [syncBrowserSetActive_]. now rewrite IH by lia.
Qed.

Lemma move_spec loc : forall rem,
  (List.length loc <= List.length rem)%nat ->
  syncBrowserChromeMove_ loc rem
  = Some (map (fun p => MoveTab (id (fst p)) (index (snd p))) (combine loc rem)).
Proof.
  induction loc as [|tab loc IH]; intros [|r rem] Hlen; cbn in Hlen; try lia;
    try reflexivity.
  cbn [syncBrowserChromeMove_]. now rewrite IH by lia.
Qed.

Lemma move_throws loc : forall rem,
  (List.length rem < List.length loc)%nat ->
  syncBrowserChromeMove_ loc rem = None.
Proof.
  induction loc as [|tab loc IH]; intros [|r rem] Hlen; cbn in Hlen; try lia.
  - reflexivity.
  - cbn [syncBrowserChromeMove_]. now rewrite IH by lia.
Qed.

(** X21.  The active phase throws exactly when there are more local than
    remote tabs.  Otherwise it gives every local tab the active flag of
    the remote tab at its position and changes nothing else, and it asks
    chrome for one update per local tab, in order, with that flag. *)
Theorem active_phase_copies_remote_flags (loc rem : list Tab) :
  (syncBrowserSetActive_ loc rem = None
   <-> (List.length rem < List.length loc)%nat)
  /\ forall loc' reqs,
       syncBrowserSetActive_ loc rem = Some (loc', reqs) ->
       List.length loc' = List.length loc
       /\ map active loc' = map active (firstn (List.length loc) rem)
       /\ map url loc' = map url loc /\ map index loc' = map index loc
       /\ map id loc' = map id loc /\ map windowId loc' = map windowId loc
       /\ map title loc' = map title loc
       /\ reqs = map (fun p => UpdateTab (id (fst p)) (active (snd p)))
                     (combine loc rem).
Proof.
  destruct (Nat.le_gt_cases (List.length loc) (List.length rem)) as [Hle|Hgt].
  - destruct (setActive_spec loc rem Hle)
      as (l & E & L & H1 & H2 & H3 & H4 & H5 & H6).
    split.
    + split; [rewrite E; discriminate|lia].
    + intros loc' reqs E'. rewrite E in E'. injection E' as <- <-. auto 10.
  - rewrite (setActive_throws loc rem Hgt). split.
    + split; auto.
    + discriminate.
Qed.

(** X22.  The move phase throws exactly when there are more local than
    remote tabs.  Otherwise it asks chrome for one move per local tab, in
    order, to the index of the remote tab at its position. *)
Theorem move_phase_requests (loc rem : list Tab) :
  (syncBrowserChromeMove_ loc rem = None
   <-> (List.length rem < List.length loc)%nat)
  /\ forall reqs,
       syncBrowserChromeMove_ loc rem = Some reqs ->
       List.length reqs = List.length loc
       /\ forall i tab r,
            nth_error loc i = Some tab -> nth_error rem i = Some r ->
            nth_error reqs i = Some (MoveTab (id tab) (index r)).
Proof.
  destruct (Nat.le_gt_cases (List.length loc) (List.length rem)) as [Hle|Hgt].
  - rewrite (move_spec loc rem Hle). split.
    + split; [discriminate|lia].
    + intros reqs E. injection E as <-. split.
      * rewrite length_map, length_combine. lia.
      * intros i tab r Ht Hr.
        apply (map_nth_error (fun p => MoveTab (id (fst p)) (index (snd p)))
                 i (combine loc rem) (d := (tab, r))).
        clear Hle. revert i rem Ht Hr.
        induction loc as [|x loc IH]; intros [|i] [|y rem] Ht Hr;
          cbn in *; try discriminate.
        -- congruence.
        -- now apply IH.
  - rewrite (move_throws loc rem Hgt). split.
    + split; auto.
    + discriminate.
Qed.

(** *** The whole chain *)

Lemma homes_winCount m loc rem l :
  one_window_each m ->
  List.length loc = List.length rem ->
  Forall (mapped m) rem ->
  map windowId l = map windowId (homes m loc rem) ->
  getTabsetWinCount l = getTabsetWinCount rem.
Proof.
  intros Hone Hlen Hmapped Hl.
  apply (winCount_one_to_one (fun k => window_get k m)).
  - rewrite Hl, homes_windows; rewrite Hlen, ?firstn_all; auto.
    now rewrite map_map.
  - intros x y Hx Hy Hxy. apply in_map_iff in Hx. destruct Hx as (r & <- & Hin).
    rewrite Forall_forall in Hmapped. specialize (Hmapped r Hin).
    unfold mapped in Hmapped.
    destruct (window_get (windowId r) m) as [v|] eqn:G; [|contradiction].
    symmetry in Hxy. eapply Hone; eauto.
Qed.

(** X23.  A restore in which chrome creates every tab and every window it
    is asked for, the new windows being new, gets to [phaseDone], and the
    local tabs then show no difference from the remote tabs. *)
Theorem restore_leaves_no_difference
    (tabAnswers : list Tab) (windowAnswers : list Z) (loc rem : list Tab) :
  Forall has_window loc -> Forall has_window rem ->
  Forall has_window tabAnswers ->
  (List.length rem <= List.length tabAnswers)%nat ->
  (List.length rem <= List.length windowAnswers)%nat ->
  NoDup windowAnswers ->
  (forall w, In w windowAnswers ->
             ~ In (Some w) (map windowId loc)
             /\ ~ In (Some w) (map windowId tabAnswers)) ->
  exists loc' reqs,
    syncBrowserPhases tabAnswers windowAnswers loc rem = Some (loc', reqs)
    /\ getTabsetDiff loc' rem = mkDiff "" "" false.
Proof.
  intros Hl Hr Ha Htabs Hwins Hnd Hfresh.
  destruct (resumeScan_spec tabAnswers [] rem loc eq_refl (Nat.le_0_l _) Htabs)
    as (loc1 & creates & created & E & P & _ & _ & U & L & W).
  cbn [app List.length] in E, U, L.
  unfold syncBrowserPhases, syncBrowserCreatesAndMoves_, scanRemoteTabs.
  cbn [skipn]. rewrite E.
  destruct (deletes_spec loc1 rem L) as [D1 D2].
  destruct (syncBrowserDeletes_ loc1 rem) as [loc2 removes].
  cbn [fst snd] in D1, D2.
  assert (L2 : List.length loc2 = List.length rem).
  { rewrite D1, length_firstn. lia. }
  assert (Hfrom : forall tab, In tab loc2 ->
            In (windowId tab) (map windowId tabAnswers) \/ In tab loc).
  { intros tab Hin. rewrite D1 in Hin.
    assert (In tab loc1) as Hin1.
    { rewrite <- (firstn_skipn (List.length rem) loc1). apply in_or_app. now left. }
    apply (Permutation_in _ P) in Hin1. apply in_app_or in Hin1.
    destruct Hin1 as [Hc|Ho]; [left|now right].
    rewrite Forall_forall in W. now apply W. }
  assert (Hl2 : Forall has_window loc2).
  { apply Forall_forall. intros tab Hin. destruct (Hfrom tab Hin) as [Hc|Ho].
    - apply in_map_iff in Hc. destruct Hc as (a & Ea & Hin_a).
      rewrite Forall_forall in Ha. unfold has_window. rewrite <- Ea.
      now apply Ha.
    - rewrite Forall_forall in Hl. now apply Hl. }
  destruct (mapWindows_spec windowAnswers loc2 rem Hl2 Hr)
    as (m & rehomes & E3 & Hone & Hmapped); try assumption; try lia.
  { intros w Hw Hin. destruct (Hfresh w Hw) as [F1 F2].
    apply in_map_iff in Hin. destruct Hin as (tab & Et & Hin).
    destruct (Hfrom tab Hin) as [Hc|Ho].
    - apply F2. now rewrite <- Et.
    - apply F1. rewrite <- Et. now apply in_map. }
  rewrite E3.
  assert (L3 : List.length (homes m loc2 rem) = List.length rem)
    by (now rewrite length_homes).
  rewrite (move_spec (homes m loc2 rem) rem) by lia.
  destruct (setActive_spec (homes m loc2 rem) rem ltac:(lia))
    as (l & E5 & L5 & H1 & _ & _ & H4 & _ & H6).
  rewrite E5. eexists l, _. split; [reflexivity|].
  rewrite L2, firstn_all in Hmapped. rewrite L3, firstn_all in H6.
  destruct (homes_fields m loc2 rem) as (G1 & _).
  unfold getTabsetDiff. cbv zeta.
  rewrite L5, L3, Z.eqb_refl. cbn [negb].
  rewrite (homes_winCount m loc2 rem l Hone L2 Hmapped H4), Z.eqb_refl.
  cbn [negb]. apply scanTabs_no_difference; [|assumption].
  rewrite H1, G1, D1. exact U.
Qed.

(** Local tabs [b, a] of one window against remote tabs [a, d, c] of two
    windows: one tab and one window are created. *)
Lemma restore_leaves_no_difference_witness :
  exists loc' reqs,
    syncBrowserPhases [tabB; tabB; tabB] [30; 31; 32] [tabB; tabA] [tabA; tabD; tabC]
    = Some (loc', reqs)
    /\ getTabsetDiff loc' [tabA; tabD; tabC] = mkDiff "" "" false.
Proof.
  apply (restore_leaves_no_difference [tabB; tabB; tabB] [30; 31; 32]
           [tabB; tabA] [tabA; tabD; tabC]).
  - repeat constructor; discriminate.
  - repeat constructor; discriminate.
  - repeat constructor; discriminate.
  - cbn. lia.
  - cbn. lia.
  - repeat constructor; cbn; intuition discriminate.
  - intros w [<-|[<-|[<-|[]]]]; cbn; intuition discriminate.
Defined.

End RestoreFacts.

(* ================================================================== *)
(** * The controller after a change                                    *)
(* ================================================================== *)

Section SyncFacts.
Import Tabs TabberSession Tabber Sync.

(** A comparison that found a difference and left both generations at 0
    or more finds the same when repeated, and changes nothing more. *)
Lemma getSessionDiff_again loc rem d l r :
  getSessionDiff loc rem = (d, l, r) ->
  found d = true -> 0 <= generation l -> 0 <= generation r ->
  getSessionDiff l r = (d, l, r)
  /\ (generation loc <> generation rem -> generation l = generation loc)
  /\ isSessionValid l = isSessionValid loc
  /\ isSessionValid r = isSessionValid rem.
Proof.
  unfold getSessionDiff, found.
  destruct (Z.ltb_spec (generation loc) 0) as [G1|G1].
  { intros E. injection E as <- <- <-. intros _ G. lia. }
  destruct (Nat.ltb_spec (List.length (tabs loc)) 1) as [T1|T1].
  { intros E. injection E as <- <- <-. cbn. intros _ G. lia. }
  destruct (Z.ltb_spec (generation rem) 0) as [G2|G2].
  { intros E. injection E as <- <- <-. intros _ _ G. lia. }
  destruct (Nat.ltb_spec (List.length (tabs rem)) 1) as [T2|T2].
  { intros E. injection E as <- <- <-. cbn. intros _ _ G. lia. }
  cbv zeta.
  remember (if JS.truthy (major (getTabsetDiff (tabs loc) (tabs rem)))
            then mkDiff ("Saved session has " ++ major (getTabsetDiff (tabs loc) (tabs rem))) "" false
            else if JS.truthy (minor (getTabsetDiff (tabs loc) (tabs rem)))
            then mkDiff "" ("Saved session has " ++ minor (getTabsetDiff (tabs loc) (tabs rem))) false
            else mkDiff "" "" false) as result eqn:Hres.
  destruct (JS.truthy (major result) || JS.truthy (minor result)) eqn:F.
  - destruct (Z.eqb_spec (generation loc) (generation rem)) as [Ge|Ge];
      intros E; injection E as <- <- <-; intros _ _ _; cbn [generation tabs set_generation].
    + destruct (Z.ltb_spec (generation loc + 1) 0); [lia|].
      destruct (Nat.ltb_spec (List.length (tabs loc)) 1); [lia|].
      destruct (Z.ltb_spec (generation rem) 0); [lia|].
      destruct (Nat.ltb_spec (List.length (tabs rem)) 1); [lia|].
      rewrite <- Hres, F.
      destruct (Z.eqb_spec (generation loc + 1) (generation rem)); [lia|].
      repeat split; auto. intros; lia.
    + destruct (Z.ltb_spec (generation loc) 0); [lia|].
      destruct (Nat.ltb_spec (List.length (tabs loc)) 1); [lia|].
      destruct (Z.ltb_spec (generation rem) 0); [lia|].
      destruct (Nat.ltb_spec (List.length (tabs rem)) 1); [lia|].
      rewrite <- Hres, F.
      destruct (Z.eqb_spec (generation loc) (generation rem)); [lia|].
      repeat split; auto.
  - destruct (timestamp_neq _ _); intros E; injection E as <- <- <-;
      intros F'; rewrite F in F'; discriminate.
Qed.

Lemma compared_fields t :
  localSession_ (compared t)
  = snd (fst (getSessionDiff (localSession_ t) (remoteSession_ t)))
  /\ remoteSession_ (compared t)
     = snd (getSessionDiff (localSession_ t) (remoteSession_ t))
  /\ (status_ (compared t), statusMessage_ (compared t)) = status_of (report t)
  /\ options_ (compared t) = options_ t
  /\ save_in_progess_ (compared t) = save_in_progess_ t
  /\ sync_in_progess_ (compared t) = sync_in_progess_ t
  /\ initialized_ (compared t) = initialized_ t
  /\ uninitialized_ (compared t) = uninitialized_ t
  /\ debug (compared t) = debug t.
Proof.
  unfold compared, report.
  destruct (getSessionDiff (localSession_ t) (remoteSession_ t)) as [[d lo] re].
  cbn. destruct (status_of d). cbn. auto 10.
Qed.

(** The four ways out of the body of [doSync_]. *)
Lemma doSync_step_cases self l t :
  doSync_step self l t = (compared t, [])
  \/ (doSync_step self l t = saveLocalToRemote (compared t)
      /\ favor_local l t = true /\ generation (localSession_ t) <> 1
      /\ (mode (options_ t) = AUTOSYNC \/ mode (options_ t) = AUTOSAVE)
      /\ found (report t) = true
      /\ isSessionValid (localSession_ (compared t)) = true)
  \/ (doSync_step self l t = self (compared t)
      /\ favor_local l t = false
      /\ found (report t) = true
      /\ 0 <= generation (localSession_ (compared t))
      /\ 0 <= generation (remoteSession_ (compared t))
      /\ isSessionValid (localSession_ (compared t)) = true
      /\ isSessionValid (remoteSession_ (compared t)) = false)
  \/ (doSync_step self l t = syncBrowserFromRemote (compared t)
      /\ favor_local l t = false
      /\ found (report t) = true
      /\ isSessionValid (localSession_ (compared t)) = true
      /\ isSessionValid (remoteSession_ (compared t)) = true
      /\ (mode (options_ t) = AUTOSYNC
          \/ generation (localSession_ t) = 1
             /\ (mode (options_ t) = AUTOSTART \/ mode (options_ t) = AUTOSAVE))).
Proof.
  unfold doSync_step, compared, report, found.
  fold (favor_local l t).
  destruct (getSessionDiff (localSession_ t) (remoteSession_ t)) as [[d lo] re].
  cbn [fst snd].
  set (X := set_remoteSession re (set_localSession lo t)).
  assert (Hst :
    (if JS.truthy (major d)
     then if err d then setStatus_ ERR (major d) X else setStatus_ WARN (major d) X
     else if JS.truthy (minor d) then setStatus_ OK (minor d) X
          else setStatus_ OK ok_status X)
    = setStatus_ (fst (status_of d)) (snd (status_of d)) X).
  { unfold status_of. destruct (JS.truthy (major d)); [destruct (err d)|
      destruct (JS.truthy (minor d))]; reflexivity. }
  rewrite Hst. set (c := setStatus_ _ _ X).
  change (options_ c) with (options_ t).
  change (localSession_ c) with lo. change (remoteSession_ c) with re.
  destruct (Z.ltb_spec (generation re) 0) as [Gr|Gr]; cbn [orb]; [now left|].
  destruct (Z.ltb_spec (generation lo) 0) as [Gl|Gl]; [now left|].
  destruct (isSessionValid lo) eqn:Vl; cbn [negb]; [|now left].
  destruct (JS.truthy (major d) || JS.truthy (minor d)) eqn:F; [|now left].
  destruct (favor_local l t) eqn:Fl.
  - destruct (Z.eqb_spec (generation (localSession_ t)) 1) as [G1|G1];
      cbn [negb]; [now left|].
    destruct (String.eqb_spec (mode (options_ t)) AUTOSYNC) as [M1|M1]; cbn [orb].
    { right. left. auto 10. }
    destruct (String.eqb_spec (mode (options_ t)) AUTOSAVE) as [M2|M2].
    { right. left. auto 10. }
    now left.
  - destruct (isSessionValid re) eqn:Vr; cbn [negb].
    + destruct (String.eqb_spec (mode (options_ t)) AUTOSYNC) as [M1|M1];
        cbn [orb].
      { right. right. right. auto 10. }
      destruct (Z.eqb_spec (generation (localSession_ t)) 1) as [G1|G1].
      * destruct (String.eqb_spec (mode (options_ t)) AUTOSTART) as [M2|M2];
          cbn [andb orb].
        { right. right. right. auto 10. }
        destruct (String.eqb_spec (mode (options_ t)) AUTOSAVE) as [M3|M3];
          cbn [andb orb].
        { right. right. right. auto 10. }
        now left.
      * rewrite !andb_false_r. cbn [orb]. now left.
    + right. right. left. auto 10.
Qed.

Lemma compared_twice t :
  found (report t) = true ->
  0 <= generation (localSession_ (compared t)) ->
  0 <= generation (remoteSession_ (compared t)) ->
  compared (compared t) = compared t
  /\ report (compared t) = report t
  /\ (generation (localSession_ t) <> generation (remoteSession_ t) ->
      generation (localSession_ (compared t)) = generation (localSession_ t)).
Proof.
  unfold compared, report.
  destruct (getSessionDiff (localSession_ t) (remoteSession_ t))
    as [[d lo] re] eqn:E.
  cbn [fst snd localSession_ remoteSession_ setStatus_ set_remoteSession
       set_localSession].
  intros F Gl Gr.
  destruct (getSessionDiff_again _ _ _ _ _ E F Gl Gr) as (A & B & _).
  rewrite A. cbn. auto.
Qed.

(** The three ways out of [doSync_]. *)
Lemma doSync_cases l t :
  doSync_ l t = (compared t, [])
  \/ (doSync_ l t = (set_save_in_progess true (compared t), [StartSave])
      /\ save_in_progess_ t = false
      /\ (mode (options_ t) = AUTOSYNC \/ mode (options_ t) = AUTOSAVE)
      /\ found (report t) = true
      /\ isSessionValid (localSession_ (compared t)) = true
      /\ (favor_local l t = true /\ generation (localSession_ t) <> 1
          \/ favor_local l t = false
             /\ 0 <= generation (localSession_ (compared t))
             /\ 0 <= generation (remoteSession_ (compared t))
             /\ generation (localSession_ (compared t)) <> 1
             /\ isSessionValid (remoteSession_ (compared t)) = false))
  \/ (doSync_ l t = (set_sync_in_progess true (compared t), [StartRestore])
      /\ favor_local l t = false
      /\ found (report t) = true
      /\ isSessionValid (localSession_ (compared t)) = true
      /\ isSessionValid (remoteSession_ (compared t)) = true
      /\ (mode (options_ t) = AUTOSYNC
          \/ generation (localSession_ t) = 1
             /\ (mode (options_ t) = AUTOSTART \/ mode (options_ t) = AUTOSAVE))).
Proof.
  destruct (compared_fields t) as (_ & _ & _ & Ho & Hs & _).
  assert (Hsave : forall c, saveLocalToRemote c = (c, [])
            \/ save_in_progess_ c = false
               /\ saveLocalToRemote c = (set_save_in_progess true c, [StartSave])).
  { intros c. unfold saveLocalToRemote. destruct (save_in_progess_ c); auto. }
  unfold doSync_.
  destruct (doSync_step_cases
              (doSync_step (fun t' => (t', [])) (Some true)) l t)
    as [E|[(E & Fl & G1 & M & F & Vl)|[(E & Fl & F & Gl & Gr & Vl & Vr)
       |(E & Fl & F & Vl & Vr & M)]]]; rewrite E.
  - now left.
  - destruct (Hsave (compared t)) as [S|[S1 S2]]; [left; exact S|].
    right. left. rewrite <- Hs. auto 10.
  - destruct (compared_twice t F Gl Gr) as (C & R & _).
    destruct (doSync_step_cases (fun t' => (t', [])) (Some true) (compared t))
      as [E'|[(E' & _ & G1 & M & _)|[(_ & Fl' & _)|(_ & Fl' & _)]]];
      try discriminate Fl'; rewrite E', C.
    + now left.
    + destruct (Hsave (compared t)) as [S|[S1 S2]]; [left; exact S|].
      right. left. rewrite <- Hs, <- Ho. auto 12.
  - unfold syncBrowserFromRemote.
    destruct (generation (remoteSession_ (compared t)) <? 0); [now left|].
    destruct (List.length (tabs (remoteSession_ (compared t))) <? 1)%nat;
      [now left|].
    right. right. auto 10.
Qed.

(** X24.  [doSync_] starts nothing, a save or a restore, never both.  It
    starts a save only in autosync or autosave mode and with no save in
    progress, which it then marks; a restore only when it is not called
    for a local change, of a valid remote session, in autosync mode or,
    on the first sync, in autostart or autosave mode; and either only on a
    difference between the sessions, with a valid local session. *)
Theorem doSync_starts_by_mode (localIsNewer : option bool) (t : TabberClass) :
  (snd (doSync_ localIsNewer t) = []
   \/ snd (doSync_ localIsNewer t) = [StartSave]
   \/ snd (doSync_ localIsNewer t) = [StartRestore])
  /\ (In StartSave (snd (doSync_ localIsNewer t)) ->
      (mode (options_ t) = AUTOSYNC \/ mode (options_ t) = AUTOSAVE)
      /\ save_in_progess_ t = false
      /\ save_in_progess_ (fst (doSync_ localIsNewer t)) = true)
  /\ (In StartRestore (snd (doSync_ localIsNewer t)) ->
      localIsNewer <> Some true
      /\ (mode (options_ t) = AUTOSYNC
          \/ generation (localSession_ t) = 1
             /\ (mode (options_ t) = AUTOSTART \/ mode (options_ t) = AUTOSAVE))
      /\ isSessionValid (remoteSession_ (fst (doSync_ localIsNewer t))) = true
      /\ sync_in_progess_ (fst (doSync_ localIsNewer t)) = true)
  /\ (snd (doSync_ localIsNewer t) <> [] ->
      found (report t) = true
      /\ isSessionValid (localSession_ (fst (doSync_ localIsNewer t))) = true).
Proof.
  destruct (doSync_cases localIsNewer t)
    as [E|[(E & S & M & F & Vl & _)|(E & Fl & F & Vl & Vr & M)]];
    rewrite E; cbn [fst snd].
  - split; [auto|]. split; [intros []|]. split; [intros []|]. congruence.
  - split; [auto|]. split; [auto|]. split.
    + intros [H|[]]. discriminate H.
    + auto.
  - split; [auto|]. split.
    + intros [H|[]]. discriminate H.
    + split; [|auto]. intros _. split; [|auto].
      intros ->. discriminate Fl.
Qed.

(** X25.  Whatever [doSync_] starts, and also when it calls itself, it
    leaves the two sessions as one comparison of them does, shows the
    status of that comparison's report, and keeps the options. *)
Theorem doSync_reports_the_comparison (localIsNewer : option bool) (t : TabberClass) :
  localSession_ (fst (doSync_ localIsNewer t))
  = snd (fst (getSessionDiff (localSession_ t) (remoteSession_ t)))
  /\ remoteSession_ (fst (doSync_ localIsNewer t))
     = snd (getSessionDiff (localSession_ t) (remoteSession_ t))
  /\ (status_ (fst (doSync_ localIsNewer t)),
      statusMessage_ (fst (doSync_ localIsNewer t))) = status_of (report t)
  /\ options_ (fst (doSync_ localIsNewer t)) = options_ t
  /\ initialized_ (fst (doSync_ localIsNewer t)) = initialized_ t
  /\ debug (fst (doSync_ localIsNewer t)) = debug t.
Proof.
  destruct (compared_fields t) as (A & B & C & D & _ & _ & I & _ & G).
  destruct (doSync_cases localIsNewer t) as [E|[(E & _)|(E & _)]];
    rewrite E; cbn [fst]; cbn; auto 10.
Qed.

(** X26.  On the first sync (local generation 1) a call of [doSync_] that
    is not for a remote change starts no save. *)
Theorem doSync_first_time_never_saves (localIsNewer : option bool) (t : TabberClass) :
  generation (localSession_ t) = 1 ->
  localIsNewer <> Some false ->
  ~ In StartSave (snd (doSync_ localIsNewer t)).
Proof.
  intros G1 Hl.
  destruct (doSync_cases localIsNewer t)
    as [E|[(E & _ & _ & F & _ & [[_ N]|(Fl & Gl & Gr & N & _)])|(E & _)]];
    rewrite E; cbn [snd].
  - intros [].
  - contradiction.
  - exfalso. apply N.
    destruct localIsNewer as [[|]|]; cbn in Fl; try discriminate; [congruence|].
    apply orb_false_iff in Fl. destruct Fl as [_ Fl].
    apply Z.leb_gt in Fl.
    destruct (compared_twice t F Gl Gr) as (_ & _ & K).
    rewrite K; [assumption|lia].
  - intros [H|[]]. discriminate H.
Qed.

Lemma doSync_first_time_never_saves_witness :
  generation (localSession_ firstSync) = 1
  /\ ~ In StartSave (snd (doSync_ None firstSync)).
Proof.
  split; [reflexivity|].
  apply (doSync_first_time_never_saves None firstSync);
    [reflexivity|discriminate].
Defined.

Lemma live_app a : forall b timers, live (a ++ b) timers = live b (live a timers).
Proof.
  induction a as [|[h|d h] a IH]; intros b timers; cbn [app live];
    [reflexivity| |]; apply IH.
Qed.

Lemma schedule_step_one_timer delay handle p t timers :
  (timers = [] \/ exists h, timers = [h] /\ p = Some h) ->
  let '(_, p', _, out) := scheduleLocalSessionUpdate_ delay handle p t in
  live out timers = [] \/ exists h, live out timers = [h] /\ p' = Some h.
Proof.
  intros Inv. unfold scheduleLocalSessionUpdate_.
  assert (Hc : live match p with Some h => [ClearTimeout h] | None => [] end
                    timers = []).
  { destruct p as [h|]; cbn [live].
    - destruct Inv as [->|(h' & -> & E)]; [reflexivity|].
      injection E as ->. cbn. destruct (Pos.eq_dec h' h'); [reflexivity|congruence].
    - destruct Inv as [->|(h' & _ & E)]; [reflexivity|discriminate]. }
  destruct (sync_in_progess_ t).
  - left. exact Hc.
  - right. exists handle. rewrite live_app, Hc. cbn. auto.
Qed.

Lemma schedule_run_one_timer calls : forall p timers,
  (timers = [] \/ exists h, timers = [h] /\ p = Some h) ->
  live (snd (schedule_run calls p)) timers = []
  \/ exists h, live (snd (schedule_run calls p)) timers = [h]
               /\ fst (schedule_run calls p) = Some h.
Proof.
  induction calls as [|[[delay handle] t] calls IH]; intros p timers Inv.
  - exact Inv.
  - cbn [schedule_run].
    pose proof (schedule_step_one_timer delay handle p t timers Inv) as S.
    destruct (scheduleLocalSessionUpdate_ delay handle p t) as [[[res p'] t'] out].
    specialize (IH p' (live out timers) S).
    destruct (schedule_run calls p') as [p'' out']. cbn [fst snd] in *.
    now rewrite live_app.
Qed.

(** X27.  However often [scheduleLocalSessionUpdate_] is called, and
    whether or not a sync is in progress at a call, at most one of the
    timers it has set is not cleared, and that one is the timer in
    [pending_update_]. *)
Theorem schedule_keeps_one_timer (calls : list (Z * positive * TabberClass)) :
  (List.length (live (snd (schedule_run calls None)) []) <= 1)%nat
  /\ forall h, In h (live (snd (schedule_run calls None)) []) ->
               fst (schedule_run calls None) = Some h.
Proof.
  destruct (schedule_run_one_timer calls None [] (or_introl eq_refl))
    as [->|(h & -> & E)].
  - split; [cbn; lia|intros h []].
  - split; [cbn; lia|]. intros h' [<-|[]]. exact E.
Qed.

End SyncFacts.
